(** * simple-editor-pro: preview pipeline, URL normalizer and image serializer

    A shallow embedding of
      - [normalizeUrl]             (src/lib/tiptap-utils.ts),
      - [detectContentType] and the [processedContent] pipeline of
        [PreviewPanel]             (src/components/PreviewPanel.tsx),
      - [CustomImage.renderHTML]   (the custom image extension),
    together with the properties the specification states about them.

    JavaScript strings are sequences of UTF-16 code units; they are modelled
    as lists of code units ([list N]).  Regular expressions are embedded as
    syntax trees and run by a backtracking matcher that follows the
    ECMAScript matching order (greedy and lazy quantifiers, capture groups,
    back-references, [^]/[$] with the [m] flag, ASCII case folding for the
    [i] flag: every pattern of the program is ASCII). *)

From Stdlib Require Import NArith Ascii String.
From stdpp Require Import gmap list.

Set Warnings "-register-all".

Open Scope N_scope.
Open Scope list_scope.

(** ** Strings *)

Abbreviation jsstring := (list N).

(** A literal: the code units of an ASCII string. *)
Definition js (s : string) : jsstring :=
  map N_of_ascii (list_ascii_of_string s).

Definition ch (a : ascii) : N := N_of_ascii a.

(** The double-quote character. *)
Definition dquote : N := 34.

Definition str_eqb (a b : jsstring) : bool := bool_decide (a = b).

(** WhiteSpace and LineTerminator code units: the set removed by
    [String.prototype.trim] and matched by [\s]. *)
Definition isWhiteSpace (c : N) : bool :=
  ((9 <=? c) && (c <=? 13)) || (c =? 32) || (c =? 160) || (c =? 5760)
  || ((8192 <=? c) && (c <=? 8202)) || (c =? 8232) || (c =? 8233)
  || (c =? 8239) || (c =? 8287) || (c =? 12288) || (c =? 65279).

Definition isLineTerminator (c : N) : bool :=
  (c =? 10) || (c =? 13) || (c =? 8232) || (c =? 8233).

Fixpoint dropWhile {A} (p : A -> bool) (l : list A) : list A :=
  match l with
  | [] => []
  | x :: l' => if p x then dropWhile p l' else l
  end.

Definition trimStart (s : jsstring) : jsstring := dropWhile isWhiteSpace s.
Fixpoint trimEnd (s : jsstring) : jsstring :=
  match s with
  | [] => []
  | c :: s' =>
      match trimEnd s' with
      | [] => if isWhiteSpace c then [] else [c]
      | r => c :: r
      end
  end.
Definition trim (s : jsstring) : jsstring := trimEnd (trimStart s).

Fixpoint startsWith (p s : jsstring) : bool :=
  match p, s with
  | [], _ => true
  | a :: p', b :: s' => (a =? b) && startsWith p' s'
  | _ :: _, [] => false
  end.

(** [s.indexOf(p)]: [None] stands for -1. *)
Fixpoint indexOf (p s : jsstring) : option nat :=
  if startsWith p s then Some 0%nat
  else match s with
       | [] => None
       | _ :: s' => S <$> indexOf p s'
       end.

Definition includes (p s : jsstring) : bool :=
  match indexOf p s with Some _ => true | None => false end.

Definition substring (i j : nat) (s : jsstring) : jsstring :=
  take (j - i) (drop i s).

(** ASCII case mapping. *)
Definition upper (c : N) : N :=
  if (97 <=? c) && (c <=? 122) then c - 32 else c.
Definition lower (c : N) : N :=
  if (65 <=? c) && (c <=? 90) then c + 32 else c.

(** ** Regular expressions *)

Record flags := { ignoreCase : bool; multiline : bool }.

Inductive citem :=
| CChar (c : N)
| CRange (lo hi : N)
| CSpace          (* \s *)
| CNonSpace       (* \S *)
| CDigit.         (* \d *)

Inductive regex :=
| Eps
| Lit (c : N)
| Dot
| Cls (neg : bool) (items : list citem)
| Bol                                   (* ^ *)
| Eol                                   (* $ *)
| Seq (r1 r2 : regex)
| Rep (mn : nat) (mx : option nat) (greedy : bool) (r : regex)
| Grp (n : nat) (r : regex)            (* n-th capturing group *)
| Bref (n : nat).                       (* \n *)

Definition cat (rs : list regex) : regex := foldr Seq Eps rs.
Definition lit (s : string) : regex := cat (map Lit (js s)).
Definition star (r : regex) : regex := Rep 0 None true r.
Definition lazy_star (r : regex) : regex := Rep 0 None false r.
Definition plus (r : regex) : regex := Rep 1 None true r.
Definition opt (r : regex) : regex := Rep 0 (Some 1%nat) true r.
Definition rng (a b : ascii) : citem := CRange (ch a) (ch b).
Definition chr (a : ascii) : citem := CChar (ch a).

(** The capture groups a pattern contains (reset at every iteration of a
    quantifier around them). *)
Fixpoint grp_ids (r : regex) : list nat :=
  match r with
  | Seq r1 r2 => grp_ids r1 ++ grp_ids r2
  | Rep _ _ _ r' => grp_ids r'
  | Grp n r' => n :: grp_ids r'
  | _ => []
  end.

(** The matcher's state: the code unit before the current position (for
    [^] under the [m] flag), the input that is left, and the captures. *)
Record mstate := MState {
  prev : option N;
  rest : jsstring;
  caps : gmap nat jsstring
}.

Definition item_has (c : N) (it : citem) : bool :=
  match it with
  | CChar x => c =? x
  | CRange lo hi => (lo <=? c) && (c <=? hi)
  | CSpace => isWhiteSpace c
  | CNonSpace => negb (isWhiteSpace c)
  | CDigit => (48 <=? c) && (c <=? 57)
  end.

Section Matcher.
Variable fl : flags.
Context {B : Type}.

Definition canon (c : N) : N := if ignoreCase fl then upper c else c.

Definition item_matches (c : N) (it : citem) : bool :=
  item_has c it
  || (ignoreCase fl && (item_has (lower c) it || item_has (upper c) it)).

Definition cls_matches (neg : bool) (items : list citem) (c : N) : bool :=
  xorb neg (existsb (item_matches c) items).

(** Consume one code unit satisfying [p]. *)
Definition step (p : N -> bool) (st : mstate) (k : mstate -> option B)
  : option B :=
  match rest st with
  | x :: s' => if p x then k (MState (Some x) s' (caps st)) else None
  | [] => None
  end.

(** Consume the string [w], compared up to case under the [i] flag. *)
Fixpoint consume (w : jsstring) (st : mstate) (k : mstate -> option B)
  : option B :=
  match w with
  | [] => k st
  | c :: w' => step (fun x => canon x =? canon c) st (fun st' => consume w' st' k)
  end.

Definition at_bol (st : mstate) : bool :=
  match prev st with
  | None => true
  | Some c => multiline fl && isLineTerminator c
  end.

Definition at_eol (st : mstate) : bool :=
  match rest st with
  | [] => true
  | c :: _ => multiline fl && isLineTerminator c
  end.

Definition clear_caps (ids : list nat) (st : mstate) : mstate :=
  MState (prev st) (rest st) (foldr delete (caps st) ids).

Definition set_cap (n : nat) (from st : mstate) : mstate :=
  MState (prev st) (rest st)
    (<[n := take (length (rest from) - length (rest st)) (rest from)]> (caps st)).

(** The quantifier [r{mn,mx}] (greedy or lazy) around the matcher [mr] of
    its body, as RepeatMatcher: an iteration that consumes nothing is
    refused once the minimum is reached; the captures of the body are
    reset before each iteration.  [fuel] bounds the iterations. *)
Fixpoint rep_loop (mr : mstate -> (mstate -> option B) -> option B)
    (ids : list nat) (greedy : bool) (k : mstate -> option B)
    (fuel mn : nat) (mx : option nat) (st : mstate) {struct fuel}
  : option B :=
  match fuel with
  | O => None
  | S fuel' =>
      match mx with
      | Some O => k st
      | _ =>
          let iter :=
            mr (clear_caps ids st)
              (fun st' =>
                 if (mn =? 0)%nat
                    && (length (rest st') =? length (rest st))%nat
                 then None
                 else rep_loop mr ids greedy k fuel' (pred mn) (pred <$> mx) st') in
          if (0 <? mn)%nat then iter
          else if greedy
               then match iter with Some b => Some b | None => k st end
               else match k st with Some b => Some b | None => iter end
      end
  end.

(** [m r st k]: match [r] at [st] and continue with [k]; the first
    success in backtracking order is the result. *)
Fixpoint m (r : regex) (st : mstate) (k : mstate -> option B) {struct r}
  : option B :=
  match r with
  | Eps => k st
  | Lit c => step (fun x => canon x =? canon c) st k
  | Dot => step (fun x => negb (isLineTerminator x)) st k
  | Cls neg items => step (cls_matches neg items) st k
  | Bol => if at_bol st then k st else None
  | Eol => if at_eol st then k st else None
  | Seq r1 r2 => m r1 st (fun st' => m r2 st' k)
  | Grp n r' => m r' st (fun st' => k (set_cap n st st'))
  | Bref n => consume (default [] (caps st !! n)) st k
  | Rep mn mx greedy r' =>
      rep_loop (m r') (grp_ids r') greedy k
        (S (mn + length (rest st))) mn mx st
  end.
End Matcher.

(** The leftmost match at or after the current position: the skipped code
    units and the state at the end of the match. *)
Fixpoint search (fl : flags) (r : regex) (p : option N) (s : jsstring)
  : option (jsstring * mstate) :=
  match m fl r (MState p s ∅) Some with
  | Some st => Some ([], st)
  | None =>
      match s with
      | [] => None
      | c :: s' =>
          (fun '(sk, st) => (c :: sk, st)) <$> search fl r (Some c) s'
      end
  end.

(** [re.test(s)] for a regex without the [g] flag. *)
Definition test (fl : flags) (r : regex) (s : jsstring) : bool :=
  match search fl r None s with Some _ => true | None => false end.

Definition fl_i : flags := {| ignoreCase := true; multiline := false |}.
Definition fl_m : flags := {| ignoreCase := false; multiline := true |}.
Definition fl_0 : flags := {| ignoreCase := false; multiline := false |}.

(** ** normalizeUrl (src/lib/tiptap-utils.ts) *)

Definition alnum : list citem := [rng "a" "z"; rng "0" "9"].
Definition alnum_hyphen : list citem := [rng "a" "z"; rng "0" "9"; chr "-"].

(** [/^https?:\/\//i] *)
Definition re_http : regex :=
  cat [Bol; lit "http"; opt (Lit (ch "s")); lit "://"].

(** [/^[a-z][a-z0-9+.-]*:/i] *)
Definition re_scheme : regex :=
  cat [Bol; Cls false [rng "a" "z"];
       star (Cls false [rng "a" "z"; rng "0" "9"; chr "+"; chr "."; chr "-"]);
       Lit (ch ":")].

(** [/^[a-z0-9]([a-z0-9-]*[a-z0-9])?(\.[a-z0-9]([a-z0-9-]*[a-z0-9])?)+/i] *)
Definition re_domain : regex :=
  cat [Bol; Cls false alnum;
       opt (Grp 1 (cat [star (Cls false alnum_hyphen); Cls false alnum]));
       plus (Grp 2 (cat [Lit (ch "."); Cls false alnum;
                         opt (Grp 3 (cat [star (Cls false alnum_hyphen);
                                          Cls false alnum]))]))].

Definition normalizeUrl (url : jsstring) : jsstring :=
  match url with
  | [] => url                                   (* !url *)
  | _ =>
      let trimmedUrl := trim url in
      if test fl_i re_http trimmedUrl then trimmedUrl
      else if test fl_i re_scheme trimmedUrl then trimmedUrl
      else if startsWith (js "/") trimmedUrl || startsWith (js "#") trimmedUrl
              || str_eqb trimmedUrl []
      then trimmedUrl
      else if test fl_i re_domain trimmedUrl then js "https://" ++ trimmedUrl
      else trimmedUrl
  end.

(** ** Global matching: [s.match(/re/g)] and [s.replace(/re/g, fn)] *)

(** All the matches of a [g] regex from left to right: for each one the text
    skipped before it, the matched text and the captures; and the text left
    after the last match.  After an empty match the search resumes one code
    unit further (AdvanceStringIndex). *)
Definition push_skipped (c : N)
    (res : list (jsstring * jsstring * gmap nat jsstring) * jsstring)
  : list (jsstring * jsstring * gmap nat jsstring) * jsstring :=
  match res with
  | ((sk, mt, cp) :: ms, tl) => ((c :: sk, mt, cp) :: ms, tl)
  | ([], tl) => ([], c :: tl)
  end.

Fixpoint exec_all (fuel : nat) (fl : flags) (r : regex) (p : option N)
    (s : jsstring)
  : list (jsstring * jsstring * gmap nat jsstring) * jsstring :=
  match fuel with
  | O => ([], s)
  | S fuel' =>
      match search fl r p s with
      | None => ([], s)
      | Some (sk, st) =>
          let from := drop (length sk) s in
          let matched := take (length from - length (rest st)) from in
          let later :=
            match matched, rest st with
            | [], c :: s' => push_skipped c (exec_all fuel' fl r (Some c) s')
            | [], [] => ([], [])
            | _ :: _, _ => exec_all fuel' fl r (prev st) (rest st)
            end in
          ((sk, matched, caps st) :: later.1, later.2)
      end
  end.

Definition match_all (fl : flags) (r : regex) (s : jsstring)
  : list jsstring :=
  map (fun x => x.1.2) (exec_all (2 + length s) fl r None s).1.

Definition replace_all (fl : flags) (r : regex)
    (f : jsstring -> gmap nat jsstring -> jsstring) (s : jsstring)
  : jsstring :=
  let res := exec_all (2 + length s) fl r None s in
  concat (map (fun x => x.1.1 ++ f x.1.2 x.2) res.1) ++ res.2.

(** ** detectContentType (src/components/PreviewPanel.tsx) *)

Inductive contentType := Html | Markdown.

Definition anychar : regex := Cls false [CSpace; CNonSpace].   (* [\s\S] *)

(** [/<\/?[a-z][\s\S]*>/] (flags [i] and [gi]) *)
Definition htmlTagPattern : regex :=
  cat [Lit (ch "<"); opt (Lit (ch "/")); Cls false [rng "a" "z"];
       star anychar; Lit (ch ">")].

(** [/<\/[a-z][\s\S]*>/gi] *)
Definition closingTagPattern : regex :=
  cat [Lit (ch "<"); Lit (ch "/"); Cls false [rng "a" "z"];
       star anychar; Lit (ch ">")].

Definition markdownPatterns : list regex :=
  [ (* /#{1,6}\s+.+/m *)
    cat [Rep 1 (Some 6%nat) true (Lit (ch "#")); plus (Cls false [CSpace]); plus Dot];
    (* /\*\*.*?\*\*/m *)
    cat [lit "**"; lazy_star Dot; lit "**"];
    (* /\*[^*\n].*?\*/m *)
    cat [Lit (ch "*"); Cls true [chr "*"; CChar 10]; lazy_star Dot; Lit (ch "*")];
    (* /^\- .+/m *)
    cat [Bol; lit "- "; plus Dot];
    (* /^\d+\. .+/m *)
    cat [Bol; plus (Cls false [CDigit]); lit ". "; plus Dot];
    (* /```[\s\S]*?```/m *)
    cat [lit "```"; lazy_star anychar; lit "```"];
    (* /`[^`\n]+`/m *)
    cat [Lit (ch "`"); plus (Cls true [chr "`"; CChar 10]); Lit (ch "`")];
    (* /\[([^\]]* )\]\([^)]+\)/m, the blank is not in the source *)
    cat [Lit (ch "["); Grp 1 (star (Cls true [chr "]"])); lit "]("; 
         plus (Cls true [chr ")"]); Lit (ch ")")];
    (* /!\[\]\([^)]+\)/m *)
    cat [lit "![]("; plus (Cls true [chr ")"]); Lit (ch ")")];
    (* /!\[[^\]]*\]\([^)]+\)/m *)
    cat [lit "!["; star (Cls true [chr "]"]); lit "]("; 
         plus (Cls true [chr ")"]); Lit (ch ")")];
    (* /^> .+/m *)
    cat [Bol; lit "> "; plus Dot];
    (* /^---$/m *)
    cat [Bol; lit "---"; Eol];
    (* /\|.+\|/m *)
    cat [Lit (ch "|"); plus Dot; Lit (ch "|")] ].

Definition hasHtmlTags (trimmed : jsstring) : bool :=
  test fl_i htmlTagPattern trimmed.
Definition htmlTagCount (trimmed : jsstring) : nat :=
  length (match_all fl_i htmlTagPattern trimmed).
Definition closingTagCount (trimmed : jsstring) : nat :=
  length (match_all fl_i closingTagPattern trimmed).
Definition markdownScore (trimmed : jsstring) : nat :=
  foldl (fun score pattern => (score + (if test fl_m pattern trimmed then 1 else 0))%nat)
        0%nat markdownPatterns.

Definition detectContentType (content : jsstring) : contentType :=
  if bool_decide (content = []) || (length (trim content) =? 0)%nat then Html
  else
    let trimmed := trim content in
    if hasHtmlTags trimmed && (0 <? closingTagCount trimmed)%nat
       && (2 <=? htmlTagCount trimmed)%nat
    then Html
    else
      let score := markdownScore trimmed in
      if hasHtmlTags trimmed && (score =? 0)%nat then Html
      else if (0 <? score)%nat then Markdown
      else if startsWith (js "<") trimmed && includes (js ">") trimmed then Html
      else Html.

(** ** The image node: CustomImage.renderHTML and CustomImageNodeView *)

(** A JavaScript value held by an attribute. *)
Inductive jsvalue :=
| VNull
| VUndefined
| VString (s : jsstring)
| VNumber (n : N)
| VBoolean (b : bool).

(** [node.attrs] of an image node; [None] is [null] or [undefined]. *)
Record imageAttrs := ImageAttrs {
  src : option jsstring;
  originalSrc : option jsstring;
  alt : option jsstring;
  title : option jsstring
}.

(** [a || b] on values that are strings or [null]. *)
Definition or_else (a b : option jsstring) : option jsstring :=
  match a with
  | Some (_ :: _) => a
  | _ => b
  end.

(** The pattern of [trimmedSrc.match]: from the start, one or more code
    units that are not whitespace, a double quote or an apostrophe, as
    capture 1. *)
Definition re_url_part : regex :=
  cat [Bol; Grp 1 (plus (Cls true [CSpace; CChar dquote; chr "'"]))].

Definition looks_contaminated (trimmedSrc : jsstring) : bool :=
  includes (js " alt=") trimmedSrc || includes (js " title=") trimmedSrc
  || includes (js "alt=" ++ [dquote]) trimmedSrc
  || includes (js "title=" ++ [dquote]) trimmedSrc.

(** The first part of [renderHTML]: the value of the local [originalSrc]
    after the clean-up. *)
Definition cleanOriginalSrc (attrs : imageAttrs) : option jsstring :=
  match or_else (originalSrc attrs) (src attrs) with
  | Some (c :: o') =>
      let o := c :: o' in
      let trimmedSrc := trim o in
      if looks_contaminated trimmedSrc then
        match indexOf (js " ") trimmedSrc with
        | Some (S i) => Some (substring 0 (S i) trimmedSrc)
        | _ =>
            match search fl_0 re_url_part None trimmedSrc with
            | Some (_, st) =>
                match caps st !! 1%nat with
                | Some u => Some u
                | None => Some o
                end
            | None => Some o
            end
        end
      else Some trimmedSrc
  | other => other
  end.

Definition string_values (o : gmap jsstring jsvalue) : gmap jsstring jsstring :=
  omap (fun v => match v with VString s => Some s | _ => None end) o.

Definition set_nonempty (key : jsstring) (v : option jsstring)
    (o : gmap jsstring jsstring) : gmap jsstring jsstring :=
  match v with
  | Some (c :: v') => <[key := trim (c :: v')]> o
  | _ => o
  end.

(** [renderHTML({ HTMLAttributes, node })]: the attributes of the [img]
    element written by [getHTML()]. *)
Definition renderHTML (HTMLAttributes : gmap jsstring jsvalue)
    (attrs : imageAttrs) : gmap jsstring jsstring :=
  let restAttributes :=
    delete (js "title") (delete (js "alt") (delete (js "src") HTMLAttributes)) in
  set_nonempty (js "title") (title attrs)
    (set_nonempty (js "alt") (alt attrs)
       (set_nonempty (js "src") (cleanOriginalSrc attrs)
          (string_values restAttributes))).


(** [parseHTML().getAttrs]: the attributes read back from an [img] element;
    [None] when the rule rejects the element. *)
Definition getAttrs (filterImageSrc : option (jsstring -> option jsstring))
    (img : gmap jsstring jsstring) : option imageAttrs :=
  match img !! js "src" with
  | Some (c :: s') =>
      let s := c :: s' in
      match filterImageSrc with
      | Some f =>
          match f s with
          | Some filteredSrc =>
              Some (ImageAttrs (Some filteredSrc) (Some filteredSrc)
                      (img !! js "alt") (img !! js "title"))
          | None => None
          end
      | None =>
          Some (ImageAttrs (Some s) (Some s) (img !! js "alt") (img !! js "title"))
      end
  | _ => None
  end.

Definition tab : N := 9.

(** ** The tag render dispatcher (PreviewPanel, [processedContent])

    The markup parser (html-react-parser) is outside this source.  What is
    modelled of it is its loop over the nodes it parsed: for every node it
    calls [options.replace]; when the value returned is a valid React
    element it stands in place of the node; any other value (a string, an
    array, [undefined]) is dropped and the node is rendered by default, its
    children being walked with the same options.  An object used as a map
    ([attribs], [renderers]) is a [gmap] of its own keys: the order of the
    keys is not kept, and what a plain object inherits is added where the
    code looks a key up. *)

(** A node of the tree built by the markup parser (domhandler). *)
Inductive dom :=
| DText (data : jsstring)
| DTag (name : jsstring) (attribs : gmap jsstring jsstring) (children : list dom)
| DOther (kind : N).      (* comment, directive, script, style: type is not 'tag' *)

(** A React element built by a renderer: opaque, but for [props.children]
    ([None] when absent or falsy). *)
Record element := Element { el_id : N; props_children : option N }.

(** What a call [renderer(context)] does. *)
Inductive result :=
| RElement (el : element)        (* React.isValidElement(result) *)
| RString (s : jsstring)         (* typeof result === 'string' *)
| RInvalid                       (* any other value *)
| RThrows (error : N).           (* the call throws *)

Record TagRenderContext := RenderContext {
  tagName : jsstring;
  attributes : gmap jsstring jsstring;
  innerHTML : jsstring;
  originalHTML : jsstring
}.

Abbreviation TagRenderer := (TagRenderContext -> result).

(** What the parser hands to React. *)
Inductive react :=
| TextNode (data : jsstring)
| HostElement (name : jsstring) (attribs : gmap jsstring jsstring)
    (children : list react)                       (* default rendering *)
| Custom (el : element)                           (* the renderer's element *)
| Cloned (el : element) (existingChildren : option N)
    (childElements : list react)                   (* React.cloneElement *)
| Fragment (nodes : list react)                   (* parse(result, recursiveOptions) *)
| Literal (s : jsstring)                          (* the renderer's plain string *)
| OtherNode (kind : N).

(** [React.isValidElement] on what [options.replace] returns.  [parse]
    returns the only item when there is exactly one and an array otherwise:
    a fragment is an element when its only item is one. *)
Fixpoint isValidElement (r : react) : bool :=
  match r with
  | HostElement _ _ _ | Custom _ | Cloned _ _ _ => true
  | Fragment [x] => isValidElement x
  | _ => false
  end.

(** What the parser keeps of the value returned by [options.replace]. *)
Definition accepted (replacement : option react) : option react :=
  match replacement with
  | Some el => if isValidElement el then Some el else None
  | None => None
  end.

Inductive logentry :=
| LogError (tag : jsstring) (error : N)   (* console.error(`Error rendering ${tagName} tag:`, error) *)
| LogWarn (tag : jsstring).               (* console.warn(`Renderer for ${tagName} returned invalid value, ...`) *)

(** A computation that logs and may throw. *)
Inductive outcome (A : Type) :=
| Ok (a : A) (log : list logentry)
| Thrown (error : N) (log : list logentry).
Arguments Ok {A} a log.
Arguments Thrown {A} error log.

(** The errors the engine itself raises, among the values that can be
    thrown: the one for an exhausted call stack and the one for a call of
    what is no function. *)
Definition RangeError : N := 4294967295.
Definition TypeError : N := 4294967294.

Definition bind {A B} (x : outcome A) (f : A -> list logentry -> outcome B)
  : outcome B :=
  match x with
  | Ok a log => f a log
  | Thrown e log => Thrown e log
  end.

(** [try { body } catch (error) { handler }] *)
Definition try_catch {A} (body : outcome A)
    (handler : N -> list logentry -> outcome A) : outcome A :=
  match body with
  | Thrown e log => handler e log
  | other => other
  end.

(** The [replace] callbacks built by [processedContent]. *)
Inductive options :=
| Options
| RecursiveOptions (tagName : jsstring).

Definition truthy (v : option jsstring) : bool :=
  match v with Some (_ :: _) => true | _ => false end.

(** The default link pass, on [domNode.attribs]. *)
Definition linkDefaults (attribs : gmap jsstring jsstring)
  : gmap jsstring jsstring :=
  let a1 := match attribs !! js "href" with
            | Some (c :: h) => <[js "href" := normalizeUrl (c :: h)]> attribs
            | _ => attribs
            end in
  let a2 := if truthy (a1 !! js "target") then a1
            else <[js "target" := js "_blank"]> a1 in
  if truthy (a2 !! js "rel") then a2
  else <[js "rel" := js "noopener noreferrer"]> a2.

Section Dispatcher.
(** [String.prototype.toLowerCase] and the function from markup to nodes
    are parameters: the properties hold for every choice of them. *)
Variable toLowerCase : jsstring -> jsstring.
Variable htmlToDOM : jsstring -> list dom.
Variable mergedRenderers : gmap jsstring TagRenderer.

(** [mergedRenderers[tagName]]: an own key, or else what a plain object
    inherits.  Of the members of [Object.prototype] two have a name that a
    lower-cased tag name can be: [constructor], the function [Object], which
    answers the context it is given, neither a string nor an element; and
    [__proto__], an object that is no function, so that calling it throws. *)
Definition renderer_of (tagName : jsstring) : option TagRenderer :=
  match mergedRenderers !! tagName with
  | Some renderer => Some renderer
  | None =>
      if bool_decide (tagName = js "constructor") then Some (fun _ => RInvalid)
      else if bool_decide (tagName = js "__proto__")
           then Some (fun _ => RThrows TypeError)
           else None
  end.

Definition mkContext (tagName : jsstring)
    (attribs : gmap jsstring jsstring) (children : list dom)
  : TagRenderContext :=
  let attributes := kmap toLowerCase attribs in
  let innerHTML := match children with
                   | _ :: _ => []
                   | [] => []
                   end in
  RenderContext tagName attributes innerHTML [].

Section Step.
(** [domToReact] and [parse] as called from inside the callback. *)
Variable rec : options -> list dom -> list logentry -> outcome (list react).

(** [options.replace(domNode)]: the node after the callback (its
    attributes may have been rewritten) and the replacement, [None]
    for [undefined]. *)
Definition replace (domNode : dom) (log : list logentry)
  : outcome (dom * option react) :=
  match domNode with
  | DTag name attribs children =>
      if bool_decide (name = []) then Ok (domNode, None) log
      else
        let tagName := toLowerCase name in
        let attribs' :=
          if bool_decide (tagName = js "a")
             && negb (bool_decide (is_Some (mergedRenderers !! js "a")))
          then linkDefaults attribs else attribs in
        let domNode' := DTag name attribs' children in
        match renderer_of tagName with
        | None => Ok (domNode', None) log
        | Some renderer =>
            try_catch
              (match renderer (mkContext tagName attribs' children) with
               | RThrows error => Thrown error log
               | RElement el =>
                   match children with
                   | _ :: _ =>
                       bind (rec Options children log)
                         (fun childElements log' =>
                            Ok (domNode', Some (Cloned el (props_children el) childElements)) log')
                   | [] => Ok (domNode', Some (Custom el)) log
                   end
               | RString s =>
                   if startsWith (js "<") (trim s) then
                     bind (rec (RecursiveOptions tagName) (htmlToDOM s) log)
                       (fun nodes log' => Ok (domNode', Some (Fragment nodes)) log')
                   else Ok (domNode', Some (Literal s)) log
               | RInvalid => Ok (domNode', None) (log ++ [LogWarn tagName])
               end)
              (fun error log' =>
                 Ok (domNode', None) (log' ++ [LogError tagName error]))
        end
  | _ => Ok (domNode, None) log
  end.

(** [recursiveOptions.replace(node)] *)
Definition replace_recursive (tagName : jsstring) (node : dom)
    (log : list logentry) : outcome (dom * option react) :=
  match node with
  | DTag name _ _ =>
      if bool_decide (name = tagName) then Ok (node, None) log
      else replace node log
  | _ => replace node log
  end.

Definition call_replace (opts : options) (node : dom) (log : list logentry)
  : outcome (dom * option react) :=
  match opts with
  | Options => replace node log
  | RecursiveOptions tagName => replace_recursive tagName node log
  end.

(** One round of the parser's loop over sibling nodes: the value returned
    by [options.replace] is pushed when it is a valid element; otherwise
    the node, as the callback left it, is rendered by default. *)
Definition domToReact_step (opts : options) (nodes : list dom)
    (log : list logentry) : outcome (list react) :=
  match nodes with
  | [] => Ok [] log
  | node :: siblings =>
      bind (call_replace opts node log) (fun r log1 =>
        match r.1, accepted r.2 with
        | _, Some replacement =>
            bind (rec opts siblings log1) (fun rs log2 =>
              Ok (replacement :: rs) log2)
        | DText data, None =>
            bind (rec opts siblings log1) (fun rs log2 =>
              Ok (TextNode data :: rs) log2)
        | DTag name attribs children, None =>
            bind (rec opts children log1) (fun cs log2 =>
              bind (rec opts siblings log2) (fun rs log3 =>
                Ok (HostElement name attribs cs :: rs) log3))
        | DOther kind, None =>
            bind (rec opts siblings log1) (fun rs log2 =>
              Ok (OtherNode kind :: rs) log2)
        end)
  end.
End Step.

(** The tree walk.  [fuel] bounds the depth of the calls: a call beyond it
    exhausts the call stack, and the engine throws [RangeError], which a
    [try] around the call catches as any other error. *)
Fixpoint domToReact (fuel : nat) (opts : options) (nodes : list dom)
    (log : list logentry) {struct fuel} : outcome (list react) :=
  match fuel with
  | O => Thrown RangeError log
  | S fuel' => domToReact_step (domToReact fuel') opts nodes log
  end.
End Dispatcher.

(** ** The path without renderers: anchors rewritten in the string *)

(** The pattern of [htmlContent.replace], flags [gi]: [<a], whitespace,
    capture 1 (lazy, no [>]), [href=], capture 2 (a double quote or an
    apostrophe), capture 3 (lazy, no quote), back-reference 2, capture 4
    (greedy, no [>]), [>]. *)
Definition re_anchor : regex :=
  cat [lit "<a"; plus (Cls false [CSpace]);
       Grp 1 (lazy_star (Cls true [chr ">"]));
       lit "href=";
       Grp 2 (Cls false [CChar dquote; chr "'"]);
       Grp 3 (lazy_star (Cls true [CChar dquote; chr "'"]));
       Bref 2;
       Grp 4 (star (Cls true [chr ">"]));
       Lit (ch ">")].

Definition target_blank : jsstring :=
  js " target=" ++ [dquote] ++ js "_blank" ++ [dquote].
Definition rel_noopener : jsstring :=
  js " rel=" ++ [dquote] ++ js "noopener noreferrer" ++ [dquote].

(** The replacement callback [(_match, beforeHref, quote, url, afterHref)]. *)
Definition rewrite_anchor (_match : jsstring) (groups : gmap nat jsstring)
  : jsstring :=
  let beforeHref := default [] (groups !! 1%nat) in
  let quote := default [] (groups !! 2%nat) in
  let url := default [] (groups !! 3%nat) in
  let afterHref := default [] (groups !! 4%nat) in
  let normalizedUrl := normalizeUrl url in
  let newAttrs := beforeHref ++ js "href=" ++ quote ++ normalizedUrl ++ quote ++ afterHref in
  let newAttrs := if test fl_i (lit "target=") newAttrs then newAttrs
                  else newAttrs ++ target_blank in
  let newAttrs := if test fl_i (lit "rel=") newAttrs then newAttrs
                  else newAttrs ++ rel_noopener in
  js "<a " ++ newAttrs ++ js ">".

Definition processedHtml (htmlContent : jsstring) : jsstring :=
  replace_all fl_i re_anchor rewrite_anchor htmlContent.

(** ** processedContent *)

Inductive contentTypeProp := TypeHtml | TypeMarkdown | TypeAuto.

Inductive processed :=
| AsHtml (content : jsstring)            (* { type: 'html', content } *)
| AsReact (elements : list react).       (* { type: 'react', elements } *)

(** [parse] returns the only element when there is exactly one and an array
    otherwise; the result is kept when it is an array or a valid element. *)
Fixpoint is_renderable (r : react) : bool :=
  match r with
  | TextNode _ | Literal _ => false
  | Fragment [x] => is_renderable x
  | _ => true
  end.

Definition array_or_element (elements : list react) : bool :=
  match elements with
  | [x] => is_renderable x
  | _ => true
  end.

Section Pipeline.
Variable toLowerCase : jsstring -> jsstring.
Variable htmlToDOM : jsstring -> list dom.
(** [marked.parse]; [None] when it throws. *)
Variable marked : jsstring -> option jsstring.

(** The value the memo holds, [Some] in every case: what the walk throws
    is caught and the markup is handed over as it is. *)
Definition processedContent (fuel : nat) (content : jsstring)
    (contentType : contentTypeProp) (mergedRenderers : gmap jsstring TagRenderer)
  : option processed :=
  let actualContentType :=
    match contentType with
    | TypeAuto => detectContentType content
    | TypeHtml => Html
    | TypeMarkdown => Markdown
    end in
  let htmlContent :=
    match actualContentType with
    | Markdown => default content (marked content)
    | Html => content
    end in
  if (size mergedRenderers =? 0)%nat then Some (AsHtml (processedHtml htmlContent))
  else
    match htmlContent with
    | [] => Some (AsReact [])
    | _ =>
      match domToReact toLowerCase htmlToDOM mergedRenderers fuel Options
              (htmlToDOM htmlContent) [] with
      | Ok elements _ =>
          if array_or_element elements then Some (AsReact elements)
          else Some (AsHtml htmlContent)
      | Thrown _ _ => Some (AsHtml htmlContent)
      end
    end.
End Pipeline.

(** ** A parser for well-formed fragments

    Used to run the dispatcher on concrete markup: text, elements with
    quoted attributes, nesting.  The theorems on the dispatcher hold for
    every parser. *)
Module Fragment.

Fixpoint span {A} (p : A -> bool) (l : list A) : list A * list A :=
  match l with
  | x :: l' => if p x then let '(a, b) := span p l' in (x :: a, b) else ([], l)
  | [] => ([], [])
  end.

Definition name_char (c : N) : bool :=
  negb (isWhiteSpace c || (c =? ch "/") || (c =? ch ">") || (c =? ch "=")).

(** Attributes [key=quote value quote], up to [>] or [/>]. *)
Fixpoint attrs (fuel : nat) (s : jsstring)
  : gmap jsstring jsstring * jsstring :=
  match fuel with
  | O => (∅, s)
  | S fuel' =>
      let s := dropWhile isWhiteSpace s in
      match span name_char s with
      | ([], _) => (∅, s)
      | (key, c :: q :: s1) =>
          if (c =? ch "=") && ((q =? dquote) || (q =? ch "'")) then
            let '(value, s2) := span (fun x => negb (x =? q)) s1 in
            let '(more, s3) := attrs fuel' (tail s2) in
            (<[map lower key := value]> more, s3)
          else
            let '(more, s3) := attrs fuel' (c :: q :: s1) in
            (<[map lower key := []]> more, s3)
      | (key, s1) => ({[map lower key := []]}, s1)
      end
  end.

(** Nodes up to the next closing tag, and the text after them. *)
Fixpoint nodes (fuel : nat) (s : jsstring) : list dom * jsstring :=
  match fuel with
  | O => ([], s)
  | S fuel' =>
      match s with
      | [] => ([], [])
      | c :: s1 =>
          if c =? ch "<" then
            match s1 with
            | d :: _ =>
                if d =? ch "/" then ([], s)
                else
                  let '(name, s2) := span name_char s1 in
                  let '(at_, s3) := attrs (length s2) s2 in
                  match s3 with
                  | e :: s4 =>
                      if e =? ch "/" then
                        let '(sibs, s5) := nodes fuel' (tail s4) in
                        (DTag (map lower name) at_ [] :: sibs, s5)
                      else
                        let '(kids, s5) := nodes fuel' s4 in
                        let s6 := tail (dropWhile (fun x => negb (x =? ch ">")) s5) in
                        let '(sibs, s7) := nodes fuel' s6 in
                        (DTag (map lower name) at_ kids :: sibs, s7)
                  | [] => ([DTag (map lower name) at_ []], [])
                  end
            | [] => ([DText s], [])
            end
          else
            let '(text, s2) := span (fun x => negb (x =? ch "<")) s in
            let '(sibs, s3) := nodes fuel' s2 in
            (DText text :: sibs, s3)
      end
  end.

Definition parse (s : jsstring) : list dom := (nodes (S (length s)) s).1.

End Fragment.


(** ** The mention list (MentionList, in the bundle of PreviewPanel.tsx)

    The component keeps the index of the selected item; the keys move it
    and [Enter] hands the selected item to [props.command].  The state is
    threaded through the key events, one render per event; the calls of
    [props.command] are recorded in order. *)

(** The numbers the index takes: an integer or [NaN]. *)
Inductive number :=
| Int (z : Z)
| NaN.

Definition num_add (a b : number) : number :=
  match a, b with
  | Int x, Int y => Int (x + y)
  | _, _ => NaN
  end.

Definition num_sub (a b : number) : number :=
  match a, b with
  | Int x, Int y => Int (x - y)
  | _, _ => NaN
  end.

(** [a % n]: the remainder has the sign of [a]; [NaN] when [n] is zero. *)
Definition num_rem (a n : number) : number :=
  match a, n with
  | Int x, Int y => if (y =? 0)%Z then NaN else Int (Z.rem x y)
  | _, _ => NaN
  end.

Record mentionState (A : Type) := MentionState {
  selectedIndex : number;
  commanded : list A          (* the calls of props.command, in order *)
}.
Arguments MentionState {A} selectedIndex commanded.
Arguments selectedIndex {A} _.
Arguments commanded {A} _.

Section MentionList.
Context {A : Type}.
Variable items : list A.

(** [props.items[index]]: [None] for [undefined]. *)
Definition item_at (index : number) : option A :=
  match index with
  | Int i => if (0 <=? i)%Z then items !! Z.to_nat i else None
  | NaN => None
  end.

Definition items_length : number := Int (Z.of_nat (length items)).

Definition selectItem (index : number) (st : mentionState A) : mentionState A :=
  match item_at index with
  | Some item => MentionState (selectedIndex st) (commanded st ++ [item])
  | None => st
  end.

Definition upHandler (st : mentionState A) : mentionState A :=
  MentionState
    (num_rem (num_sub (num_add (selectedIndex st) items_length) (Int 1))
       items_length)
    (commanded st).

Definition downHandler (st : mentionState A) : mentionState A :=
  MentionState (num_rem (num_add (selectedIndex st) (Int 1)) items_length)
    (commanded st).

Definition enterHandler (st : mentionState A) : mentionState A :=
  selectItem (selectedIndex st) st.

(** [onKeyDown({ event })]: whether the key was handled, and the state. *)
Definition onKeyDown (key : jsstring) (st : mentionState A)
  : bool * mentionState A :=
  if str_eqb key (js "ArrowUp") then (true, upHandler st)
  else if str_eqb key (js "ArrowDown") then (true, downHandler st)
  else if str_eqb key (js "Enter") then (true, enterHandler st)
  else (false, st).

(** The keys pressed one after the other, from [useState(0)]. *)
Definition press (st : mentionState A) (key : jsstring) : mentionState A :=
  (onKeyDown key st).2.

Definition mention_init : mentionState A := MentionState (Int 0) [].
End MentionList.

(** The selection is inside the list. *)
Definition in_list {A} (items : list A) (st : mentionState A) : Prop :=
  exists i : Z, selectedIndex st = Int i /\ (0 <= i < Z.of_nat (length items))%Z.

(** ** extractImageUrls (src/lib/tiptap-utils.ts)

    Both loops call [exec] on a [g] pattern until it answers [null]; neither
    pattern matches the empty string, so the matches are those listed by
    [exec_all]. *)

Inductive imageType := ImgHtml | ImgMarkdown.

Record ImageUrlInfo := ImageInfo {
  info_url : jsstring;
  info_alt : jsstring;
  info_type : imageType;
  originalMatch : jsstring
}.

Definition quotes : list citem := [CChar dquote; chr "'"].

(** The pattern of the first loop, flags [gi]: [<img], one or more code
    units other than [>], [src=], a quote, capture 1 (one or more code units
    that are no quote), a quote, any code units other than [>], optionally
    ([alt=], a quote, capture 2 (no quote), a quote), any code units other
    than [>], and [>]. *)
Definition htmlImgRegex : regex :=
  cat [lit "<img"; plus (Cls true [chr ">"]); lit "src=";
       Cls false quotes; Grp 1 (plus (Cls true quotes)); Cls false quotes;
       star (Cls true [chr ">"]);
       opt (cat [lit "alt="; Cls false quotes;
                 Grp 2 (star (Cls true quotes)); Cls false quotes]);
       star (Cls true [chr ">"]); Lit (ch ">")].

(** The pattern of the second loop, flag [g]: an exclamation mark and an
    opening bracket, capture 1 (no closing bracket), a closing bracket and
    an opening parenthesis, capture 2 (one or more code units other than a
    closing parenthesis), optionally (whitespace and a text between double
    quotes), and a closing parenthesis. *)
Definition markdownImgRegex : regex :=
  cat [lit "!["; Grp 1 (star (Cls true [chr "]"])); lit "](";
       Grp 2 (plus (Cls true [chr ")"]));
       opt (cat [plus (Cls false [CSpace]); Lit dquote;
                 star (Cls true [CChar dquote]); Lit dquote]);
       Lit (ch ")")].

(** [match[n] || ''] *)
Definition group_or_empty (groups : gmap nat jsstring) (n : nat) : jsstring :=
  default [] (groups !! n).

(** The entries pushed by the first loop.  Capture 1 takes part in every
    match. *)
Definition htmlImages (text : jsstring) : list ImageUrlInfo :=
  map (fun x => ImageInfo (group_or_empty x.2 1) (group_or_empty x.2 2)
                  ImgHtml x.1.2)
    (exec_all (2 + length text) fl_i htmlImgRegex None text).1.

(** The entries pushed by the second loop.  Capture 2 takes part in every
    match. *)
Definition markdownImages (text : jsstring) : list ImageUrlInfo :=
  map (fun x => ImageInfo (trim (group_or_empty x.2 2)) (group_or_empty x.2 1)
                  ImgMarkdown x.1.2)
    (exec_all (2 + length text) fl_0 markdownImgRegex None text).1.

Definition extractImageUrls (text : jsstring) : list ImageUrlInfo :=
  htmlImages text ++ markdownImages text.

(** ** isAllowedUri and sanitizeUrl (src/lib/tiptap-utils.ts) *)

(** An entry of [ProtocolConfig]: a name, or options with a scheme. *)
Inductive protocolEntry :=
| ProtocolName (name : jsstring)
| ProtocolOptions (scheme : jsstring) (optionalSlashes : option bool).

(** [ATTR_WHITESPACE], flag [g]: the control characters and the space, and
    the code units a0, 1680, 180e, 2000 to 2029, 205f and 3000 (in
    hexadecimal). *)
Definition ATTR_WHITESPACE : regex :=
  Cls false [CRange 0 32; CChar 160; CChar 5760; CChar 6158;
             CRange 8192 8233; CChar 8287; CChar 12288].

(** The names the loop leaves in [allowedProtocols]. *)
Definition allowedProtocols (protocols : option (list protocolEntry))
  : list jsstring :=
  foldl (fun allowed protocol =>
           let nextProtocol := match protocol with
                               | ProtocolName name => name
                               | ProtocolOptions scheme _ => scheme
                               end in
           match nextProtocol with
           | [] => allowed
           | _ => allowed ++ [nextProtocol]
           end)
    (map js ["http"; "https"; "ftp"; "ftps"; "mailto"; "tel"; "callto";
             "sms"; "cid"; "xmpp"]%string)
    (default [] protocols).

(** The classes of the pattern.  It is written in a template literal, where
    a backslash before a hyphen is dropped: the second class ends with the
    range from the full stop to the colon. *)
Definition scheme_run : list citem :=
  [rng "a" "z"; rng "0" "9"; chr "+"; chr "."; chr "-"].
Definition scheme_end : list citem :=
  [rng "a" "z"; chr "+"; CRange (ch ".") (ch ":")].

(** A name that holds no pattern syntax: letters, digits and hyphens. *)
Definition plain_name (name : jsstring) : bool :=
  forallb (fun c => ((48 <=? c) && (c <=? 57)) || ((65 <=? c) && (c <=? 90))
                    || ((97 <=? c) && (c <=? 122)) || (c =? ch "-")) name.

(** The pattern, flag [i], is an alternation anchored at the start: it
    matches when one of its alternatives does.  The alternatives, each
    behind [^]: an allowed name and a colon; a code unit that is no letter;
    a run of [scheme_run] followed by a code unit outside [scheme_end], or
    by the end.  The names are spliced into the source of the pattern: a
    plain name stands for itself there.  [None]: a name is not plain, and
    holds or may hold pattern syntax; what the pattern spliced from it
    matches, and whether it is a pattern at all (if not, the constructor
    throws), is outside this model. *)
Definition uri_alternatives (allowed : list jsstring) : option (list regex) :=
  if forallb plain_name allowed then
    Some (map (fun name => cat [Bol; cat (map Lit name); Lit (ch ":")]) allowed
          ++ [cat [Bol; Cls true [rng "a" "z"]];
              cat [Bol; plus (Cls false scheme_run); Cls true scheme_end];
              cat [Bol; plus (Cls false scheme_run); Eol]])
  else None.

(** Whether the result is truthy; [None] where the pattern is outside the
    model.  The pattern is built only for a [uri] that is not empty. *)
Definition isAllowedUri (uri : option jsstring)
    (protocols : option (list protocolEntry)) : option bool :=
  match uri with
  | None | Some [] => Some true                    (* !uri *)
  | Some u =>
      match uri_alternatives (allowedProtocols protocols) with
      | Some alternatives =>
          let stripped := replace_all fl_0 ATTR_WHITESPACE (fun _ _ => []) u in
          Some (existsb (fun r => test fl_i r stripped) alternatives)
      | None => None
      end
  end.

Section SanitizeUrl.
(** [new URL(inputUrl, baseUrl).href]; [None] when the constructor throws. *)
Variable URL_href : jsstring -> jsstring -> option jsstring.

End SanitizeUrl.

(** ** hexToRgb (src/lib/theme.ts) *)

Definition hex_digit : regex := Cls false [rng "a" "f"; CDigit].

(** The pattern, flag [i]: from the start, an optional [#], three captures
    of two hexadecimal digits each, and the end. *)
Definition re_hex_color : regex :=
  cat [Bol; opt (Lit (ch "#"));
       Grp 1 (Rep 2 (Some 2%nat) true hex_digit);
       Grp 2 (Rep 2 (Some 2%nat) true hex_digit);
       Grp 3 (Rep 2 (Some 2%nat) true hex_digit);
       Eol].

(** The value of a digit in radix 16. *)
Definition digit_value (c : N) : option Z :=
  if (48 <=? c) && (c <=? 57) then Some (Z.of_N c - 48)%Z
  else if (97 <=? c) && (c <=? 102) then Some (Z.of_N c - 87)%Z
  else if (65 <=? c) && (c <=? 70) then Some (Z.of_N c - 55)%Z
  else None.

(** The digits at the start of a string, most significant first, read in
    radix 16: how many there are and their value. *)
Fixpoint hex_prefix (s : jsstring) (count : nat) (value : Z) : nat * Z :=
  match s with
  | c :: s' =>
      match digit_value c with
      | Some d => hex_prefix s' (S count) (16 * value + d)%Z
      | None => (count, value)
      end
  | [] => (count, value)
  end.

(** [parseInt(string, 16)]: leading whitespace is skipped, then a sign and
    a [0x] prefix; the digits that follow are read, [NaN] when there is
    none.  (The value is exact: the strings read here have two digits.) *)
Definition parseInt16 (s : jsstring) : number :=
  let s1 := trimStart s in
  let '(sign, s2) := match s1 with
                     | c :: t =>
                         if c =? ch "-" then ((-1)%Z, t)
                         else if c =? ch "+" then (1%Z, t)
                         else (1%Z, s1)
                     | [] => (1%Z, s1)
                     end in
  let s3 := match s2 with
            | c0 :: c1 :: t =>
                if (c0 =? ch "0") && ((c1 =? ch "x") || (c1 =? ch "X")) then t
                else s2
            | _ => s2
            end in
  match hex_prefix s3 0 0 with
  | (O, _) => NaN
  | (_, v) => Int (sign * v)
  end.

Record rgbColor := Rgb { rgb_r : number; rgb_g : number; rgb_b : number }.

(** [None] for [null]. *)
Definition hexToRgb (hex : jsstring) : option rgbColor :=
  match search fl_i re_hex_color None hex with
  | Some (_, st) =>
      let result := fun n : nat => default [] (caps st !! n) in
      Some (Rgb (parseInt16 (result 1%nat)) (parseInt16 (result 2%nat))
              (parseInt16 (result 3%nat)))
  | None => None
  end.

(** ** cn (src/lib/tiptap-utils.ts) *)

(** An argument of [cn]. *)
Inductive classValue :=
| ClassString (s : jsstring)
| ClassBoolean (b : bool)
| ClassUndefined
| ClassNull.

(** [Boolean(v)] *)
Definition Boolean (v : classValue) : bool :=
  match v with
  | ClassString (_ :: _) => true
  | ClassBoolean b => b
  | _ => false
  end.

(** The text [join] writes for an element. *)
Definition class_text (v : classValue) : jsstring :=
  match v with
  | ClassString s => s
  | ClassBoolean true => js "true"
  | ClassBoolean false => js "false"
  | ClassUndefined | ClassNull => []
  end.

(** [array.join(separator)] on texts. *)
Definition join (separator : jsstring) (l : list jsstring) : jsstring :=
  match l with
  | [] => []
  | x :: l' => x ++ concat (map (fun y => separator ++ y) l')
  end.

Definition cn (classes : list classValue) : jsstring :=
  join (js " ") (map class_text (List.filter Boolean classes)).

(** ** Reference functions for the proofs *)

(** What a greedy [*] around a character class does: take code units while
    [q] holds, then try the continuation from the longest run back to the
    empty one. *)
Fixpoint star_cls {B} (q : N -> bool) (K : mstate -> option B)
    (p : option N) (s : jsstring) (cp : gmap nat jsstring) : option B :=
  match s with
  | c :: s' =>
      if q c then
        match star_cls q K (Some c) s' cp with
        | Some b => Some b
        | None => K (MState p s cp)
        end
      else K (MState p s cp)
  | [] => K (MState p [] cp)
  end.


(** The end of both tag patterns: [>] and nothing more. *)
Definition tag_end (fl : flags) (st : mstate) : option mstate :=
  m fl (Seq (Lit (ch ">")) Eps) st Some.


Fixpoint takeWhile {A} (p : A -> bool) (l : list A) : list A :=
  match l with
  | x :: l' => if p x then x :: takeWhile p l' else []
  | [] => []
  end.

Definition not_space (c : N) : bool := negb (c =? ch " ").
Definition not_ws_quote (c : N) : bool :=
  negb (isWhiteSpace c || (c =? dquote) || (c =? ch "'")).


(** The clean-up [renderHTML] performs: the value is trimmed; one that looks
    contaminated is cut at its first space, or, when it has no space, at its
    first whitespace or quote character unless it starts with one. *)
Definition sanitize (stored : jsstring) : jsstring :=
  let t := trim stored in
  if looks_contaminated t then
    if includes (js " ") t then trim (takeWhile not_space t)
    else match takeWhile not_ws_quote t with
         | [] => t
         | w => w
         end
  else t.



(** [opts] leaves the element [name] to default rendering without calling
    [options.replace]. *)
Definition suppresses (opts : options) (name : jsstring) : bool :=
  match opts with
  | Options => false
  | RecursiveOptions tagName => bool_decide (name = tagName)
  end.

(** Two registries that have the same tags and whose renderers agree on
    every context with an empty [innerHTML] and an empty [originalHTML]. *)
Definition agree_on_empty (R1 R2 : gmap jsstring TagRenderer) : Prop :=
  forall t : jsstring,
    match R1 !! t, R2 !! t with
    | Some f1, Some f2 =>
        forall ctx, innerHTML ctx = [] -> originalHTML ctx = [] -> f1 ctx = f2 ctx
    | None, None => True
    | _, _ => False
    end.


(** ** Registries for the concrete runs *)

(** A renderer for [div] that answers markup with a [div] under a [span],
    and a renderer for [span] that answers an element. *)
Definition nesting_renderers : gmap jsstring TagRenderer :=
  <[js "span" := fun _ => RElement (Element 0 None)]>
    {[ js "div" := fun _ => RString (js "<span><div></div></span>") ]}.

(** The renderer of the specification's example: [div] answers
    [<div>inner</div>]. *)
Definition self_renderers : gmap jsstring TagRenderer :=
  {[ js "div" := fun _ => RString (js "<div>inner</div>") ]}.

(** A renderer for [b] that throws, one for [i] that answers plain text. *)
Definition failing_renderers : gmap jsstring TagRenderer :=
  <[js "b" := fun _ => RThrows 1]> {[ js "i" := fun _ => RString (js "plain") ]}.

(** A registry without a renderer for [a], and one with. *)
Definition img_renderers : gmap jsstring TagRenderer :=
  {[ js "img" := fun _ => RInvalid ]}.
Definition anchor_renderers : gmap jsstring TagRenderer :=
  {[ js "a" := fun _ => RInvalid ]}.

(** Two renderers for [img] that differ only on contexts with a non-empty
    [innerHTML]. *)
Definition inner_sensitive : gmap jsstring TagRenderer :=
  {[ js "img" := fun ctx => match innerHTML ctx with
                            | [] => RString (js "<hr/>")
                            | _ => RThrows 0
                            end ]}.
Definition inner_blind : gmap jsstring TagRenderer :=
  {[ js "img" := fun _ => RString (js "<hr/>") ]}.





(** An ASCII letter. *)
Definition ascii_letter (x : N) : Prop :=
  (65 <= x /\ x <= 90) \/ (97 <= x /\ x <= 122).






(** A matcher is local when it calls its continuation only on states whose
    remaining input is not longer than the one it started from. *)
Definition local {B} (mr : mstate -> (mstate -> option B) -> option B) : Prop :=
  forall st k k',
    (forall st', (length (rest st') <= length (rest st))%nat -> k st' = k' st') ->
    mr st k = mr st k'.

(** A matcher answers what its continuation answered. *)
Definition from_continuation {B} (mr : mstate -> (mstate -> option B) -> option B)
  : Prop :=
  forall st k b, mr st k = Some b -> exists st', k st' = Some b.



(** No [<a] or [<A] in the text. *)
Fixpoint anchor_free (s : jsstring) : bool :=
  match s with
  | c1 :: s' =>
      negb ((c1 =? ch "<")
            && match s' with
               | c2 :: _ => (c2 =? ch "a") || (c2 =? ch "A")
               | [] => false
               end)
      && anchor_free s'
  | [] => true
  end.

(** [st'] is a state the matcher can be in after starting from [st]: further
    in the same input, with the captures outside [ids] as they were. *)
Definition reaches (ids : list nat) (st st' : mstate) : Prop :=
  (exists w, rest st = w ++ rest st')
  /\ forall n : nat, n ∉ ids -> caps st' !! n = caps st !! n.

(** A matcher answers what its continuation answered on a state it
    reaches. *)
Definition tracks {B} (ids : list nat)
    (mr : mstate -> (mstate -> option B) -> option B) : Prop :=
  forall st k b, mr st k = Some b ->
    exists st', reaches ids st st' /\ k st' = Some b.

(** A code unit removed by [ATTR_WHITESPACE]. *)
Definition attr_whitespace (c : N) : bool :=
  cls_matches fl_0 false
    [CRange 0 32; CChar 160; CChar 5760; CChar 6158;
     CRange 8192 8233; CChar 8287; CChar 12288] c.

(** A URI without the code units [ATTR_WHITESPACE] removes. *)
Definition stripped (uri : jsstring) : jsstring :=
  List.filter (fun c => negb (attr_whitespace c)) uri.

(** A letter, a digit, a plus sign or a full stop. *)
Definition scheme_char (c : N) : Prop :=
  ascii_letter c \/ 48 <= c <= 57 \/ c = ch "+" \/ c = ch ".".

(** The alternatives of the pattern for plain names. *)
Definition alternatives_of (allowed : list jsstring) : list regex :=
  map (fun name => cat [Bol; cat (map Lit name); Lit (ch ":")]) allowed
  ++ [cat [Bol; Cls true [rng "a" "z"]];
      cat [Bol; plus (Cls false scheme_run); Cls true scheme_end];
      cat [Bol; plus (Cls false scheme_run); Eol]].

(** [scheme] is one of the names, up to case. *)
Definition scheme_allowed (allowed : list jsstring) (scheme : jsstring) : bool :=
  existsb (fun name => bool_decide (map upper scheme = map upper name)) allowed.

(** A color written as six hexadecimal digits, read two by two. *)
Definition hex_pair (c d : N) : option Z :=
  match digit_value c, digit_value d with
  | Some x, Some y => Some (16 * x + y)%Z
  | _, _ => None
  end.

Definition spec_hexToRgb (hex : jsstring) : option rgbColor :=
  match (match hex with
         | c :: t => if c =? ch "#" then t else hex
         | [] => hex
         end) with
  | [d1; d2; d3; d4; d5; d6] =>
      match hex_pair d1 d2, hex_pair d3 d4, hex_pair d5 d6 with
      | Some r, Some g, Some b => Some (Rgb (Int r) (Int g) (Int b))
      | _, _, _ => None
      end
  | _ => None
  end.

(** The log holds the failure of a renderer by exhaustion of the call
    stack. *)
Definition logs_exhaustion (log : list logentry) : bool :=
  existsb (fun entry => match entry with
                        | LogError _ error => error =? RangeError
                        | LogWarn _ => false
                        end) log.

(** [toLowerCase] on ASCII names, for the concrete runs. *)
Definition asciiLower : jsstring -> jsstring := map lower.

(** * Properties *)

(** ** The definitions at work *)

Example normalizeUrl_ex1 : normalizeUrl (js "example.com") = js "https://example.com".
Proof. vm_compute. reflexivity. Qed.
Example normalizeUrl_ex2 : normalizeUrl (js "foo.bar:8080") = js "foo.bar:8080".
Proof. vm_compute. reflexivity. Qed.
Example normalizeUrl_ex3 : normalizeUrl (js "foo.bar baz") = js "https://foo.bar baz".
Proof. vm_compute. reflexivity. Qed.
Example normalizeUrl_ex4 : normalizeUrl (js "/a/b ") = js "/a/b".
Proof. vm_compute. reflexivity. Qed.
Example normalizeUrl_ex5 : normalizeUrl (js "-a.b") = js "-a.b".
Proof. vm_compute. reflexivity. Qed.
Example normalizeUrl_ex6 : normalizeUrl (js "MAILTO:x@y.com") = js "MAILTO:x@y.com".
Proof. vm_compute. reflexivity. Qed.
Example detect_ex1 : detectContentType (js "<p>Hello</p><p>World</p>") = Html.
Proof. vm_compute. reflexivity. Qed.
Example detect_ex2 : htmlTagCount (js "<p>Hello</p><p>World</p>") = 1%nat.
Proof. vm_compute. reflexivity. Qed.
Example detect_ex3 : detectContentType (js "<p>**bold**</p>") = Markdown.
Proof. vm_compute. reflexivity. Qed.
Example detect_ex4 : detectContentType (js "Check [this](example.com) out") = Markdown.
Proof. vm_compute. reflexivity. Qed.
Example detect_ex5 : markdownScore (js "<p>**bold**</p>") = 2%nat.
Proof. vm_compute. reflexivity. Qed.
Example detect_ex6 : closingTagCount (js "<p>Hello</p><p>World</p>") = 1%nat.
Proof. vm_compute. reflexivity. Qed.
Example renderHTML_ex1 :
  renderHTML {[ js "src" := VString (js "https://img/a.png?tok=abc") ]}
    (ImageAttrs (Some (js "https://img/a.png?tok=abc"))
                (Some (js "https://img/a.png")) None (Some []))
  = {[ js "src" := js "https://img/a.png" ]}.
Proof. vm_compute. reflexivity. Qed.
Example renderHTML_ex2 :
  cleanOriginalSrc (ImageAttrs None (Some (js "https://img/a.png alt=x title=y")) None None)
  = Some (js "https://img/a.png").
Proof. vm_compute. reflexivity. Qed.
Example renderHTML_ex3 :
  cleanOriginalSrc (ImageAttrs None
     (Some (js "https://img/a.png" ++ [tab] ++ js "alt=x title=y")) None None)
  = Some (js "https://img/a.png" ++ [tab] ++ js "alt=x").
Proof. vm_compute. reflexivity. Qed.
Example renderHTML_ex4 :
  cleanOriginalSrc (ImageAttrs None
     (Some (js "https://img/a.png" ++ [tab] ++ js "alt=" ++ [dquote] ++ js "x" ++ [dquote])) None None)
  = Some (js "https://img/a.png").
Proof. vm_compute. reflexivity. Qed.
Example parse_ex1 :
  Fragment.parse (js "<span><div></div></span>")
  = [DTag (js "span") ∅ [DTag (js "div") ∅ []]].
Proof. vm_compute. reflexivity. Qed.
Example parse_ex2 :
  Fragment.parse (js "<p>Hi <a href='x.org' target=''>t</a>!</p>")
  = [DTag (js "p") ∅
       [DText (js "Hi ");
        DTag (js "a") (<[js "href" := js "x.org"]> {[js "target" := []]}) [DText (js "t")];
        DText (js "!")]].
Proof. vm_compute. reflexivity. Qed.
Example processedHtml_ex1 :
  processedHtml (js "<p><a href='example.com'>t</a></p>")
  = js "<p><a href='https://example.com'" ++ target_blank ++ rel_noopener ++ js ">t</a></p>".
Proof. vm_compute. reflexivity. Qed.
Example processedHtml_ex2 :
  processedHtml (js "<a href='/x' data-target='y'>t</a><A  HREF='b.c'>u</a>")
  = js "<a href='/x' data-target='y'" ++ rel_noopener ++ js ">t</a><a href='https://b.c'"
    ++ target_blank ++ rel_noopener ++ js ">u</a>".
Proof. vm_compute. reflexivity. Qed.

(** ** Strings and the matcher: basic facts *)

Lemma trimEnd_nil_iff (s : jsstring) :
  trimEnd s = [] <-> forallb isWhiteSpace s = true.
Proof.
  induction s as [|c s IH]; simpl; [tauto|].
  destruct (trimEnd s) eqn:E.
  - destruct (isWhiteSpace c); simpl; [tauto|].
    split; discriminate.
  - split; [discriminate|].
    intros H. apply andb_true_iff in H as [_ H].
    apply IH in H. discriminate.
Qed.

Lemma trimEnd_head (s : jsstring) c r :
  trimEnd s = c :: r -> exists r', s = c :: r'.
Proof.
  destruct s as [|x s]; simpl; [discriminate|].
  destruct (trimEnd s); [destruct (isWhiteSpace x)|]; intros [= -> _]; eauto.
Qed.

Lemma trimStart_head (s : jsstring) c r :
  trimStart s = c :: r -> isWhiteSpace c = false.
Proof.
  unfold trimStart. induction s as [|x s IH]; simpl; [discriminate|].
  destruct (isWhiteSpace x) eqn:E; [exact IH|].
  intros [= -> _]. exact E.
Qed.

(** A trimmed string does not start with whitespace. *)
Lemma trim_head (s : jsstring) c r :
  trim s = c :: r -> isWhiteSpace c = false.
Proof.
  unfold trim. intros H.
  destruct (trimEnd_head _ _ _ H) as [r' Hr'].
  exact (trimStart_head _ _ _ Hr').
Qed.

Lemma trimEnd_id (s : jsstring) :
  (forall r c, s = r ++ [c] -> isWhiteSpace c = false) -> trimEnd s = s.
Proof.
  induction s as [|x s IH]; intros Hlast; [reflexivity|].
  simpl. destruct s as [|y s].
  - simpl. rewrite (Hlast [] x eq_refl). reflexivity.
  - rewrite IH.
    + reflexivity.
    + intros r c E. apply (Hlast (x :: r) c). rewrite E. reflexivity.
Qed.

(** A string that neither starts nor ends with whitespace is its own trim. *)
Lemma trim_id (s : jsstring) :
  (forall c r, s = c :: r -> isWhiteSpace c = false) ->
  (forall r c, s = r ++ [c] -> isWhiteSpace c = false) ->
  trim s = s.
Proof.
  intros Hfirst Hlast. unfold trim, trimStart.
  destruct s as [|c r]; [reflexivity|].
  simpl dropWhile. rewrite (Hfirst c r eq_refl).
  apply trimEnd_id, Hlast.
Qed.

(** A pattern anchored by [^] without the [m] flag matches at the start of
    the input only. *)
Lemma search_bol_later (fl : flags) (r : regex) (c : N) (s : jsstring) :
  multiline fl = false -> search fl (Seq Bol r) (Some c) s = None.
Proof.
  intros Hm. revert c. induction s as [|x s IH]; intros c; simpl.
  - unfold at_bol. simpl. rewrite Hm. reflexivity.
  - unfold at_bol. simpl. rewrite Hm. simpl. rewrite IH. reflexivity.
Qed.

Lemma test_bol (fl : flags) (r : regex) (s : jsstring) :
  multiline fl = false ->
  test fl (Seq Bol r) s
  = match m fl r (MState None s ∅) Some with Some _ => true | None => false end.
Proof.
  intros Hm. unfold test. destruct s as [|x s]; simpl.
  - destruct (m fl r _ Some); reflexivity.
  - destruct (m fl r _ Some); [reflexivity|].
    rewrite search_bol_later by assumption. reflexivity.
Qed.

Lemma search_eq (fl : flags) (r : regex) (p : option N) (s : jsstring) :
  search fl r p s
  = match m fl r (MState p s ∅) Some with
    | Some st => Some ([], st)
    | None =>
        match s with
        | [] => None
        | c :: s' => (fun '(sk, st) => (c :: sk, st)) <$> search fl r (Some c) s'
        end
    end.
Proof. destruct s; reflexivity. Qed.

Lemma exec_all_eq (fuel : nat) (fl : flags) (r : regex) (p : option N)
    (s : jsstring) :
  exec_all (S fuel) fl r p s
  = match search fl r p s with
    | None => ([], s)
    | Some (sk, st) =>
        let from := drop (length sk) s in
        let matched := take (length from - length (rest st)) from in
        let later :=
          match matched, rest st with
          | [], c :: s' => push_skipped c (exec_all fuel fl r (Some c) s')
          | [], [] => ([], [])
          | _ :: _, _ => exec_all fuel fl r (prev st) (rest st)
          end in
        ((sk, matched, caps st) :: later.1, later.2)
    end.
Proof. reflexivity. Qed.

(** The first code unit of a string that has the bare-domain shape. *)
Lemma re_domain_head (t : jsstring) :
  test fl_i re_domain t = true ->
  exists c r, t = c :: r /\ cls_matches fl_i false alnum c = true.
Proof.
  unfold re_domain. simpl cat. rewrite test_bol by reflexivity.
  destruct t as [|c r]; [discriminate|].
  cbn [m]. unfold step at 1. cbn [rest].
  destruct (cls_matches fl_i false alnum c) eqn:E; [eauto|discriminate].
Qed.

Lemma alnum_not_slash_hash (c : N) :
  cls_matches fl_i false alnum c = true -> c <> ch "/" /\ c <> ch "#".
Proof.
  intros H. split; intros ->; vm_compute in H; discriminate.
Qed.

Lemma startsWith_single (c : N) (s : jsstring) :
  startsWith [c] s = true <-> exists r, s = c :: r.
Proof.
  destruct s as [|x s]; simpl.
  - split; [discriminate|intros [r [=]]].
  - rewrite andb_true_r, N.eqb_eq. split.
    + intros ->. eauto.
    + intros [r [= -> _]]. reflexivity.
Qed.

(** ** The fuel of the quantifier loop is enough *)

Section Locality.
Context {B : Type}.
Variable fl : flags.

Lemma step_local (q : N -> bool) : local (B:=B) (step q).
Proof.
  intros st k k' Hk. unfold step. destruct (rest st) as [|x s] eqn:E; [reflexivity|].
  destruct (q x); [|reflexivity]. apply Hk. simpl. lia.
Qed.

Lemma consume_local (w : jsstring) : local (B:=B) (consume fl w).
Proof.
  induction w as [|c w IH]; intros st k k' Hk; simpl.
  - apply Hk. lia.
  - apply step_local. intros st' Hst'. apply IH.
    intros st'' Hst''. apply Hk. lia.
Qed.

Lemma rep_loop_local mr ids greedy (fuel : nat) :
  local mr ->
  forall mn mx,
    local (B:=B) (fun st k => rep_loop mr ids greedy k fuel mn mx st).
Proof.
  intros Hmr. induction fuel as [|fuel IH]; intros mn mx st k k' Hk;
    [reflexivity|].
  simpl.
  assert (Hst : k st = k' st) by (apply Hk; lia).
  assert (Hiter :
    mr (clear_caps ids st)
      (fun st' =>
         if (mn =? 0)%nat && (length (rest st') =? length (rest st))%nat
         then None
         else rep_loop mr ids greedy k fuel (pred mn) (pred <$> mx) st')
    = mr (clear_caps ids st)
        (fun st' =>
           if (mn =? 0)%nat && (length (rest st') =? length (rest st))%nat
           then None
           else rep_loop mr ids greedy k' fuel (pred mn) (pred <$> mx) st')).
  { apply Hmr. intros st' Hst'. destruct (_ && _); [reflexivity|].
    apply (IH (pred mn) (pred <$> mx)). intros st'' Hst''. apply Hk.
    simpl in Hst'. lia. }
  rewrite Hiter, Hst. reflexivity.
Qed.

Lemma m_local (r : regex) : local (B:=B) (m fl r).
Proof.
  induction r as [| c | | neg items | | | r1 IH1 r2 IH2 | mn mx g r IH | n r IH | n];
    intros st k k' Hk; cbn [m].
  - apply Hk. lia.
  - apply step_local, Hk.
  - apply step_local, Hk.
  - apply step_local, Hk.
  - destruct (at_bol fl st); [apply Hk; lia|reflexivity].
  - destruct (at_eol fl st); [apply Hk; lia|reflexivity].
  - apply IH1. intros st' Hst'. apply IH2. intros st'' Hst''. apply Hk. lia.
  - apply (rep_loop_local (m fl r) (grp_ids r) g _ IH mn mx st k k' Hk).
  - apply IH. intros st' Hst'. apply Hk. exact Hst'.
  - apply consume_local, Hk.
Qed.

(** More fuel than the minimum count plus the length of the input changes
    nothing: the loop never stops for lack of fuel. *)
Lemma rep_loop_fuel mr ids greedy (k : mstate -> option B) :
  local mr ->
  forall fuel1 fuel2 mn mx st,
    (mn + length (rest st) < fuel1)%nat ->
    (mn + length (rest st) < fuel2)%nat ->
    rep_loop mr ids greedy k fuel1 mn mx st
    = rep_loop mr ids greedy k fuel2 mn mx st.
Proof.
  intros Hmr. induction fuel1 as [|fuel1 IH]; intros fuel2 mn mx st H1 H2; [lia|].
  destruct fuel2 as [|fuel2]; [lia|]. simpl.
  assert (Hiter :
    mr (clear_caps ids st)
      (fun st' =>
         if (mn =? 0)%nat && (length (rest st') =? length (rest st))%nat
         then None
         else rep_loop mr ids greedy k fuel1 (pred mn) (pred <$> mx) st')
    = mr (clear_caps ids st)
        (fun st' =>
           if (mn =? 0)%nat && (length (rest st') =? length (rest st))%nat
           then None
           else rep_loop mr ids greedy k fuel2 (pred mn) (pred <$> mx) st')).
  { apply Hmr. intros st' Hst'. simpl in Hst'.
    destruct (Nat.eqb_spec mn 0) as [-> | Hmn]; simpl.
    - destruct (Nat.eqb_spec (length (rest st')) (length (rest st))); [reflexivity|].
      apply IH; simpl; lia.
    - apply IH; lia. }
  rewrite Hiter. reflexivity.
Qed.

Lemma m_rep_fuel mn mx greedy r st (k : mstate -> option B) (extra : nat) :
  m fl (Rep mn mx greedy r) st k
  = rep_loop (m fl r) (grp_ids r) greedy k
      (S (mn + length (rest st)) + extra) mn mx st.
Proof.
  cbn [m]. apply rep_loop_fuel; [apply m_local|lia|lia].
Qed.
End Locality.

Section Results.
Context {B : Type}.
Variable fl : flags.

Lemma step_from (q : N -> bool) : from_continuation (B:=B) (step q).
Proof.
  intros st k b. unfold step. destruct (rest st) as [|x s]; [discriminate|].
  destruct (q x); [eauto|discriminate].
Qed.

Lemma consume_from (w : jsstring) : from_continuation (B:=B) (consume fl w).
Proof.
  induction w as [|c w IH]; intros st k b H; simpl in H; [eauto|].
  apply step_from in H as [st' H]. exact (IH _ _ _ H).
Qed.

Lemma rep_loop_from mr ids greedy (fuel : nat) :
  from_continuation (B:=B) mr ->
  forall mn mx,
    from_continuation (fun st k => rep_loop mr ids greedy k fuel mn mx st).
Proof.
  intros Hmr. induction fuel as [|fuel IH]; intros mn mx st k b H;
    [discriminate|].
  simpl in H.
  assert (Hiter : forall b',
    mr (clear_caps ids st)
      (fun st' =>
         if (mn =? 0)%nat && (length (rest st') =? length (rest st))%nat
         then None
         else rep_loop mr ids greedy k fuel (pred mn) (pred <$> mx) st')
    = Some b' -> exists st', k st' = Some b').
  { intros b' Hb'. apply Hmr in Hb' as [st' Hb'].
    destruct (_ && _); [discriminate|].
    exact (IH _ _ _ _ _ Hb'). }
  destruct mx as [[|mx]|]; [eauto| |];
    (destruct (0 <? mn)%nat; [exact (Hiter _ H)|]);
    destruct greedy;
    repeat match type of H with
           | match ?x with _ => _ end = _ => destruct x eqn:?
           end;
    try discriminate; try (injection H as <-); eauto.
Qed.

Lemma m_from (r : regex) : from_continuation (B:=B) (m fl r).
Proof.
  induction r as [| c | | neg items | | | r1 IH1 r2 IH2 | mn mx g r IH | n r IH | n];
    intros st k b H; cbn [m] in H.
  - eauto.
  - exact (step_from _ _ _ _ H).
  - exact (step_from _ _ _ _ H).
  - exact (step_from _ _ _ _ H).
  - destruct (at_bol fl st); [eauto|discriminate].
  - destruct (at_eol fl st); [eauto|discriminate].
  - apply IH1 in H as [st' H]. exact (IH2 _ _ _ H).
  - exact (rep_loop_from (m fl r) (grp_ids r) g _ IH mn mx st k b H).
  - apply IH in H as [st' H]. eauto.
  - exact (consume_from _ _ _ _ H).
Qed.
End Results.

(** A match ends on a suffix of the input it started from. *)
Lemma m_result (fl : flags) (r : regex) (st st' : mstate) :
  m fl r st Some = Some st' -> (length (rest st') <= length (rest st))%nat.
Proof.
  intros H.
  rewrite (m_local fl r st Some
             (fun s => if (length (rest s) <=? length (rest st))%nat
                       then Some s else None)) in H.
  - apply m_from in H as [s Hs].
    destruct (Nat.leb_spec (length (rest s)) (length (rest st))); [|discriminate].
    injection Hs as <-. assumption.
  - intros s Hs. apply Nat.leb_le in Hs. rewrite Hs. reflexivity.
Qed.

Lemma search_result (fl : flags) (r : regex) (s : jsstring) :
  forall p sk st,
    search fl r p s = Some (sk, st) ->
    (length sk + length (rest st) <= length s)%nat.
Proof.
  induction s as [|c s IH]; intros p sk st; rewrite search_eq;
    destruct (m fl r (MState p _ ∅) Some) as [st0|] eqn:E;
    try discriminate;
    try (intros [= <- <-]; apply m_result in E; simpl in *; lia).
  destruct (search fl r (Some c) s) as [[sk' st']|] eqn:E'; [|discriminate].
  simpl. intros [= <- <-]. apply IH in E'. simpl. lia.
Qed.

(** [match] and [replace] with the [g] flag never stop for lack of fuel. *)
Lemma exec_all_fuel (fl : flags) (r : regex) :
  forall fuel1 fuel2 p s,
    (length s < fuel1)%nat -> (length s < fuel2)%nat ->
    exec_all fuel1 fl r p s = exec_all fuel2 fl r p s.
Proof.
  induction fuel1 as [|fuel1 IH]; intros fuel2 p s H1 H2; [lia|].
  destruct fuel2 as [|fuel2]; [lia|]. rewrite !exec_all_eq.
  destruct (search fl r p s) as [[sk st]|] eqn:E; [|reflexivity].
  apply search_result in E. cbv zeta.
  set (from := drop (length sk) s).
  assert (Hfrom : (length from <= length s)%nat)
    by (subst from; rewrite length_drop; lia).
  destruct (take (length from - length (rest st)) from) as [|x mt] eqn:Et.
  - destruct (rest st) as [|c s'] eqn:Er; [reflexivity|].
    simpl in E. rewrite (IH fuel2 (Some c) s') by lia. reflexivity.
  - assert (length (rest st) < length from)%nat.
    { destruct (Nat.le_gt_cases (length from) (length (rest st))) as [Hle|]; [|assumption].
      replace (length from - length (rest st))%nat with O in Et by lia.
      discriminate. }
    rewrite (IH fuel2 (prev st) (rest st)) by lia. reflexivity.
Qed.

(** ** Greedy quantifiers over a character class *)

Section StarFacts.
Context {B : Type}.
Variable fl : flags.

Lemma rep_loop_star_cls (q : N -> bool) (K : mstate -> option B)
    (s : jsstring) :
  forall fuel p cp, (length s < fuel)%nat ->
    rep_loop (step q) [] true K fuel 0 None (MState p s cp)
    = star_cls q K p s cp.
Proof.
  induction s as [|c s IH]; intros fuel p cp Hf;
    (destruct fuel as [|fuel]; [simpl in Hf; lia|]).
  - reflexivity.
  - simpl. unfold step, clear_caps. simpl.
    destruct (q c); [|reflexivity].
    replace (length s =? S (length s))%nat with false
      by (symmetry; apply Nat.eqb_neq; lia).
    rewrite IH by (simpl in Hf; lia). reflexivity.
Qed.

Lemma rep_loop_S1 mr ids g (K : mstate -> option B) fuel st :
  rep_loop mr ids g K (S fuel) 1 None st
  = mr (clear_caps ids st) (fun st' => rep_loop mr ids g K fuel 0 None st').
Proof. reflexivity. Qed.

Lemma m_star_cls neg items (K : mstate -> option B) p s cp :
  m fl (star (Cls neg items)) (MState p s cp) K
  = star_cls (cls_matches fl neg items) K p s cp.
Proof.
  unfold star. cbn [m grp_ids rest].
  apply (rep_loop_star_cls (cls_matches fl neg items)). simpl. lia.
Qed.

Lemma m_plus_cls neg items (K : mstate -> option B) p s cp :
  m fl (plus (Cls neg items)) (MState p s cp) K
  = match s with
    | c :: s' =>
        if cls_matches fl neg items c
        then star_cls (cls_matches fl neg items) K (Some c) s' cp
        else None
    | [] => None
    end.
Proof.
  unfold plus. cbn [m grp_ids rest].
  rewrite rep_loop_S1. unfold clear_caps. cbn [foldr prev rest caps].
  unfold step at 1. cbn [rest caps].
  destruct s as [|c s]; [reflexivity|].
  destruct (cls_matches fl neg items c); [|reflexivity].
  apply (rep_loop_star_cls (cls_matches fl neg items)). simpl. lia.
Qed.

Lemma m_opt_lit c (K : mstate -> option B) p s cp :
  m fl (opt (Lit c)) (MState p s cp) K
  = match s with
    | x :: s' =>
        if canon fl x =? canon fl c then
          match K (MState (Some x) s' cp) with
          | Some b => Some b
          | None => K (MState p s cp)
          end
        else K (MState p s cp)
    | [] => K (MState p s cp)
    end.
Proof.
  unfold opt. cbn [m grp_ids rest]. simpl rep_loop.
  unfold step, clear_caps. simpl.
  destruct s as [|x s]; [reflexivity|].
  destruct (canon fl x =? canon fl c); [|reflexivity].
  replace (length s =? length (x :: s))%nat with false
    by (symmetry; apply Nat.eqb_neq; simpl; lia).
  reflexivity.
Qed.

Lemma anychar_all c : cls_matches fl false [CSpace; CNonSpace] c = true.
Proof.
  unfold cls_matches, item_matches. simpl.
  destruct (isWhiteSpace c); simpl; rewrite ?orb_true_r; reflexivity.
Qed.
End StarFacts.

(** *** An [http(s)://] prefix is a scheme *)

Lemma step_ext {B} (q : N -> bool) (st : mstate) (k k' : mstate -> option B) :
  (forall st', k st' = k' st') -> step q st k = step q st k'.
Proof.
  intros Hk. unfold step. destruct (rest st); [reflexivity|].
  destruct (q n); [apply Hk|reflexivity].
Qed.

Lemma m_lits {B} (fl : flags) (w : jsstring) (r : regex) :
  forall st (K : mstate -> option B),
    m fl (foldr Seq r (map Lit w)) st K
    = consume fl w st (fun st' => m fl r st' K).
Proof.
  induction w as [|c w IH]; intros st K; [reflexivity|].
  simpl. apply step_ext. intros st'. apply IH.
Qed.

(** What a successful [consume] has read. *)
Lemma consume_some {B} (fl : flags) (w : jsstring) :
  forall p s cp (K : mstate -> option B) b,
    consume fl w (MState p s cp) K = Some b ->
    exists w' r p',
      s = w' ++ r
      /\ Forall2 (fun x c => canon fl x = canon fl c) w' w
      /\ K (MState p' r cp) = Some b.
Proof.
  induction w as [|c w IH]; intros p s cp K b H; simpl in H.
  - exists [], s, p. auto.
  - unfold step in H. cbn [rest caps] in H.
    destruct s as [|x s]; [discriminate|].
    destruct (N.eqb_spec (canon fl x) (canon fl c)) as [E|_]; [|discriminate].
    apply IH in H as (w' & r & p' & -> & Hall & HK).
    exists (x :: w'), r, p'. auto.
Qed.


Lemma canon_lowercase (x c : N) :
  97 <= c <= 122 -> canon fl_i x = canon fl_i c -> ascii_letter x.
Proof.
  intros Hc. unfold canon, fl_i, ignoreCase, upper, ascii_letter.
  replace ((97 <=? c) && (c <=? 122)) with true
    by (symmetry; apply andb_true_iff; split; apply N.leb_le; lia).
  destruct ((97 <=? x) && (x <=? 122)) eqn:E.
  - apply andb_true_iff in E as [E1 E2].
    apply N.leb_le in E1. apply N.leb_le in E2. lia.
  - intros ->. lia.
Qed.

Lemma letter_in_class (x : N) (items : list citem) :
  ascii_letter x -> cls_matches fl_i false (rng "a" "z" :: items) x = true.
Proof.
  intros Hx. unfold cls_matches. cbn [xorb existsb].
  apply orb_true_iff. left.
  unfold item_matches, rng, item_has. change (ch "a") with 97.
  change (ch "z") with 122. cbn [ignoreCase fl_i andb].
  destruct Hx as [[H1 H2]|[H1 H2]].
  - assert (Hl : lower x = x + 32).
    { unfold lower.
      replace ((65 <=? x) && (x <=? 90)) with true; [reflexivity|].
      symmetry. apply andb_true_iff. split; apply N.leb_le; lia. }
    rewrite Hl.
    replace ((97 <=? x + 32) && (x + 32 <=? 122)) with true.
    + rewrite orb_true_r. reflexivity.
    + symmetry. apply andb_true_iff. split; apply N.leb_le; lia.
  - replace ((97 <=? x) && (x <=? 122)) with true; [reflexivity|].
    symmetry. apply andb_true_iff. split; apply N.leb_le; lia.
Qed.

(** A greedy class quantifier reaches any point that follows a run of the
    class. *)
Lemma star_cls_reach {B} (q : N -> bool) (K : mstate -> option B)
    (w : jsstring) (r : jsstring) (cp : gmap nat jsstring) :
  forallb q w = true ->
  (forall p, is_Some (K (MState p r cp))) ->
  forall p, is_Some (star_cls q K p (w ++ r) cp).
Proof.
  intros Hw HK. induction w as [|c w IH]; intros p.
  - simpl. destruct r as [|x r]; [apply HK|].
    simpl. destruct (q x); [|apply HK].
    destruct (star_cls q K (Some x) r cp); [eauto|apply HK].
  - simpl in Hw. apply andb_true_iff in Hw as [Hc Hw].
    simpl. rewrite Hc. destruct (IH Hw (Some c)) as [b ->]. eauto.
Qed.


Lemma letters_in_class (w : jsstring) (items : list citem) :
  Forall ascii_letter w ->
  forallb (cls_matches fl_i false (rng "a" "z" :: items)) w = true.
Proof.
  induction 1 as [|x w Hx _ IH]; cbn [forallb]; [reflexivity|].
  rewrite (letter_in_class x items Hx). exact IH.
Qed.

Lemma canon_letters (w' w : jsstring) :
  Forall (fun c => 97 <= c <= 122) w ->
  Forall2 (fun x c => canon fl_i x = canon fl_i c) w' w ->
  Forall ascii_letter w'.
Proof.
  intros Hw Hall. revert Hw.
  induction Hall as [|x c w' w Hxc _ IH]; intros Hw; [constructor|].
  inversion Hw; subst. constructor; [exact (canon_lowercase x c H1 Hxc)|auto].
Qed.

(** What follows a match of [:\/\/] starts with a colon. *)
Lemma colon_slashes_head (p0 : option N) (r0 : jsstring)
    (cp : gmap nat jsstring) (b : mstate) :
  m fl_i (lit "://") (MState p0 r0 cp) (fun st' => Some st') = Some b ->
  exists c r1, r0 = c :: r1 /\ canon fl_i c = canon fl_i (ch ":").
Proof.
  unfold lit, cat. rewrite m_lits. intros H.
  apply consume_some in H as (w' & r & p' & -> & Hall & _).
  inversion Hall as [|c x w1 w2 Hc Hrest]; subst. simpl. eauto.
Qed.

Lemma re_http_is_scheme (t : jsstring) :
  test fl_i re_http t = true -> test fl_i re_scheme t = true.
Proof.
  unfold re_http, re_scheme. cbn [cat foldr]. rewrite !test_bol by reflexivity.
  cbn [m]. unfold lit at 1. unfold cat at 1. rewrite m_lits.
  destruct (consume fl_i (js "http") _ _) as [b|] eqn:E; [intros _|discriminate].
  apply consume_some in E as (w' & r & p' & -> & Hall & HK).
  assert (Hw : Forall ascii_letter w').
  { apply (canon_letters w' (js "http")); [|exact Hall].
    repeat constructor; vm_compute; discriminate. }
  (* after [http]: an optional [s], then the colon *)
  assert (Hr : exists w2 c r1, r = w2 ++ c :: r1 /\ Forall ascii_letter w2
                               /\ canon fl_i c = canon fl_i (ch ":")).
  { cbn [m] in HK. rewrite m_opt_lit in HK.
    destruct r as [|x r'].
    - apply colon_slashes_head in HK as (c & r1 & [=] & _).
    - destruct (N.eqb_spec (canon fl_i x) (canon fl_i (ch "s"))) as [Hx|_].
      + destruct (m fl_i (lit "://") (MState (Some x) r' ∅) _)
          as [b'|] eqn:E'.
        * apply colon_slashes_head in E' as (c & r1 & -> & Hc).
          exists [x], c, r1. repeat split; [|exact Hc].
          constructor; [|constructor].
          apply (canon_lowercase x (ch "s")); [vm_compute; split; discriminate|exact Hx].
        * apply colon_slashes_head in HK as (c & r1 & E1 & Hc).
          exists [], c, r1. repeat split; [exact E1|constructor|exact Hc].
      + apply colon_slashes_head in HK as (c & r1 & E1 & Hc).
        exists [], c, r1. repeat split; [exact E1|constructor|exact Hc]. }
  destruct Hr as (w2 & c & r1 & -> & Hw2 & Hc).
  inversion Hall as [|h c0 w'' w0 Hh Hrest E1 E2]; subst.
  inversion Hw as [|? ? Hlh Hw'']; subst.
  cbn [app]. unfold step at 1. cbn [rest caps].
  rewrite (letter_in_class h [] Hlh).
  rewrite m_star_cls.
  rewrite app_assoc.
  match goal with
  | |- match ?x with _ => _ end = true =>
      assert (Hs : is_Some x); [|destruct Hs as [? ->]; reflexivity]
  end.
  apply star_cls_reach.
  - apply letters_in_class, Forall_app. split; assumption.
  - intros p. cbn [m]. unfold step. cbn [rest caps].
    rewrite (proj2 (N.eqb_eq _ _) Hc). eauto.
Qed.

(** ** URL normalizer *)

(** Every branch of [normalizeUrl] but the bare-domain one returns the
    trimmed input. *)
Lemma normalizeUrl_cases (url : jsstring) :
  normalizeUrl url = trim url
  \/ (normalizeUrl url = js "https://" ++ trim url
      /\ test fl_i re_http (trim url) = false
      /\ test fl_i re_scheme (trim url) = false
      /\ test fl_i re_domain (trim url) = true).
Proof.
  unfold normalizeUrl. destruct url as [|c u]; [left; reflexivity|].
  destruct (test fl_i re_http _) eqn:E1; [left; reflexivity|].
  destruct (test fl_i re_scheme _) eqn:E2; [left; reflexivity|].
  destruct (_ || _); [left; reflexivity|].
  destruct (test fl_i re_domain _) eqn:E3; [right; auto|left; reflexivity].
Qed.

(** C7 as stated fails: an input that starts with [/] and ends with a blank
    is not returned unchanged, the blank is removed. *)
Lemma normalizeUrl_changes_input :
  startsWith (js "/") (js "/a/b ") = true
  /\ normalizeUrl (js "/a/b ") <> js "/a/b ".
Proof. split; [reflexivity|]. vm_compute. discriminate. Qed.

(** C7 (amended): the four examples of the specification hold, and for
    every input that is empty, or whose trimmed form has an explicit scheme,
    starts with [/] or [#], is empty, or does not have the bare-domain
    shape, [normalizeUrl] returns the input with its leading and trailing
    whitespace removed and nothing else changed; such an input is returned
    unchanged when it neither starts nor ends with whitespace. *)
Theorem normalizeUrl_never_guesses :
  (normalizeUrl (js "example.com") = js "https://example.com"
   /\ normalizeUrl (js "/a/b") = js "/a/b"
   /\ normalizeUrl (js "mailto:x@y.com") = js "mailto:x@y.com"
   /\ normalizeUrl (js "https://x.com") = js "https://x.com")
  /\ forall url : jsstring,
      (url = []
       \/ test fl_i re_scheme (trim url) = true
       \/ startsWith (js "/") (trim url) = true
       \/ startsWith (js "#") (trim url) = true
       \/ trim url = []
       \/ test fl_i re_domain (trim url) = false) ->
      normalizeUrl url = trim url
      /\ ((forall c r, url = c :: r -> isWhiteSpace c = false) ->
          (forall r c, url = r ++ [c] -> isWhiteSpace c = false) ->
          normalizeUrl url = url).
Proof.
  split; [repeat split; vm_compute; reflexivity|].
  intros url H.
  assert (Ht : normalizeUrl url = trim url).
  { destruct (normalizeUrl_cases url) as [E|(E & E1 & E2 & E3)]; [exact E|].
    destruct H as [-> | [H | [H | [H | [H | H]]]]]; try congruence.
    - discriminate.
    - apply re_domain_head in E3 as (c & r & Et & Hc).
      apply alnum_not_slash_hash in Hc as [Hc _].
      apply (startsWith_single (ch "/")) in H as [r' Hr'].
      rewrite Et in Hr'. congruence.
    - apply re_domain_head in E3 as (c & r & Et & Hc).
      apply alnum_not_slash_hash in Hc as [_ Hc].
      apply (startsWith_single (ch "#")) in H as [r' Hr'].
      rewrite Et in Hr'. congruence.
    - apply re_domain_head in E3 as (c & r & Et & Hc). congruence. }
  split; [exact Ht|].
  intros Hfirst Hlast. rewrite Ht. apply trim_id; assumption.
Qed.

Lemma normalizeUrl_never_guesses_witness :
  normalizeUrl (js "/a/b ") = trim (js "/a/b ")
  /\ normalizeUrl (js "#top") = js "#top".
Proof.
  split.
  - apply (proj2 normalizeUrl_never_guesses (js "/a/b ")).
    right; right; left. reflexivity.
  - apply (proj2 normalizeUrl_never_guesses (js "#top")).
    + right; right; right; left. reflexivity.
    + intros c r [= <- _]. reflexivity.
    + intros r c E.
      assert (Hl : last (js "#top") = Some c) by (rewrite E; apply last_snoc).
      vm_compute in Hl. injection Hl as <-. reflexivity.
Defined.

(** C9 as stated fails: an input that begins with a domain-shaped prefix
    followed by a colon is taken for a URL with a scheme and returned
    unchanged. *)
Lemma normalizeUrl_domain_with_port :
  test fl_i re_domain (trim (js "foo.bar:8080")) = true
  /\ normalizeUrl (js "foo.bar:8080") <> js "https://" ++ trim (js "foo.bar:8080").
Proof. split; [vm_compute; reflexivity|]. vm_compute. discriminate. Qed.

(** C9 (amended): the bare-domain test is a prefix match.  For every input
    whose trimmed form begins with a domain-shaped prefix and does not begin
    with a scheme (a letter, then letters, digits, [+], [.] or [-], then a
    colon), [normalizeUrl] prepends [https://] to the whole trimmed input,
    whatever follows the prefix; so [foo.bar baz] becomes
    [https://foo.bar baz]. *)
Theorem normalizeUrl_domain_prefix :
  (forall url : jsstring,
      test fl_i re_domain (trim url) = true ->
      test fl_i re_scheme (trim url) = false ->
      normalizeUrl url = js "https://" ++ trim url)
  /\ normalizeUrl (js "foo.bar baz") = js "https://foo.bar baz".
Proof.
  split; [|vm_compute; reflexivity].
  intros url Hd Hs.
  assert (Hh : test fl_i re_http (trim url) = false).
  { destruct (test fl_i re_http (trim url)) eqn:E; [|reflexivity].
    apply re_http_is_scheme in E. congruence. }
  pose proof (re_domain_head _ Hd) as (c & r & Et & Hc).
  apply alnum_not_slash_hash in Hc as [Hc1 Hc2].
  unfold normalizeUrl. destruct url as [|x u].
  - vm_compute in Et. discriminate.
  - rewrite Hh, Hs, Hd, Et.
    assert (E1 : startsWith (js "/") (c :: r) = false).
    { apply not_true_is_false. intros E.
      apply (startsWith_single (ch "/")) in E as [r' E].
      injection E as E _. exact (Hc1 E). }
    assert (E2 : startsWith (js "#") (c :: r) = false).
    { apply not_true_is_false. intros E.
      apply (startsWith_single (ch "#")) in E as [r' E].
      injection E as E _. exact (Hc2 E). }
    rewrite E1, E2. unfold str_eqb.
    rewrite bool_decide_eq_false_2 by discriminate.
    reflexivity.
Qed.

Lemma normalizeUrl_domain_prefix_witness :
  normalizeUrl (js " a.b<c> ") = js "https://a.b<c>".
Proof.
  apply (proj1 normalizeUrl_domain_prefix (js " a.b<c> ")); vm_compute; reflexivity.
Defined.

(** ** Content-type classifier: the paired-tag rule *)

Lemma canon_gt (fl : flags) (x : N) :
  (canon fl x =? canon fl (ch ">")) = (x =? ch ">").
Proof.
  unfold canon. destruct (ignoreCase fl); [|reflexivity].
  change (upper (ch ">")) with 62. change (ch ">") with 62.
  unfold upper. destruct ((97 <=? x) && (x <=? 122)) eqn:E; [|reflexivity].
  apply andb_true_iff in E as [E1 E2].
  apply N.leb_le in E1. apply N.leb_le in E2.
  destruct (N.eqb_spec (x - 32) 62), (N.eqb_spec x 62); try reflexivity; lia.
Qed.

Section TagPattern.
Variable fl : flags.

Local Abbreviation K_gt := (tag_end fl).

Lemma K_gt_eq p s cp :
  K_gt (MState p s cp)
  = match s with
    | x :: s' => if x =? ch ">" then Some (MState (Some x) s' cp) else None
    | [] => None
    end.
Proof.
  unfold tag_end. cbn [m]. unfold step. cbn [rest caps].
  destruct s as [|x s]; [reflexivity|]. rewrite canon_gt. reflexivity.
Qed.

Lemma star_gt_absent q (s : jsstring) :
  forall p cp, ~ In (ch ">") s -> star_cls q K_gt p s cp = None.
Proof.
  induction s as [|c s IH]; intros p cp Hs; simpl.
  - apply K_gt_eq.
  - rewrite K_gt_eq. rewrite IH by (intros H; apply Hs; right; exact H).
    destruct (N.eqb_spec c (ch ">")) as [-> | _].
    + exfalso. apply Hs. left. reflexivity.
    + destruct (q c); reflexivity.
Qed.

Lemma star_gt_none q (s : jsstring) :
  (forall c, q c = true) ->
  forall p cp, star_cls q K_gt p s cp = None -> ~ In (ch ">") s.
Proof.
  intros Hq. induction s as [|c s IH]; intros p cp H; [intros []|].
  simpl in H. rewrite Hq, K_gt_eq in H.
  destruct (star_cls q K_gt (Some c) s cp) eqn:E; [discriminate|].
  apply IH in E. destruct (N.eqb_spec c (ch ">")) as [-> | Hc]; [discriminate|].
  intros [Hin|Hin]; [exact (Hc Hin)|exact (E Hin)].
Qed.

(** After [[\s\S]*>] nothing that is left contains [>]: the greedy
    quantifier runs to the last [>] of the input. *)
Lemma star_gt_some q (s : jsstring) :
  (forall c, q c = true) ->
  forall p cp st, star_cls q K_gt p s cp = Some st -> ~ In (ch ">") (rest st).
Proof.
  intros Hq. induction s as [|c s IH]; intros p cp st H; simpl in H.
  - rewrite K_gt_eq in H. discriminate.
  - rewrite Hq in H.
    destruct (star_cls q K_gt (Some c) s cp) eqn:E.
    + injection H as <-. exact (IH _ _ _ E).
    + rewrite K_gt_eq in H.
      destruct (c =? ch ">"); [|discriminate].
      injection H as <-. simpl. exact (star_gt_none q s Hq _ _ E).
Qed.

(** The tail of [htmlTagPattern] after its first code unit. *)
Lemma htmlTagPattern_eq st :
  m fl htmlTagPattern st Some
  = step (fun x => canon fl x =? canon fl (ch "<")) st (fun st1 =>
      m fl (opt (Lit (ch "/"))) st1 (fun st2 =>
        step (cls_matches fl false [rng "a" "z"]) st2 (fun st3 =>
          m fl (star anychar) st3 K_gt))).
Proof. reflexivity. Qed.

Lemma htmlTagPattern_rest p s st :
  m fl htmlTagPattern (MState p s ∅) Some = Some st -> ~ In (ch ">") (rest st).
Proof.
  rewrite htmlTagPattern_eq. unfold step at 1. cbn [rest caps].
  destruct s as [|c1 s]; [discriminate|].
  destruct (_ =? _); [|discriminate].
  rewrite m_opt_lit.
  assert (Hk : forall p' s' cp', 
    step (cls_matches fl false [rng "a" "z"]) (MState p' s' cp')
      (fun st3 => m fl (star anychar) st3 K_gt) = Some st ->
    ~ In (ch ">") (rest st)).
  { intros p' s' cp'. unfold step. cbn [rest caps].
    destruct s' as [|x s']; [discriminate|].
    destruct (cls_matches _ _ _ x); [|discriminate].
    unfold anychar. rewrite m_star_cls.
    apply star_gt_some, anychar_all. }
  destruct s as [|c2 s]; [apply Hk|].
  destruct (_ =? _); [|apply Hk].
  destruct (step _ (MState (Some c2) s ∅) _) eqn:E.
  - intros [= <-]. exact (Hk _ _ _ E).
  - apply Hk.
Qed.

Lemma htmlTagPattern_needs_gt p s :
  ~ In (ch ">") s -> m fl htmlTagPattern (MState p s ∅) Some = None.
Proof.
  intros Hs. rewrite htmlTagPattern_eq. unfold step at 1. cbn [rest caps].
  destruct s as [|c1 s]; [reflexivity|].
  destruct (_ =? _); [|reflexivity].
  assert (Hs1 : ~ In (ch ">") s) by (intros H; apply Hs; right; exact H).
  rewrite m_opt_lit.
  assert (Hk : forall p' s' cp', ~ In (ch ">") s' ->
    step (cls_matches fl false [rng "a" "z"]) (MState p' s' cp')
      (fun st3 => m fl (star anychar) st3 K_gt) = None).
  { intros p' s' cp' Hs'. unfold step. cbn [rest caps].
    destruct s' as [|x s']; [reflexivity|].
    destruct (cls_matches _ _ _ x); [|reflexivity].
    unfold anychar. rewrite m_star_cls.
    apply star_gt_absent. intros H. apply Hs'. right. exact H. }
  destruct s as [|c2 s]; [apply Hk, Hs1|].
  assert (Hs2 : ~ In (ch ">") s) by (intros H; apply Hs1; right; exact H).
  destruct (_ =? _); [|apply Hk, Hs1].
  rewrite (Hk _ _ _ Hs2). apply Hk, Hs1.
Qed.

Lemma search_htmlTagPattern_rest (s : jsstring) :
  forall p sk st,
    search fl htmlTagPattern p s = Some (sk, st) -> ~ In (ch ">") (rest st).
Proof.
  induction s as [|c s IH]; intros p sk st; rewrite search_eq;
    destruct (m fl htmlTagPattern (MState p _ ∅) Some) eqn:E;
    try discriminate;
    try (intros [= _ <-]; exact (htmlTagPattern_rest _ _ _ E)).
  destruct (search fl htmlTagPattern (Some c) s) as [[sk' st']|] eqn:E';
    [|discriminate].
  simpl. intros [= _ <-]. exact (IH _ _ _ E').
Qed.

Lemma search_htmlTagPattern_needs_gt (s : jsstring) :
  forall p, ~ In (ch ">") s -> search fl htmlTagPattern p s = None.
Proof.
  induction s as [|c s IH]; intros p Hs; rewrite search_eq;
    rewrite (htmlTagPattern_needs_gt _ _ Hs); [reflexivity|].
  rewrite IH by (intros H; apply Hs; right; exact H). reflexivity.
Qed.

Lemma exec_all_needs_gt fuel p s :
  ~ In (ch ">") s -> (exec_all fuel fl htmlTagPattern p s).1 = [].
Proof.
  intros Hs. destruct fuel as [|fuel]; [reflexivity|].
  rewrite exec_all_eq, (search_htmlTagPattern_needs_gt _ _ Hs). reflexivity.
Qed.

(** [trimmed.match(/<\/?[a-z][\s\S]*>/gi)] never has two elements. *)
Lemma exec_all_htmlTagPattern fuel p s :
  (length (exec_all fuel fl htmlTagPattern p s).1 <= 1)%nat.
Proof.
  destruct fuel as [|fuel]; [simpl; lia|].
  rewrite exec_all_eq.
  destruct (search fl htmlTagPattern p s) as [[sk st]|] eqn:E;
    [|simpl; lia].
  apply search_htmlTagPattern_rest in E.
  cbn [fst length].
  destruct (take _ _) as [|x mt].
  - destruct (rest st) as [|c s'] eqn:Er; [simpl; lia|].
    assert (Hs' : ~ In (ch ">") s') by (intros H; apply E; right; exact H).
    pose proof (exec_all_needs_gt fuel (Some c) s' Hs') as H0.
    destruct (exec_all fuel fl htmlTagPattern (Some c) s') as [ms tl].
    simpl in H0. subst ms. simpl. lia.
  - rewrite (exec_all_needs_gt fuel _ _ E). simpl. lia.
Qed.
End TagPattern.

Lemma htmlTagCount_le_1 (trimmed : jsstring) : (htmlTagCount trimmed <= 1)%nat.
Proof.
  unfold htmlTagCount, match_all. rewrite length_map.
  apply exec_all_htmlTagPattern.
Qed.

(** C3, code defect: the paired-tag rule of [detectContentType] asks for
    [htmlTagCount >= 2], but the pattern counted ends in a greedy [[\s\S]*>]
    that runs to the last [>] of the text, so the count is never above 1
    and the rule never fires.  A text made of an opening and a closing tag
    around [**bold**] is therefore scored by the lightweight-markup
    signatures and classified as markdown. *)
Theorem paired_tag_rule_never_fires :
  (forall content : jsstring, (2 <=? htmlTagCount (trim content))%nat = false)
  /\ closingTagCount (js "<p>**bold**</p>") = 1%nat
  /\ htmlTagCount (js "<p>**bold**</p>") = 1%nat
  /\ detectContentType (js "<p>**bold**</p>") = Markdown.
Proof.
  split.
  - intros content. apply Nat.leb_gt.
    pose proof (htmlTagCount_le_1 (trim content)). lia.
  - repeat split; vm_compute; reflexivity.
Qed.

(** ** Image serialization *)

Lemma js_src_alt : js "src" <> js "alt". Proof. discriminate. Qed.
Lemma js_src_title : js "src" <> js "title". Proof. discriminate. Qed.
Lemma js_alt_title : js "alt" <> js "title". Proof. discriminate. Qed.

Lemma lookup_set_nonempty (key k : jsstring) (v : option jsstring)
    (o : gmap jsstring jsstring) :
  set_nonempty key v o !! k
  = if bool_decide (key = k)
    then match v with
         | Some (c :: v') => Some (trim (c :: v'))
         | _ => o !! k
         end
    else o !! k.
Proof.
  unfold set_nonempty. case_bool_decide as E.
  - subst k. destruct v as [[|c v']|]; try reflexivity. apply lookup_insert_eq.
  - destruct v as [[|c v']|]; try reflexivity. apply lookup_insert_ne, E.
Qed.

(** The attributes taken over from [HTMLAttributes] never include [src],
    [alt] or [title]. *)
Lemma rest_has_no (H : gmap jsstring jsvalue) (k : jsstring) :
  k = js "src" \/ k = js "alt" \/ k = js "title" ->
  string_values (delete (js "title") (delete (js "alt") (delete (js "src") H))) !! k
  = None.
Proof.
  intros Hk. unfold string_values. rewrite lookup_omap.
  destruct Hk as [-> | [-> | ->]].
  - rewrite lookup_delete_ne by (symmetry; exact js_src_title).
    rewrite lookup_delete_ne by (symmetry; exact js_src_alt).
    rewrite lookup_delete_eq. reflexivity.
  - rewrite lookup_delete_ne by (symmetry; exact js_alt_title).
    rewrite lookup_delete_eq. reflexivity.
  - rewrite lookup_delete_eq. reflexivity.
Qed.

Lemma renderHTML_src (H : gmap jsstring jsvalue) (attrs : imageAttrs) :
  renderHTML H attrs !! js "src"
  = match cleanOriginalSrc attrs with
    | Some (c :: u) => Some (trim (c :: u))
    | _ => None
    end.
Proof.
  unfold renderHTML. rewrite !lookup_set_nonempty.
  rewrite (bool_decide_eq_false_2 (js "title" = js "src"))
    by (intros E; exact (js_src_title (eq_sym E))).
  rewrite (bool_decide_eq_false_2 (js "alt" = js "src"))
    by (intros E; exact (js_src_alt (eq_sym E))).
  rewrite bool_decide_eq_true_2 by reflexivity.
  rewrite rest_has_no by auto.
  destruct (cleanOriginalSrc attrs) as [[|c u]|]; reflexivity.
Qed.

Lemma renderHTML_alt (H : gmap jsstring jsvalue) (attrs : imageAttrs) :
  renderHTML H attrs !! js "alt"
  = match alt attrs with
    | Some (c :: a) => Some (trim (c :: a))
    | _ => None
    end.
Proof.
  unfold renderHTML. rewrite !lookup_set_nonempty.
  rewrite (bool_decide_eq_false_2 (js "title" = js "alt"))
    by (intros E; exact (js_alt_title (eq_sym E))).
  rewrite bool_decide_eq_true_2 by reflexivity.
  rewrite (bool_decide_eq_false_2 (js "src" = js "alt")) by exact js_src_alt.
  rewrite rest_has_no by auto.
  destruct (alt attrs) as [[|c u]|]; reflexivity.
Qed.

Lemma renderHTML_title (H : gmap jsstring jsvalue) (attrs : imageAttrs) :
  renderHTML H attrs !! js "title"
  = match title attrs with
    | Some (c :: a) => Some (trim (c :: a))
    | _ => None
    end.
Proof.
  unfold renderHTML. rewrite !lookup_set_nonempty.
  rewrite bool_decide_eq_true_2 by reflexivity.
  rewrite (bool_decide_eq_false_2 (js "alt" = js "title")) by exact js_alt_title.
  rewrite (bool_decide_eq_false_2 (js "src" = js "title")) by exact js_src_title.
  rewrite rest_has_no by auto.
  destruct (title attrs) as [[|c u]|]; reflexivity.
Qed.

Lemma trimEnd_last (s : jsstring) :
  forall r c, trimEnd s = r ++ [c] -> isWhiteSpace c = false.
Proof.
  induction s as [|x s IH]; intros r c; simpl.
  - destruct r; discriminate.
  - destruct (trimEnd s) as [|y r'] eqn:E.
    + destruct (isWhiteSpace x) eqn:Ex.
      * destruct r; discriminate.
      * destruct r as [|z [|z' r]]; simpl; intros [= ]; subst; assumption.
    + destruct r as [|z r]; simpl.
      * intros [= ].
      * intros [= -> Hr]. exact (IH r c Hr).
Qed.

Lemma trim_idem (s : jsstring) : trim (trim s) = trim s.
Proof.
  apply trim_id.
  - intros c r E. exact (trim_head _ _ _ E).
  - intros r c E. exact (trimEnd_last _ _ _ E).
Qed.

Lemma trim_cons_keep (c : N) (r : jsstring) :
  isWhiteSpace c = false -> exists r', trim (c :: r) = c :: r'.
Proof.
  intros Hc. unfold trim, trimStart. simpl dropWhile. rewrite Hc.
  simpl. destruct (trimEnd r); [rewrite Hc|]; eauto.
Qed.

Lemma trim_no_ws (s : jsstring) :
  forallb (fun c => negb (isWhiteSpace c)) s = true -> trim s = s.
Proof.
  intros H. apply trim_id.
  - intros c r ->. simpl in H. apply andb_true_iff in H as [H _].
    apply negb_true_iff in H. exact H.
  - intros r c ->. rewrite forallb_app in H.
    apply andb_true_iff in H as [_ H]. simpl in H.
    rewrite andb_true_r in H. apply negb_true_iff in H. exact H.
Qed.

Lemma indexOf_single (a : N) (s : jsstring) :
  forall i, indexOf [a] s = Some i ->
            take i s = takeWhile (fun c => negb (c =? a)) s.
Proof.
  induction s as [|c s IH]; intros i; simpl.
  - discriminate.
  - rewrite andb_true_r, (N.eqb_sym c a).
    destruct (a =? c); simpl.
    + intros [= <-]. reflexivity.
    + destruct (indexOf [a] s) as [j|]; [|discriminate].
      simpl. intros [= <-]. simpl. rewrite (IH j eq_refl). reflexivity.
Qed.

Lemma takeWhile_all {A} (p : A -> bool) (l : list A) :
  forallb p (takeWhile p l) = true.
Proof.
  induction l as [|x l IH]; simpl; [reflexivity|].
  destruct (p x) eqn:E; simpl; [rewrite E; exact IH|reflexivity].
Qed.

Lemma length_dropWhile {A} (p : A -> bool) (l : list A) :
  (length (dropWhile p l) <= length l)%nat.
Proof.
  induction l as [|x l IH]; simpl; [lia|].
  destruct (p x); simpl; lia.
Qed.

Lemma take_takeWhile {A} (p : A -> bool) (l : list A) :
  take (length l - length (dropWhile p l)) l = takeWhile p l.
Proof.
  induction l as [|x l IH]; simpl; [reflexivity|].
  destruct (p x) eqn:E.
  - pose proof (length_dropWhile p l).
    replace (S (length l) - length (dropWhile p l))%nat
      with (S (length l - length (dropWhile p l))) by lia.
    simpl. rewrite IH. reflexivity.
  - simpl. rewrite Nat.sub_diag. reflexivity.
Qed.

(** A greedy class quantifier followed by something that cannot fail takes
    the longest run. *)
Lemma star_cls_total {B} (q : N -> bool) (g : mstate -> B) (s : jsstring) :
  forall p cp, exists p',
    star_cls q (fun st => Some (g st)) p s cp
    = Some (g (MState p' (dropWhile q s) cp)).
Proof.
  induction s as [|c s IH]; intros p cp; simpl.
  - eauto.
  - destruct (q c); [|eauto].
    destruct (IH (Some c) cp) as [p' ->]. eauto.
Qed.

Lemma star_cls_ext {B} (q q' : N -> bool) (K : mstate -> option B) :
  (forall x, q x = q' x) ->
  forall s p cp, star_cls q K p s cp = star_cls q' K p s cp.
Proof.
  intros Hq. induction s as [|c s IH]; intros p cp; simpl; [reflexivity|].
  rewrite Hq, IH. reflexivity.
Qed.

Lemma url_class (c : N) :
  cls_matches fl_0 true [CSpace; CChar dquote; chr "'"] c = not_ws_quote c.
Proof.
  unfold cls_matches, item_matches, not_ws_quote. simpl.
  rewrite !orb_false_r.
  destruct (isWhiteSpace c), (c =? dquote), (c =? _); reflexivity.
Qed.

(** What [trimmedSrc.match] captures: the longest prefix without whitespace
    or quotes, when it is not empty. *)
Lemma url_part_capture (t : jsstring) :
  match search fl_0 re_url_part None t with
  | Some (_, st) => caps st !! 1%nat
  | None => None
  end
  = match takeWhile not_ws_quote t with
    | [] => None
    | w => Some w
    end.
Proof.
  rewrite search_eq. unfold re_url_part. cbn [cat foldr m at_bol prev].
  rewrite m_plus_cls.
  destruct t as [|c s]; [reflexivity|].
  rewrite url_class. simpl takeWhile.
  destruct (not_ws_quote c) eqn:Ec.
  - rewrite (star_cls_ext _ not_ws_quote) by exact url_class.
    destruct (star_cls_total not_ws_quote
                (set_cap 1 (MState None (c :: s) ∅)) s (Some c) ∅) as [p' E].
    rewrite E. unfold set_cap. cbn [caps rest]. rewrite lookup_insert_eq.
    f_equal.
    rewrite <- (take_takeWhile not_ws_quote s).
    pose proof (length_dropWhile not_ws_quote s).
    replace (length (c :: s) - length (dropWhile not_ws_quote s))%nat
      with (S (length s - length (dropWhile not_ws_quote s)))
      by (simpl; lia).
    reflexivity.
  - rewrite search_bol_later by reflexivity. reflexivity.
Qed.

Lemma indexOf_zero (a : N) (s : jsstring) :
  indexOf [a] s = Some 0%nat -> exists r, s = a :: r.
Proof.
  destruct s as [|c s]; simpl; [discriminate|].
  rewrite andb_true_r. destruct (N.eqb_spec a c) as [-> | _]; [eauto|].
  destruct (indexOf [a] s); discriminate.
Qed.

Lemma indexOf_space (s : jsstring) (i : nat) :
  indexOf (js " ") s = Some i -> take i s = takeWhile not_space s.
Proof. exact (indexOf_single (ch " ") s i). Qed.

Lemma not_ws_quote_not_ws (w : jsstring) :
  forallb not_ws_quote w = true ->
  forallb (fun c => negb (isWhiteSpace c)) w = true.
Proof.
  induction w as [|c w IH]; simpl; [reflexivity|].
  intros H. apply andb_true_iff in H as [Hc Hw].
  rewrite (IH Hw), andb_true_r.
  unfold not_ws_quote in Hc. destruct (isWhiteSpace c); [discriminate|reflexivity].
Qed.

(** The value written as [src], from the stored URL. *)
Lemma cleanOriginalSrc_sanitize (attrs : imageAttrs) :
  match cleanOriginalSrc attrs with
  | Some (c :: u) => Some (trim (c :: u))
  | _ => None
  end
  = match or_else (originalSrc attrs) (src attrs) with
    | Some (c :: o) =>
        match sanitize (c :: o) with
        | [] => None
        | u => Some u
        end
    | _ => None
    end.
Proof.
  unfold cleanOriginalSrc, sanitize.
  destruct (or_else (originalSrc attrs) (src attrs)) as [[|c o]|];
    [reflexivity| |reflexivity].
  set (t := trim (c :: o)).
  destruct (looks_contaminated t) eqn:Hcont.
  - assert (Ht : t <> []) by (intros E; rewrite E in Hcont; discriminate).
    unfold includes.
    destruct (indexOf (js " ") t) as [[|i]|] eqn:Hi.
    + (* a trimmed value does not start with a space *)
      apply indexOf_zero in Hi as [r Hr].
      apply trim_head in Hr. discriminate.
    + unfold substring. rewrite Nat.sub_0_r, drop_0.
      rewrite (indexOf_space _ _ Hi).
      destruct t as [|h r] eqn:Et; [congruence|].
      assert (Hh : isWhiteSpace h = false) by exact (trim_head _ _ _ Et).
      assert (Hs : not_space h = true).
      { unfold not_space. destruct (N.eqb_spec h (ch " ")) as [-> | _];
          [discriminate|reflexivity]. }
      cbn [takeWhile]. rewrite Hs.
      destruct (trim_cons_keep h (takeWhile not_space r) Hh) as [r' ->].
      reflexivity.
    + pose proof (url_part_capture t) as Hcap.
      pose proof (takeWhile_all not_ws_quote t) as Hall.
      destruct (takeWhile not_ws_quote t) as [|x w].
      * assert (E : match search fl_0 re_url_part None t with
                    | Some (_, st) =>
                        match caps st !! 1%nat with
                        | Some u => Some u
                        | None => Some (c :: o)
                        end
                    | None => Some (c :: o)
                    end = Some (c :: o)).
        { destruct (search fl_0 re_url_part None t) as [[sk st]|]; [|reflexivity].
          rewrite Hcap. reflexivity. }
        rewrite E. fold t. destruct t; [congruence|reflexivity].
      * destruct (search fl_0 re_url_part None t) as [[sk st]|]; [|discriminate].
        rewrite Hcap.
        rewrite (trim_no_ws (x :: w)) by (apply not_ws_quote_not_ws, Hall).
        reflexivity.
  - subst t. destruct (trim (c :: o)) as [|h r] eqn:Et; [reflexivity|].
    rewrite <- Et, trim_idem. reflexivity.
Qed.

(** C10: whatever [HTMLAttributes] holds, the serialized image has no [alt]
    (no [title]) when the stored value is null or the empty string, and the
    trimmed value otherwise; it has no [src] when the canonical URL is null
    or empty, be it the stored one ([originalSrc], else [src]) or the one
    left by the clean-up.  An image whose [alt] is the empty string comes
    back from [getAttrs] with a null [alt]. *)
Theorem renderHTML_omits_empty :
  (forall (H : gmap jsstring jsvalue) (attrs : imageAttrs),
      renderHTML H attrs !! js "alt"
      = match alt attrs with
        | None | Some [] => None
        | Some (c :: a) => Some (trim (c :: a))
        end
      /\ renderHTML H attrs !! js "title"
         = match title attrs with
           | None | Some [] => None
           | Some (c :: a) => Some (trim (c :: a))
           end
      /\ renderHTML H attrs !! js "src"
         = match cleanOriginalSrc attrs with
           | None | Some [] => None
           | Some (c :: u) => Some (trim (c :: u))
           end
      /\ (truthy (or_else (originalSrc attrs) (src attrs)) = false ->
          renderHTML H attrs !! js "src" = None))
  /\ (let attrs := ImageAttrs (Some (js "a.png")) (Some (js "a.png")) (Some []) None in
      alt <$> getAttrs None (renderHTML ∅ attrs) = Some None
      /\ alt attrs = Some []).
Proof.
  split.
  - intros H attrs. rewrite renderHTML_alt, renderHTML_title, renderHTML_src.
    split; [|split; [|split]].
    + destruct (alt attrs) as [[|c u]|]; reflexivity.
    + destruct (title attrs) as [[|c u]|]; reflexivity.
    + destruct (cleanOriginalSrc attrs) as [[|c u]|]; reflexivity.
    + intros Hstored. rewrite cleanOriginalSrc_sanitize.
      destruct (or_else (originalSrc attrs) (src attrs)) as [[|c o]|];
        [reflexivity|discriminate|reflexivity].
  - split; vm_compute; reflexivity.
Qed.

Lemma renderHTML_omits_empty_witness :
  renderHTML {[ js "src" := VString (js "x.png") ]}
    (ImageAttrs None (Some []) None None) !! js "src" = None.
Proof.
  apply (proj1 renderHTML_omits_empty). reflexivity.
Defined.



(** ** The dispatcher *)

Section DispatcherFacts.
Variable toLowerCase : jsstring -> jsstring.
Variable htmlToDOM : jsstring -> list dom.

Local Abbreviation walk := (domToReact toLowerCase htmlToDOM).
Local Abbreviation callback := (replace toLowerCase htmlToDOM).

Lemma domToReact_S (R : gmap jsstring TagRenderer) fuel opts nodes log :
  walk R (S fuel) opts nodes log
  = domToReact_step toLowerCase htmlToDOM R (walk R fuel) opts nodes log.
Proof. reflexivity. Qed.

Lemma renderer_of_own (R : gmap jsstring TagRenderer) (t : jsstring) f :
  R !! t = Some f -> renderer_of R t = Some f.
Proof. intros H. unfold renderer_of. rewrite H. reflexivity. Qed.





(** With a renderer registered for the tag the default link pass is off. *)
Lemma link_pass_off (R : gmap jsstring TagRenderer) (tagName : jsstring) f :
  R !! tagName = Some f ->
  bool_decide (tagName = js "a") && negb (bool_decide (is_Some (R !! js "a")))
  = false.
Proof.
  intros Hf. case_bool_decide as E; [|reflexivity].
  rewrite <- E, Hf. rewrite bool_decide_eq_true_2 by eauto. reflexivity.
Qed.


Lemma replace_invalid (R : gmap jsstring TagRenderer) rec name attribs children
    log f :
  name <> [] ->
  R !! toLowerCase name = Some f ->
  f (mkContext toLowerCase (toLowerCase name) attribs children) = RInvalid ->
  callback R rec (DTag name attribs children) log
  = Ok (DTag name attribs children, None)
       (log ++ [LogWarn (toLowerCase name)]).
Proof.
  intros Hn Hf Hinv. unfold replace.
  rewrite bool_decide_eq_false_2 by exact Hn.
  rewrite (link_pass_off R _ f Hf), (renderer_of_own R _ f Hf), Hinv.
  reflexivity.
Qed.

(** A string that is no markup is returned by the callback as it is. *)
Lemma replace_plain (R : gmap jsstring TagRenderer) rec name attribs children
    log f s :
  name <> [] ->
  R !! toLowerCase name = Some f ->
  f (mkContext toLowerCase (toLowerCase name) attribs children) = RString s ->
  startsWith (js "<") (trim s) = false ->
  callback R rec (DTag name attribs children) log
  = Ok (DTag name attribs children, Some (Literal s)) log.
Proof.
  intros Hn Hf Hs Hplain. unfold replace.
  rewrite bool_decide_eq_false_2 by exact Hn.
  rewrite (link_pass_off R _ f Hf), (renderer_of_own R _ f Hf), Hs, Hplain.
  reflexivity.
Qed.

Lemma call_replace_unsuppressed (R : gmap jsstring TagRenderer) rec opts
    name attribs children log :
  suppresses opts name = false ->
  call_replace toLowerCase htmlToDOM R rec opts (DTag name attribs children) log
  = callback R rec (DTag name attribs children) log.
Proof.
  destruct opts as [|t]; simpl; [reflexivity|].
  intros ->. reflexivity.
Qed.










(** *** The context handed to a renderer *)

Lemma mkContext_empty tagName attribs children :
  innerHTML (mkContext toLowerCase tagName attribs children) = []
  /\ originalHTML (mkContext toLowerCase tagName attribs children) = [].
Proof. destruct children; split; reflexivity. Qed.

Lemma replace_agree (R1 R2 : gmap jsstring TagRenderer) rec1 rec2 :
  agree_on_empty R1 R2 ->
  (forall opts nodes log, rec1 opts nodes log = rec2 opts nodes log) ->
  forall node log, callback R1 rec1 node log = callback R2 rec2 node log.
Proof.
  intros Hag Hrec node log. unfold replace.
  destruct node as [data|name attribs children|kind]; try reflexivity.
  case_bool_decide; [reflexivity|].
  assert (Ea : bool_decide (is_Some (R1 !! js "a"))
               = bool_decide (is_Some (R2 !! js "a"))).
  { pose proof (Hag (js "a")) as Ha.
    destruct (R1 !! js "a"), (R2 !! js "a"); try contradiction.
    - rewrite !bool_decide_eq_true_2 by eauto. reflexivity.
    - rewrite !bool_decide_eq_false_2 by (apply is_Some_None). reflexivity. }
  rewrite Ea. cbv zeta. unfold renderer_of.
  pose proof (Hag (toLowerCase name)) as Ht.
  destruct (R1 !! toLowerCase name) as [f1|], (R2 !! toLowerCase name) as [f2|];
    try contradiction;
    [|destruct (bool_decide (toLowerCase name = js "constructor"));
        [reflexivity|];
      destruct (bool_decide (toLowerCase name = js "__proto__")); reflexivity].
  rewrite Ht by apply mkContext_empty.
  destruct (f2 _); try reflexivity.
  - destruct children; [reflexivity|]. rewrite Hrec. reflexivity.
  - destruct (startsWith _ _); [|reflexivity]. rewrite Hrec. reflexivity.
Qed.

Lemma domToReact_agree (R1 R2 : gmap jsstring TagRenderer) :
  agree_on_empty R1 R2 ->
  forall fuel opts nodes log,
    walk R1 fuel opts nodes log = walk R2 fuel opts nodes log.
Proof.
  intros Hag. induction fuel as [|fuel IH]; intros opts nodes log;
    [reflexivity|].
  rewrite !domToReact_S. unfold domToReact_step.
  destruct nodes as [|node siblings]; [reflexivity|].
  assert (E : call_replace toLowerCase htmlToDOM R1 (walk R1 fuel) opts node log
              = call_replace toLowerCase htmlToDOM R2 (walk R2 fuel) opts node log).
  { destruct opts as [|t]; simpl.
    - apply replace_agree; assumption.
    - unfold replace_recursive. destruct node; try (apply replace_agree; assumption).
      case_bool_decide; [reflexivity|apply replace_agree; assumption]. }
  rewrite E.
  destruct (call_replace toLowerCase htmlToDOM R2 (walk R2 fuel) opts node log)
    as [[[d|n a c|k] r] log1|]; cbn [bind fst snd]; [| | |reflexivity];
    destruct (accepted r); rewrite ?IH; try reflexivity.
  destruct (walk R2 fuel opts c log1); simpl; rewrite ?IH; reflexivity.
Qed.

(** C8: the context of every call of a renderer has an empty [innerHTML]
    and an empty [originalHTML], whatever the children of the element;
    hence what the renderers answer on any other context has no effect on
    the rendering. *)
Theorem context_inner_and_original_are_empty :
  (forall tagName attribs children,
      innerHTML (mkContext toLowerCase tagName attribs children) = []
      /\ originalHTML (mkContext toLowerCase tagName attribs children) = [])
  /\ (forall R1 R2 : gmap jsstring TagRenderer,
        agree_on_empty R1 R2 ->
        forall fuel opts nodes log,
          walk R1 fuel opts nodes log = walk R2 fuel opts nodes log).
Proof. split; [apply mkContext_empty|apply domToReact_agree]. Qed.

(** *** The default link pass *)

Lemma js_href_target : js "href" <> js "target". Proof. discriminate. Qed.
Lemma js_href_rel : js "href" <> js "rel". Proof. discriminate. Qed.
Lemma js_target_rel : js "target" <> js "rel". Proof. discriminate. Qed.

Lemma normalizeUrl_nil : normalizeUrl [] = [].
Proof. reflexivity. Qed.

Lemma linkDefaults_lookup (attribs : gmap jsstring jsstring) :
  linkDefaults attribs !! js "href" = normalizeUrl <$> attribs !! js "href"
  /\ linkDefaults attribs !! js "target"
     = match attribs !! js "target" with
       | Some (c :: v) => Some (c :: v)
       | _ => Some (js "_blank")
       end
  /\ linkDefaults attribs !! js "rel"
     = match attribs !! js "rel" with
       | Some (c :: v) => Some (c :: v)
       | _ => Some (js "noopener noreferrer")
       end
  /\ forall k : jsstring,
      k <> js "href" -> k <> js "target" -> k <> js "rel" ->
      linkDefaults attribs !! k = attribs !! k.
Proof.
  pose proof js_href_target as Nht. pose proof js_href_rel as Nhr.
  pose proof js_target_rel as Ntr.
  unfold linkDefaults, truthy.
  set (a1 := match attribs !! js "href" with
             | Some (c :: h) => <[js "href" := normalizeUrl (c :: h)]> attribs
             | _ => attribs
             end).
  assert (H1 : a1 !! js "href" = normalizeUrl <$> attribs !! js "href").
  { subst a1. destruct (attribs !! js "href") as [[|c h]|] eqn:E.
    - rewrite E. reflexivity.
    - rewrite lookup_insert_eq. reflexivity.
    - rewrite E. reflexivity. }
  assert (H1' : forall k : jsstring, k <> js "href" -> a1 !! k = attribs !! k).
  { intros k Hk. subst a1. destruct (attribs !! js "href") as [[|c h]|];
      try reflexivity. apply lookup_insert_ne. congruence. }
  clearbody a1.
  set (a2 := match a1 !! js "target" with
             | Some (_ :: _) => a1
             | _ => <[js "target" := js "_blank"]> a1
             end).
  assert (H2 : a2 !! js "target"
               = match attribs !! js "target" with
                 | Some (c :: v) => Some (c :: v)
                 | _ => Some (js "_blank")
                 end).
  { subst a2. rewrite <- (H1' (js "target")) by congruence.
    destruct (a1 !! js "target") as [[|c v]|] eqn:E;
      rewrite ?lookup_insert_eq, ?E; reflexivity. }
  assert (H2' : forall k : jsstring, k <> js "target" -> a2 !! k = a1 !! k).
  { intros k Hk. subst a2. destruct (a1 !! js "target") as [[|c v]|];
      try reflexivity; apply lookup_insert_ne; congruence. }
  replace (if match a1 !! js "target" with
              | Some (_ :: _) => true
              | _ => false
              end then a1 else <[js "target" := js "_blank"]> a1) with a2
    by (subst a2; destruct (a1 !! js "target") as [[|c v]|]; reflexivity).
  clearbody a2.
  set (a3 := if match a2 !! js "rel" with
                | Some (_ :: _) => true
                | _ => false
                end then a2 else <[js "rel" := js "noopener noreferrer"]> a2).
  assert (H3 : a3 !! js "rel"
               = match attribs !! js "rel" with
                 | Some (c :: v) => Some (c :: v)
                 | _ => Some (js "noopener noreferrer")
                 end).
  { subst a3. rewrite <- (H1' (js "rel")), <- (H2' (js "rel")) by congruence.
    destruct (a2 !! js "rel") as [[|c v]|] eqn:E;
      rewrite ?lookup_insert_eq, ?E; reflexivity. }
  assert (H3' : forall k : jsstring, k <> js "rel" -> a3 !! k = a2 !! k).
  { intros k Hk. subst a3. destruct (a2 !! js "rel") as [[|c v]|];
      try reflexivity; apply lookup_insert_ne; congruence. }
  clearbody a3.
  repeat split.
  - rewrite H3', H2', H1 by congruence. reflexivity.
  - rewrite H3', H2 by congruence. reflexivity.
  - exact H3.
  - intros k Hh Ht Hr. rewrite H3', H2', H1' by assumption. reflexivity.
Qed.

Lemma replace_anchor_default (R : gmap jsstring TagRenderer) rec name attribs
    children log :
  name <> [] -> toLowerCase name = js "a" -> R !! js "a" = None ->
  callback R rec (DTag name attribs children) log
  = Ok (DTag name (linkDefaults attribs) children, None) log.
Proof.
  intros Hn Ha HR. unfold replace.
  rewrite bool_decide_eq_false_2 by exact Hn.
  rewrite Ha, HR. rewrite bool_decide_eq_true_2 by reflexivity.
  rewrite bool_decide_eq_false_2 by (apply is_Some_None).
  unfold renderer_of. rewrite HR. reflexivity.
Qed.

Lemma replace_keeps_node (R : gmap jsstring TagRenderer) rec name attribs
    children log f :
  R !! toLowerCase name = Some f ->
  match callback R rec (DTag name attribs children) log with
  | Ok (node', _) _ => node' = DTag name attribs children
  | _ => True
  end.
Proof.
  intros Hf. unfold replace. case_bool_decide; [reflexivity|].
  rewrite (link_pass_off R _ f Hf), (renderer_of_own R _ f Hf).
  destruct (f _); try reflexivity.
  - destruct children as [|c cs]; [reflexivity|].
    destruct (rec Options (c :: cs) log); reflexivity.
  - destruct (startsWith _ _); [|reflexivity].
    destruct (rec _ (htmlToDOM s) log); reflexivity.
Qed.

(** C5 (amended): an anchor the walk visits is given to
    [options.replace].  When no renderer is registered for [a], the
    anchor is rendered by default with its [href] rewritten by
    [normalizeUrl] and with [target="_blank"] and
    [rel="noopener noreferrer"] set when these attributes are absent or
    empty (a non-empty value set by the caller is kept); every other
    attribute is left alone.  When a renderer is registered for [a], the
    default pass is skipped: the attributes of the node are not touched,
    and they are what the renderer receives. *)
Theorem anchor_default_pass (R : gmap jsstring TagRenderer) :
  forall name attribs children siblings opts fuel log,
    name <> [] -> toLowerCase name = js "a" -> suppresses opts name = false ->
    (R !! js "a" = None ->
       walk R (S fuel) opts (DTag name attribs children :: siblings) log
       = bind (walk R fuel opts children log) (fun cs log2 =>
           bind (walk R fuel opts siblings log2) (fun rs log3 =>
             Ok (HostElement name (linkDefaults attribs) cs :: rs) log3))
       /\ linkDefaults attribs !! js "href" = normalizeUrl <$> attribs !! js "href"
       /\ linkDefaults attribs !! js "target"
          = match attribs !! js "target" with
            | Some (c :: v) => Some (c :: v)
            | _ => Some (js "_blank")
            end
       /\ linkDefaults attribs !! js "rel"
          = match attribs !! js "rel" with
            | Some (c :: v) => Some (c :: v)
            | _ => Some (js "noopener noreferrer")
            end
       /\ forall k : jsstring,
           k <> js "href" -> k <> js "target" -> k <> js "rel" ->
           linkDefaults attribs !! k = attribs !! k)
    /\ (forall f, R !! js "a" = Some f ->
          match callback R (walk R fuel) (DTag name attribs children) log with
          | Ok (node', _) _ => node' = DTag name attribs children
          | _ => True
          end
          /\ (f (mkContext toLowerCase (js "a") attribs children) = RInvalid ->
              walk R (S fuel) opts (DTag name attribs children :: siblings) log
              = bind (walk R fuel opts children (log ++ [LogWarn (js "a")]))
                  (fun cs log2 =>
                     bind (walk R fuel opts siblings log2) (fun rs log3 =>
                       Ok (HostElement name attribs cs :: rs) log3)))).
Proof.
  intros name attribs children siblings opts fuel log Hn Ha Hsup. split.
  - intros HR. split; [|apply linkDefaults_lookup].
    rewrite domToReact_S. unfold domToReact_step.
    rewrite call_replace_unsuppressed by exact Hsup.
    rewrite replace_anchor_default by assumption. reflexivity.
  - intros f Hf. rewrite <- Ha in Hf. split.
    + exact (replace_keeps_node R _ name attribs children log f Hf).
    + intros Hinv. rewrite domToReact_S. unfold domToReact_step.
      rewrite call_replace_unsuppressed by exact Hsup.
      rewrite <- Ha in Hinv.
      rewrite (replace_invalid R _ _ _ _ _ f Hn Hf Hinv), Ha. reflexivity.
Qed.
End DispatcherFacts.

(** ** The guard against a renderer that answers its own tag *)

Lemma replace_markup (tl : jsstring -> jsstring)
    (hd : jsstring -> list dom) (R : gmap jsstring TagRenderer)
    (rec : options -> list dom -> list logentry -> outcome (list react))
    (name : jsstring) (attribs : gmap jsstring jsstring) (children : list dom)
    (log : list logentry) (f : TagRenderer) (s : jsstring) :
  name <> [] ->
  R !! tl name = Some f ->
  f (mkContext tl (tl name) attribs children) = RString s ->
  startsWith (js "<") (trim s) = true ->
  replace tl hd R rec (DTag name attribs children) log
  = try_catch
      (bind (rec (RecursiveOptions (tl name)) (hd s) log)
         (fun nodes log' =>
            Ok (DTag name attribs children, Some (Fragment nodes)) log'))
      (fun error log' =>
         Ok (DTag name attribs children, None)
           (log' ++ [LogError (tl name) error])).
Proof.
  intros Hn Hf Hs Hlt. unfold replace.
  rewrite bool_decide_eq_false_2 by exact Hn.
  rewrite (link_pass_off R _ f Hf), (renderer_of_own R _ f Hf), Hs, Hlt.
  reflexivity.
Qed.

Lemma replace_element (tl : jsstring -> jsstring)
    (hd : jsstring -> list dom) (R : gmap jsstring TagRenderer)
    (rec : options -> list dom -> list logentry -> outcome (list react))
    (name : jsstring) (attribs : gmap jsstring jsstring) (child : dom)
    (children : list dom) (log : list logentry) (f : TagRenderer)
    (el : element) :
  name <> [] ->
  R !! tl name = Some f ->
  f (mkContext tl (tl name) attribs (child :: children)) = RElement el ->
  replace tl hd R rec (DTag name attribs (child :: children)) log
  = try_catch
      (bind (rec Options (child :: children) log)
         (fun childElements log' =>
            Ok (DTag name attribs (child :: children),
                Some (Cloned el (props_children el) childElements)) log'))
      (fun error log' =>
         Ok (DTag name attribs (child :: children), None)
           (log' ++ [LogError (tl name) error])).
Proof.
  intros Hn Hf Hel. unfold replace.
  rewrite bool_decide_eq_false_2 by exact Hn.
  rewrite (link_pass_off R _ f Hf), (renderer_of_own R _ f Hf), Hel.
  reflexivity.
Qed.

(** Two more levels of calls give one more level of nesting. *)
Lemma nesting_step (fuel : nat) (x : react) (log : list logentry) :
  domToReact asciiLower Fragment.parse nesting_renderers (S fuel) Options
    [DTag (js "div") ∅ []] [] = Ok [x] log ->
  isValidElement x = true ->
  domToReact asciiLower Fragment.parse nesting_renderers (S (S (S fuel))) Options
    [DTag (js "div") ∅ []] []
  = Ok [Fragment [Cloned (Element 0 None) None [x]]] log.
Proof.
  intros Hw Hx.
  assert (Hv : domToReact asciiLower Fragment.parse nesting_renderers
                 (S (S fuel)) (RecursiveOptions (js "div"))
                 [DTag (js "span") ∅ [DTag (js "div") ∅ []]] []
               = Ok [Cloned (Element 0 None) None [x]] log).
  { rewrite domToReact_S. unfold domToReact_step, call_replace, replace_recursive.
    rewrite bool_decide_eq_false_2 by discriminate.
    rewrite (replace_element asciiLower Fragment.parse nesting_renderers _
               (js "span") ∅ (DTag (js "div") ∅ []) [] []
               (fun _ => RElement (Element 0 None)) (Element 0 None));
      [|discriminate|vm_compute; reflexivity|reflexivity].
    rewrite Hw. reflexivity. }
  rewrite domToReact_S. unfold domToReact_step, call_replace.
  rewrite (replace_markup asciiLower Fragment.parse nesting_renderers _
             (js "div") ∅ [] []
             (fun _ => RString (js "<span><div></div></span>"))
             (js "<span><div></div></span>"));
    [|discriminate|vm_compute; reflexivity|reflexivity|vm_compute; reflexivity].
  change (Fragment.parse (js "<span><div></div></span>"))
    with [DTag (js "span") ∅ [DTag (js "div") ∅ []]].
  change (asciiLower (js "div")) with (js "div").
  rewrite Hv. cbn [bind try_catch fst snd accepted isValidElement].
  reflexivity.
Qed.

Lemma nesting_exhausts (fuel : nat) :
  (exists x log,
      domToReact asciiLower Fragment.parse nesting_renderers (2 + fuel) Options
        [DTag (js "div") ∅ []] [] = Ok [x] log
      /\ isValidElement x = true /\ logs_exhaustion log = true)
  /\ (exists x log,
        domToReact asciiLower Fragment.parse nesting_renderers (3 + fuel) Options
          [DTag (js "div") ∅ []] [] = Ok [x] log
        /\ isValidElement x = true /\ logs_exhaustion log = true).
Proof.
  induction fuel as [|fuel [IH0 IH1]].
  - split; eexists _, _; (split; [vm_compute; reflexivity|]);
      split; vm_compute; reflexivity.
  - split; [exact IH1|].
    destruct IH0 as (x & log & Hw & Hx & Hlog).
    exists (Fragment [Cloned (Element 0 None) None [x]]), log.
    split; [|split; [cbn [isValidElement]; reflexivity|exact Hlog]].
    exact (nesting_step (S fuel) x log Hw Hx).
Qed.

(** C2, code defect: the guard covers the nodes that the parser's default
    walk reaches inside the fragment a renderer answered, as in the
    specification's example; but the children of an element that another
    renderer replaced are walked with the first [options], without the
    guard.  With a renderer for [div] that answers
    [<span><div></div></span>] and a renderer for [span] that answers an
    element, the [div] inside the fragment is given to the [div] renderer
    again, and so on for as long as the call stack allows: however deep
    the stack, rendering [<div></div>] exhausts it, and returns only
    because the [RangeError] is caught and logged as the failure of a
    renderer.  And a plain string answered by a renderer is not spliced
    in: the parser drops what is no element, and the node is rendered by
    default, with its children. *)
Theorem self_nesting_guard_bypassed :
  (forall fuel,
      exists rs log,
        domToReact asciiLower Fragment.parse nesting_renderers (2 + fuel) Options
          (Fragment.parse (js "<div></div>")) [] = Ok rs log
        /\ logs_exhaustion log = true)
  /\ domToReact asciiLower Fragment.parse self_renderers 5 Options
       (Fragment.parse (js "<div>x</div>")) []
     = Ok [Fragment [HostElement (js "div") ∅ [TextNode (js "inner")]]] []
  /\ domToReact asciiLower Fragment.parse failing_renderers 3 Options
       (Fragment.parse (js "<i>x</i>")) []
     = Ok [HostElement (js "i") ∅ [TextNode (js "x")]] [].
Proof.
  split; [|split; vm_compute; reflexivity].
  intros fuel.
  change (Fragment.parse (js "<div></div>")) with [DTag (js "div") ∅ []].
  destruct (proj1 (nesting_exhausts fuel)) as (x & log & Hw & _ & Hlog).
  exists [x], log. split; assumption.
Qed.

(** ** Concrete runs of the dispatcher *)


Lemma context_inner_and_original_are_empty_witness :
  domToReact asciiLower Fragment.parse inner_sensitive 4 Options
    (Fragment.parse (js "<img/>x")) []
  = domToReact asciiLower Fragment.parse inner_blind 4 Options
      (Fragment.parse (js "<img/>x")) [].
Proof.
  apply (proj2 (context_inner_and_original_are_empty asciiLower Fragment.parse)).
  intros t. unfold inner_sensitive, inner_blind.
  destruct (decide (js "img" = t)) as [<- | Hne].
  - rewrite !lookup_singleton_eq. intros ctx -> _. reflexivity.
  - rewrite !lookup_singleton_ne by exact Hne. exact I.
Defined.

(** C5 as stated fails: a [target] that the caller set to the empty string
    is present and is overwritten. *)
Lemma empty_target_is_overwritten :
  let attribs : gmap jsstring jsstring :=
    <[js "href" := js "/x"]> {[ js "target" := [] ]} in
  Fragment.parse (js "<a href='/x' target=''>t</a>")
  = [DTag (js "a") attribs [DText (js "t")]]
  /\ attribs !! js "target" = Some []
  /\ img_renderers !! js "a" = None
  /\ exists attribs' : gmap jsstring jsstring,
      domToReact asciiLower Fragment.parse img_renderers 3 Options
        [DTag (js "a") attribs [DText (js "t")]] []
      = Ok [HostElement (js "a") attribs' [TextNode (js "t")]] []
      /\ attribs' !! js "target" = Some (js "_blank")
      /\ attribs' !! js "target" <> attribs !! js "target".
Proof.
  cbv zeta. split; [vm_compute; reflexivity|].
  split; [vm_compute; reflexivity|].
  split; [vm_compute; reflexivity|].
  eexists. split; [vm_compute; reflexivity|].
  split; [vm_compute; reflexivity|].
  vm_compute. discriminate.
Qed.

Lemma anchor_default_pass_witness :
  domToReact asciiLower Fragment.parse img_renderers 3 Options
    (Fragment.parse (js "<a href='example.com' rel='me'>t</a>")) []
  = Ok [HostElement (js "a")
          (<[js "href" := js "https://example.com"]>
             (<[js "target" := js "_blank"]> {[ js "rel" := js "me" ]}))
          [TextNode (js "t")]] []
  /\ domToReact asciiLower Fragment.parse anchor_renderers 3 Options
       (Fragment.parse (js "<a href='example.com' rel='me'>t</a>")) []
     = Ok [HostElement (js "a")
             (<[js "href" := js "example.com"]> {[ js "rel" := js "me" ]})
             [TextNode (js "t")]] [LogWarn (js "a")].
Proof.
  change (Fragment.parse (js "<a href='example.com' rel='me'>t</a>"))
    with [DTag (js "a")
            (<[js "href" := js "example.com"]> {[ js "rel" := js "me" ]})
            [DText (js "t")]].
  split.
  - pose proof (anchor_default_pass asciiLower Fragment.parse img_renderers
                  (js "a")
                  (<[js "href" := js "example.com"]> {[ js "rel" := js "me" ]})
                  [DText (js "t")] [] Options 2%nat []) as H.
    destruct H as [H _]; [discriminate|reflexivity|reflexivity|].
    destruct H as [H _]; [vm_compute; reflexivity|].
    rewrite H. vm_compute. reflexivity.
  - pose proof (anchor_default_pass asciiLower Fragment.parse anchor_renderers
                  (js "a")
                  (<[js "href" := js "example.com"]> {[ js "rel" := js "me" ]})
                  [DText (js "t")] [] Options 2%nat []) as H.
    destruct H as [_ H]; [discriminate|reflexivity|reflexivity|].
    destruct (H (fun _ => RInvalid)) as [_ H']; [vm_compute; reflexivity|].
    rewrite H' by reflexivity. vm_compute. reflexivity.
Defined.

(** ** The two paths of [processedContent] *)

(** C6, code defect: for an anchor that also has a [data-target]
    attribute, the path without renderers finds [target=] in the attribute
    text and adds no [target], while the tree walk with no renderer adds
    [target="_blank"]: the two outputs differ by more than the order of the
    attributes. *)
Theorem shortcut_differs_from_walk :
  let html := js "<a href='example.com' data-target='x'>t</a>" in
  processedContent asciiLower Fragment.parse Some 3 html TypeHtml ∅
  = Some (AsHtml (processedHtml html))
  /\ processedHtml html
     = js "<a href='https://example.com' data-target='x'" ++ rel_noopener
       ++ js ">t</a>"
  /\ (exists attribs : gmap jsstring jsstring,
        Fragment.parse (processedHtml html)
        = [DTag (js "a") attribs [DText (js "t")]]
        /\ attribs !! js "target" = None)
  /\ (exists attribs' : gmap jsstring jsstring,
        domToReact asciiLower Fragment.parse ∅ 3 Options (Fragment.parse html) []
        = Ok [HostElement (js "a") attribs' [TextNode (js "t")]] []
        /\ attribs' !! js "target" = Some (js "_blank")).
Proof.
  cbv zeta. split; [vm_compute; reflexivity|].
  split; [vm_compute; reflexivity|].
  split; eexists; (split; [vm_compute; reflexivity|]); vm_compute; reflexivity.
Qed.

(** * Further properties *)

(** ** The verdict of the classifier *)

Lemma paired_rule_off (trimmed : jsstring) :
  hasHtmlTags trimmed && (0 <? closingTagCount trimmed)%nat
  && (2 <=? htmlTagCount trimmed)%nat = false.
Proof.
  replace (2 <=? htmlTagCount trimmed)%nat with false.
  - apply andb_false_r.
  - symmetry. apply Nat.leb_gt. pose proof (htmlTagCount_le_1 trimmed). lia.
Qed.

(** X1: the verdict is markdown exactly when the trimmed text is not empty
    and one of the markdown signatures matches it; tags in the text play no
    part, and neither does whitespace around it. *)
Theorem detectContentType_markdown_iff (content : jsstring) :
  (detectContentType content = Markdown
   <-> trim content <> [] /\ (0 < markdownScore (trim content))%nat)
  /\ detectContentType (trim content) = detectContentType content.
Proof.
  assert (Hiff : forall c : jsstring,
    detectContentType c = Markdown
    <-> trim c <> [] /\ (0 < markdownScore (trim c))%nat).
  { intros c. unfold detectContentType.
    destruct (bool_decide (c = []) || (length (trim c) =? 0)%nat) eqn:E.
    - split; [discriminate|]. intros [Hne _]. exfalso.
      apply orb_true_iff in E as [E|E].
      + apply bool_decide_eq_true in E. subst c. apply Hne. reflexivity.
      + apply Nat.eqb_eq in E. apply Hne. apply nil_length_inv. exact E.
    - apply orb_false_iff in E as [_ E]. apply Nat.eqb_neq in E.
      assert (Hne : trim c <> []) by (intros H; rewrite H in E; apply E; reflexivity).
      cbv zeta. rewrite paired_rule_off.
      destruct (markdownScore (trim c)) as [|n] eqn:Es.
      + cbn [Nat.eqb Nat.ltb Nat.leb].
        assert (Hh : forall b1 b2 : bool,
          (if b1 then Html else if b2 then Html else Html) = Html)
          by (intros [|] [|]; reflexivity).
        rewrite Hh. split; [discriminate|intros [_ H]; lia].
      + rewrite andb_false_r. cbn [Nat.eqb Nat.ltb Nat.leb]. split; [intros _; split; [exact Hne|lia]|reflexivity]. }
  split; [apply Hiff|].
  destruct (detectContentType content) eqn:E.
  - destruct (detectContentType (trim content)) eqn:E'; [reflexivity|].
    apply Hiff in E'. rewrite trim_idem in E'. apply Hiff in E'. congruence.
  - apply Hiff. rewrite trim_idem. apply Hiff. exact E.
Qed.

(** ** Normalizing a URL twice *)

Lemma normalizeUrl_https (url : jsstring) :
  test fl_i re_domain (trim url) = true ->
  test fl_i re_scheme (trim url) = false ->
  normalizeUrl url = js "https://" ++ trim url.
Proof.
  intros Hd Hs.
  destruct (normalizeUrl_cases url) as [E|(E & _)]; [|exact E].
  exfalso.
  assert (Hh : test fl_i re_http (trim url) = false).
  { destruct (test fl_i re_http (trim url)) eqn:E'; [|reflexivity].
    apply re_http_is_scheme in E'. congruence. }
  pose proof (re_domain_head _ Hd) as (c & r & Et & Hc).
  apply alnum_not_slash_hash in Hc as [Hc1 Hc2].
  unfold normalizeUrl in E. destruct url as [|x u].
  - vm_compute in Et. discriminate.
  - rewrite Hh, Hs, Hd, Et in E.
    assert (E1 : startsWith (js "/") (c :: r) = false).
    { apply not_true_is_false. intros H.
      apply (startsWith_single (ch "/")) in H as [r' H].
      injection H as H _. exact (Hc1 H). }
    assert (E2 : startsWith (js "#") (c :: r) = false).
    { apply not_true_is_false. intros H.
      apply (startsWith_single (ch "#")) in H as [r' H].
      injection H as H _. exact (Hc2 H). }
    rewrite E1, E2 in E. unfold str_eqb in E.
    rewrite bool_decide_eq_false_2 in E by discriminate.
    simpl in E. apply (f_equal length) in E. simpl in E. lia.
Qed.

Lemma trim_https (t : jsstring) :
  t <> [] -> trim t = t -> trim (js "https://" ++ t) = js "https://" ++ t.
Proof.
  intros Hne Ht. apply trim_id.
  - intros c r E. injection E as <- _. reflexivity.
  - intros r c E.
    destruct (exists_last Hne) as (t0 & c' & Et).
    assert (c = c').
    { rewrite Et, app_assoc in E. apply app_inj_tail in E as [_ E]. congruence. }
    subst c'. unfold trim in Ht. rewrite Et in Ht.
    exact (trimEnd_last _ _ _ Ht).
Qed.

Lemma re_http_https (t : jsstring) :
  test fl_i re_http (js "https://" ++ t) = true.
Proof.
  unfold re_http. cbn [cat foldr]. rewrite test_bol by reflexivity.
  cbn [m]. unfold lit at 1, cat at 1. rewrite m_lits.
  change (js "https://" ++ t)
    with (ch "h" :: ch "t" :: ch "t" :: ch "p" :: ch "s" :: js "://" ++ t).
  change (js "http") with [ch "h"; ch "t"; ch "t"; ch "p"].
  cbn [consume]. unfold step. cbn [rest caps].
  change (canon fl_i (ch "h") =? canon fl_i (ch "h")) with true.
  change (canon fl_i (ch "t") =? canon fl_i (ch "t")) with true.
  change (canon fl_i (ch "p") =? canon fl_i (ch "p")) with true.
  cbv beta iota. cbn [m]. rewrite m_opt_lit. reflexivity.
Qed.

Lemma normalizeUrl_twice (url : jsstring) :
  normalizeUrl (normalizeUrl url) = normalizeUrl url.
Proof.
  destruct (normalizeUrl_cases url) as [E|(E & _ & _ & Hd)].
  - rewrite E.
    destruct (normalizeUrl_cases (trim url)) as [E'|(E' & _ & Hs & Hd)];
      rewrite trim_idem in *; [exact E'|].
    rewrite (normalizeUrl_https url Hd Hs) in E.
    apply (f_equal length) in E. rewrite length_app in E. simpl in E. lia.
  - rewrite E.
    assert (Hne : trim url <> []).
    { apply re_domain_head in Hd as (c & r & -> & _). discriminate. }
    unfold normalizeUrl.
    rewrite (trim_https _ Hne (trim_idem url)), re_http_https. reflexivity.
Qed.

(** X2: a normalized URL has no whitespace around it, and normalizing it
    again returns it as it is. *)
Theorem normalizeUrl_idempotent (url : jsstring) :
  trim (normalizeUrl url) = normalizeUrl url
  /\ normalizeUrl (normalizeUrl url) = normalizeUrl url.
Proof.
  split; [|apply normalizeUrl_twice].
  destruct (normalizeUrl_cases url) as [E|(E & _ & _ & Hd)]; rewrite E.
  - apply trim_idem.
  - apply trim_https; [|apply trim_idem].
    apply re_domain_head in Hd as (c & r & -> & _). discriminate.
Qed.

(** ** The default link pass applied twice *)

(** X3: the link pass is idempotent, and after it [target] and [rel] are
    always present and not empty. *)
Theorem linkDefaults_idempotent (attribs : gmap jsstring jsstring) :
  linkDefaults (linkDefaults attribs) = linkDefaults attribs
  /\ truthy (linkDefaults attribs !! js "target") = true
  /\ truthy (linkDefaults attribs !! js "rel") = true.
Proof.
  destruct (linkDefaults_lookup attribs) as (Hh & Ht & Hr & Ho).
  destruct (linkDefaults_lookup (linkDefaults attribs)) as (Hh' & Ht' & Hr' & Ho').
  split; [|split].
  - apply map_eq. intros k.
    destruct (decide (k = js "href")) as [->|Nh].
    { rewrite Hh', Hh. destruct (attribs !! js "href") as [h|]; [|reflexivity].
      simpl. rewrite normalizeUrl_twice. reflexivity. }
    destruct (decide (k = js "target")) as [->|Nt].
    { rewrite Ht', Ht. destruct (attribs !! js "target") as [[|c v]|]; reflexivity. }
    destruct (decide (k = js "rel")) as [->|Nr].
    { rewrite Hr', Hr. destruct (attribs !! js "rel") as [[|c v]|]; reflexivity. }
    apply Ho'; assumption.
  - rewrite Ht. destruct (attribs !! js "target") as [[|c v]|]; reflexivity.
  - rewrite Hr. destruct (attribs !! js "rel") as [[|c v]|]; reflexivity.
Qed.

(** ** The walk over elements that have no renderer *)

Section DefaultRendering.
Variable toLowerCase : jsstring -> jsstring.
Variable htmlToDOM : jsstring -> list dom.


End DefaultRendering.

(** ** The mention list *)

Section MentionFacts.
Context {A : Type}.

Lemma rem_up (i n : Z) :
  (0 <= i < n)%Z -> Z.rem (i + n - 1) n = (if (i =? 0)%Z then n - 1 else i - 1)%Z.
Proof.
  intros H. rewrite Z.rem_mod_nonneg by lia.
  destruct (Z.eqb_spec i 0) as [->|Hi].
  - apply Z.mod_small. lia.
  - replace (i + n - 1)%Z with (i - 1 + 1 * n)%Z by lia.
    rewrite Z.mod_add by lia. apply Z.mod_small. lia.
Qed.

Lemma rem_down (i n : Z) :
  (0 <= i < n)%Z -> Z.rem (i + 1) n = (if (i + 1 =? n)%Z then 0 else i + 1)%Z.
Proof.
  intros H. rewrite Z.rem_mod_nonneg by lia.
  destruct (Z.eqb_spec (i + 1) n) as [E|Hi].
  - rewrite E. apply Z.mod_same. lia.
  - apply Z.mod_small. lia.
Qed.

Lemma upHandler_eq (items : list A) (i : Z) (cmds : list A) :
  (0 <= i < Z.of_nat (length items))%Z ->
  upHandler items (MentionState (Int i) cmds)
  = MentionState
      (Int (if (i =? 0)%Z then Z.of_nat (length items) - 1 else i - 1)%Z) cmds.
Proof.
  intros Hi. unfold upHandler, items_length.
  cbn [selectedIndex commanded num_add num_sub num_rem].
  rewrite (proj2 (Z.eqb_neq _ 0)) by lia. rewrite rem_up by lia. reflexivity.
Qed.

Lemma downHandler_eq (items : list A) (i : Z) (cmds : list A) :
  (0 <= i < Z.of_nat (length items))%Z ->
  downHandler items (MentionState (Int i) cmds)
  = MentionState
      (Int (if (i + 1 =? Z.of_nat (length items))%Z then 0 else i + 1)%Z) cmds.
Proof.
  intros Hi. unfold downHandler, items_length.
  cbn [selectedIndex commanded num_add num_sub num_rem].
  rewrite (proj2 (Z.eqb_neq _ 0)) by lia. rewrite rem_down by lia. reflexivity.
Qed.

Lemma upHandler_in_list (items : list A) (st : mentionState A) :
  in_list items st -> in_list items (upHandler items st).
Proof.
  intros (i & E & Hi). destruct st as [sel cmds]. cbn [selectedIndex] in E.
  subst sel. rewrite upHandler_eq by assumption.
  eexists. split; [reflexivity|]. destruct (Z.eqb_spec i 0); lia.
Qed.

Lemma downHandler_in_list (items : list A) (st : mentionState A) :
  in_list items st -> in_list items (downHandler items st).
Proof.
  intros (i & E & Hi). destruct st as [sel cmds]. cbn [selectedIndex] in E.
  subst sel. rewrite downHandler_eq by assumption.
  eexists. split; [reflexivity|].
  destruct (Z.eqb_spec (i + 1) (Z.of_nat (length items))); lia.
Qed.

Lemma item_at_elem (items : list A) (index : number) (item : A) :
  item_at items index = Some item -> item ∈ items.
Proof.
  unfold item_at. destruct index as [i|]; [|discriminate].
  destruct (0 <=? i)%Z; [|discriminate]. apply list_elem_of_lookup_2.
Qed.

Lemma press_keeps (items : list A) (key : jsstring) (st : mentionState A) :
  in_list items st -> Forall (fun x => x ∈ items) (commanded st) ->
  in_list items (press items st key)
  /\ Forall (fun x => x ∈ items) (commanded (press items st key)).
Proof.
  intros Hi Hc. unfold press, onKeyDown.
  destruct (str_eqb key (js "ArrowUp")); cbn [snd].
  { split; [apply upHandler_in_list; assumption|exact Hc]. }
  destruct (str_eqb key (js "ArrowDown")); cbn [snd].
  { split; [apply downHandler_in_list; assumption|exact Hc]. }
  destruct (str_eqb key (js "Enter")); cbn [snd]; [|split; assumption].
  unfold enterHandler, selectItem.
  destruct (item_at items (selectedIndex st)) as [item|] eqn:E; [|split; assumption].
  split; [exact Hi|]. cbn [commanded]. apply Forall_app. split; [exact Hc|].
  constructor; [|constructor]. exact (item_at_elem _ _ _ E).
Qed.

(** X5: whatever keys are pressed, from the initial selection, the selected
    index stays inside a list that is not empty, and only items of the list
    are handed to the command. *)
Theorem mention_selection_in_list (items : list A) (keys : list jsstring) :
  items <> [] ->
  in_list items (foldl (press items) mention_init keys)
  /\ Forall (fun x => x ∈ items)
       (commanded (foldl (press items) mention_init keys)).
Proof.
  intros Hne.
  assert (H0 : in_list items (@mention_init A)
               /\ Forall (fun x => x ∈ items) (commanded (@mention_init A))).
  { split; [|constructor]. exists 0%Z. split; [reflexivity|].
    destruct items; [congruence|simpl; lia]. }
  revert H0. generalize (@mention_init A) as st.
  induction keys as [|key keys IH]; intros st [Hi Hc]; [split; assumption|].
  cbn [foldl]. apply IH. apply press_keeps; assumption.
Qed.

(** X6: on a selection inside the list the two arrow keys undo each other:
    the selection wraps around at both ends of the list. *)
Theorem mention_arrows_inverse (items : list A) (st : mentionState A) :
  in_list items st ->
  upHandler items (downHandler items st) = st
  /\ downHandler items (upHandler items st) = st.
Proof.
  intros (i & E & Hi). destruct st as [sel cmds]. cbn [selectedIndex] in E.
  subst sel. rewrite (downHandler_eq items i), (upHandler_eq items i) by assumption.
  split.
  - destruct (Z.eqb_spec (i + 1) (Z.of_nat (length items))) as [E1|N1];
      rewrite upHandler_eq by lia.
    + cbn [Z.eqb]. do 2 f_equal. lia.
    + rewrite (proj2 (Z.eqb_neq _ 0)) by lia. do 2 f_equal. lia.
  - destruct (Z.eqb_spec i 0) as [E1|N1]; rewrite downHandler_eq by lia.
    + rewrite (proj2 (Z.eqb_eq _ _)) by lia. do 2 f_equal. lia.
    + rewrite (proj2 (Z.eqb_neq _ _)) by lia. do 2 f_equal. lia.
Qed.

(** X7: with an empty list no key ever hands anything to the command: the
    arrows turn the index into [NaN] and [Enter] finds no item. *)
Theorem mention_empty_list (keys : list jsstring) :
  commanded (foldl (press (@nil A)) mention_init keys) = [].
Proof.
  assert (H : forall st : mentionState A, commanded st = [] ->
            commanded (foldl (press []) st keys) = []).
  { induction keys as [|key keys IH]; intros st Hc; [exact Hc|].
    cbn [foldl]. apply IH. unfold press, onKeyDown.
    destruct (str_eqb key (js "ArrowUp")); [exact Hc|].
    destruct (str_eqb key (js "ArrowDown")); [exact Hc|].
    destruct (str_eqb key (js "Enter")); [|exact Hc].
    cbn [snd]. unfold enterHandler, selectItem, item_at.
    destruct (selectedIndex st) as [i|]; [|exact Hc].
    destruct (0 <=? i)%Z; exact Hc. }
  apply H. reflexivity.
Qed.
End MentionFacts.

(** ** An image written and read back *)

(** X8: an image whose stored URL, once trimmed, is not empty and does not
    look contaminated survives the round trip: the element written by
    [renderHTML] is accepted by [getAttrs], which reads the trimmed URL as
    both [src] and [originalSrc] and the trimmed [alt] and [title]; writing
    the node read back gives the same [src] again. *)
Theorem image_round_trip (H H' : gmap jsstring jsvalue) (attrs : imageAttrs)
    (u : jsstring) :
  or_else (originalSrc attrs) (src attrs) = Some u ->
  trim u <> [] ->
  looks_contaminated (trim u) = false ->
  exists attrs',
    getAttrs None (renderHTML H attrs) = Some attrs'
    /\ src attrs' = Some (trim u) /\ originalSrc attrs' = Some (trim u)
    /\ alt attrs' = match alt attrs with
                    | Some (c :: a) => Some (trim (c :: a))
                    | _ => None
                    end
    /\ title attrs' = match title attrs with
                      | Some (c :: a) => Some (trim (c :: a))
                      | _ => None
                      end
    /\ renderHTML H' attrs' !! js "src" = Some (trim u).
Proof.
  intros Hu Hne Hclean.
  assert (Hc : cleanOriginalSrc attrs = Some (trim u)).
  { unfold cleanOriginalSrc. rewrite Hu. destruct u as [|c o].
    - exfalso. apply Hne. reflexivity.
    - cbv zeta. rewrite Hclean. reflexivity. }
  assert (Hs : renderHTML H attrs !! js "src" = Some (trim u)).
  { rewrite renderHTML_src, Hc. destruct (trim u) as [|c t] eqn:E; [congruence|].
    rewrite <- E, trim_idem. reflexivity. }
  unfold getAttrs. rewrite Hs.
  destruct (trim u) as [|c t] eqn:E; [congruence|].
  eexists. split; [reflexivity|]. cbn [src originalSrc alt title].
  split; [reflexivity|]. split; [reflexivity|].
  split; [apply renderHTML_alt|]. split; [apply renderHTML_title|].
  rewrite renderHTML_src. unfold cleanOriginalSrc. cbn [originalSrc src or_else].
  cbv zeta. rewrite <- E in Hclean |- *. rewrite trim_idem, Hclean, E.
  rewrite <- E, trim_idem. reflexivity.
Qed.

(** ** Case folding *)

Lemma canon_other (fl : flags) (x c : N) :
  c < 65 \/ 90 < c < 97 \/ 122 < c ->
  (canon fl x =? canon fl c) = (x =? c).
Proof.
  intros Hc. unfold canon. destruct (ignoreCase fl); [|reflexivity].
  unfold upper.
  replace ((97 <=? c) && (c <=? 122)) with false
    by (symmetry; apply andb_false_iff; rewrite !N.leb_gt; lia).
  destruct ((97 <=? x) && (x <=? 122)) eqn:E.
  - apply andb_true_iff in E as [E1 E2].
    apply N.leb_le in E1. apply N.leb_le in E2.
    destruct (N.eqb_spec (x - 32) c), (N.eqb_spec x c); try reflexivity; lia.
  - reflexivity.
Qed.

Lemma canon_letter (x c : N) :
  97 <= c <= 122 ->
  (canon fl_i x =? canon fl_i c) = (x =? c) || (x =? c - 32).
Proof.
  intros Hc. unfold canon, fl_i, ignoreCase, upper.
  replace ((97 <=? c) && (c <=? 122)) with true
    by (symmetry; apply andb_true_iff; rewrite !N.leb_le; lia).
  destruct ((97 <=? x) && (x <=? 122)) eqn:E.
  - apply andb_true_iff in E as [E1 E2].
    apply N.leb_le in E1. apply N.leb_le in E2.
    destruct (N.eqb_spec (x - 32) (c - 32)), (N.eqb_spec x c),
      (N.eqb_spec x (c - 32)); try reflexivity; lia.
  - apply andb_false_iff in E. rewrite !N.leb_gt in E.
    destruct (N.eqb_spec x (c - 32)), (N.eqb_spec x c); try reflexivity; lia.
Qed.

(** ** The path without renderers on text that has no anchor *)

Lemma re_anchor_head (p : option N) (s : jsstring) :
  match s with
  | c1 :: c2 :: _ => (c1 =? ch "<") && ((c2 =? ch "a") || (c2 =? ch "A"))
  | _ => false
  end = false ->
  m fl_i re_anchor (MState p s ∅) Some = None.
Proof.
  intros H. unfold re_anchor. cbn [cat foldr m]. unfold lit at 1, cat at 1.
  rewrite m_lits. change (js "<a") with [ch "<"; ch "a"].
  cbn [consume]. unfold step at 1. cbn [rest caps].
  destruct s as [|c1 s]; [reflexivity|].
  rewrite canon_other by (vm_compute; left; reflexivity).
  destruct (c1 =? ch "<"); [|reflexivity].
  unfold step at 1. cbn [rest caps].
  destruct s as [|c2 s]; [reflexivity|].
  rewrite canon_letter by (vm_compute; split; discriminate).
  cbn [andb] in H. change (ch "a" - 32) with (ch "A"). rewrite H. reflexivity.
Qed.

Lemma search_anchor_free (s : jsstring) :
  anchor_free s = true -> forall p, search fl_i re_anchor p s = None.
Proof.
  induction s as [|c1 s IH]; intros H p; rewrite search_eq.
  - rewrite re_anchor_head by reflexivity. reflexivity.
  - cbn [anchor_free] in H. apply andb_true_iff in H as [H1 H2].
    apply negb_true_iff in H1.
    rewrite re_anchor_head.
    + rewrite (IH H2). reflexivity.
    + destruct s as [|c2 s]; [reflexivity|exact H1].
Qed.

(** X9: on the path without renderers, content holding no [<a] (in either
    case) comes out as it went in. *)
Theorem processedHtml_without_anchor (htmlContent : jsstring) :
  anchor_free htmlContent = true -> processedHtml htmlContent = htmlContent.
Proof.
  intros H. unfold processedHtml, replace_all. cbv zeta.
  change (2 + length htmlContent)%nat with (S (S (length htmlContent))).
  rewrite exec_all_eq, (search_anchor_free _ H). reflexivity.
Qed.

(** ** Where a match can end, and the captures it leaves alone *)

Lemma reaches_refl (ids : list nat) (st : mstate) : reaches ids st st.
Proof. split; [exists []; reflexivity|reflexivity]. Qed.

Lemma reaches_trans (ids1 ids2 ids : list nat) (st1 st2 st3 : mstate) :
  (forall n : nat, n ∈ ids1 -> n ∈ ids) ->
  (forall n : nat, n ∈ ids2 -> n ∈ ids) ->
  reaches ids1 st1 st2 -> reaches ids2 st2 st3 -> reaches ids st1 st3.
Proof.
  intros H1 H2 [[w1 E1] C1] [[w2 E2] C2]. split.
  - exists (w1 ++ w2). rewrite E1, E2, app_assoc. reflexivity.
  - intros n Hn. rewrite C2, C1; [reflexivity| |]; intros Hin; apply Hn; auto.
Qed.

Lemma clear_caps_lookup (ids : list nat) (st : mstate) (n : nat) :
  n ∉ ids -> caps (clear_caps ids st) !! n = caps st !! n.
Proof.
  unfold clear_caps. cbn [caps]. induction ids as [|i ids IH]; intros Hn;
    [reflexivity|].
  cbn [foldr]. rewrite lookup_delete_ne.
  - apply IH. intros Hin. apply Hn. right. exact Hin.
  - intros ->. apply Hn. left.
Qed.

Section Tracking.
Context {B : Type}.
Variable fl : flags.

Lemma step_tracks (q : N -> bool) : tracks (B:=B) [] (step q).
Proof.
  intros st k b. unfold step. destruct (rest st) as [|x s] eqn:E; [discriminate|].
  destruct (q x); [|discriminate]. intros H.
  exists (MState (Some x) s (caps st)). split; [|exact H].
  split; [exists [x]; exact E|reflexivity].
Qed.

Lemma consume_tracks (w : jsstring) : tracks (B:=B) [] (consume fl w).
Proof.
  induction w as [|c w IH]; intros st k b H; cbn [consume] in H.
  - exists st. split; [apply reaches_refl|exact H].
  - apply step_tracks in H as (st1 & R1 & H).
    apply IH in H as (st2 & R2 & H). exists st2. split; [|exact H].
    exact (reaches_trans [] [] [] _ _ _ (fun _ h => h) (fun _ h => h) R1 R2).
Qed.

Lemma rep_loop_tracks mr ids greedy (fuel : nat) :
  tracks (B:=B) ids mr ->
  forall mn mx,
    tracks ids (fun st k => rep_loop mr ids greedy k fuel mn mx st).
Proof.
  intros Hmr. induction fuel as [|fuel IH]; intros mn mx st k b H;
    [discriminate|].
  cbn [rep_loop] in H.
  assert (Hk : forall b', k st = Some b' ->
            exists st', reaches ids st st' /\ k st' = Some b')
    by (intros b' Hb'; exists st; split; [apply reaches_refl|exact Hb']).
  assert (Hiter : forall b',
    mr (clear_caps ids st)
      (fun st' =>
         if (mn =? 0)%nat && (length (rest st') =? length (rest st))%nat
         then None
         else rep_loop mr ids greedy k fuel (pred mn) (pred <$> mx) st')
    = Some b' -> exists st', reaches ids st st' /\ k st' = Some b').
  { intros b' Hb'. apply Hmr in Hb' as (st1 & [[w1 E1] C1] & Hb').
    destruct (_ && _); [discriminate|].
    apply IH in Hb' as (st2 & [[w2 E2] C2] & Hb').
    exists st2. split; [|exact Hb']. split.
    - exists (w1 ++ w2). cbn [clear_caps rest] in E1.
      rewrite E1, E2, app_assoc. reflexivity.
    - intros n Hn. rewrite C2, C1 by assumption.
      apply clear_caps_lookup, Hn. }
  destruct mx as [[|mx]|]; [exact (Hk _ H)| |];
    (destruct (0 <? mn)%nat; [exact (Hiter _ H)|]);
    destruct greedy;
    repeat match type of H with
           | match ?x with _ => _ end = _ => destruct x eqn:?
           end;
    try discriminate; try (injection H as <-); auto.
Qed.

Lemma m_tracks (r : regex) : tracks (B:=B) (grp_ids r) (m fl r).
Proof.
  induction r as [| c | | neg items | | | r1 IH1 r2 IH2 | mn mx g r IH | n r IH | n];
    intros st k b H; cbn [m] in H; cbn [grp_ids].
  - exists st. split; [apply reaches_refl|exact H].
  - exact (step_tracks _ _ _ _ H).
  - exact (step_tracks _ _ _ _ H).
  - exact (step_tracks _ _ _ _ H).
  - destruct (at_bol fl st); [|discriminate].
    exists st. split; [apply reaches_refl|exact H].
  - destruct (at_eol fl st); [|discriminate].
    exists st. split; [apply reaches_refl|exact H].
  - apply IH1 in H as (st1 & R1 & H). apply IH2 in H as (st2 & R2 & H).
    exists st2. split; [|exact H].
    refine (reaches_trans (grp_ids r1) (grp_ids r2) _ st st1 st2 _ _ R1 R2);
      intros n' Hn'; apply elem_of_app; auto.
  - exact (rep_loop_tracks (m fl r) (grp_ids r) g _ IH mn mx st k b H).
  - apply IH in H as (st1 & [[w1 E1] C1] & H).
    exists (set_cap n st st1). split; [|exact H]. split.
    + exists w1. exact E1.
    + intros n' Hn'. unfold set_cap. cbn [caps].
      rewrite lookup_insert_ne by (intros ->; apply Hn'; left).
      apply C1. intros Hin. apply Hn'. right. exact Hin.
  - exact (consume_tracks _ _ _ _ H).
Qed.

(** A sequence of patterns followed by [X]: the match of [X] starts on a
    state reached from the start. *)
Lemma m_foldr_tracks (l : list regex) (X : regex) :
  forall st (k : mstate -> option B) b,
    m fl (foldr Seq X l) st k = Some b ->
    exists st', reaches (concat (map grp_ids l)) st st'
                /\ m fl X st' k = Some b.
Proof.
  induction l as [|r l IH]; intros st k b H; cbn [foldr] in H.
  - exists st. split; [apply reaches_refl|exact H].
  - cbn [m] in H. apply m_tracks in H as (st1 & R1 & H).
    apply IH in H as (st2 & R2 & H). exists st2. split; [|exact H].
    cbn [map concat].
    refine (reaches_trans (grp_ids r) (concat (map grp_ids l)) _ st st1 st2
              _ _ R1 R2); intros n' Hn'; apply elem_of_app; auto.
Qed.
End Tracking.

(** ** Greedy class quantifiers: the longest run *)

Lemma star_cls_longest {B} (q : N -> bool) (K : mstate -> option B)
    (u r : jsstring) (cp : gmap nat jsstring) (g : B) :
  forallb q u = true ->
  match r with x :: _ => q x = false | [] => True end ->
  (forall p', K (MState p' r cp) = Some g) ->
  forall p, star_cls q K p (u ++ r) cp = Some g.
Proof.
  intros Hu Hr HK. induction u as [|c u IH]; intros p.
  - cbn [app]. destruct r as [|x r]; cbn [star_cls]; [apply HK|].
    rewrite Hr. apply HK.
  - cbn [forallb] in Hu. apply andb_true_iff in Hu as [Hc Hu].
    cbn [app star_cls]. rewrite Hc, (IH Hu). reflexivity.
Qed.

Lemma star_cls_all_none {B} (q : N -> bool) (K : mstate -> option B)
    (cp : gmap nat jsstring) (s : jsstring) :
  (forall p' s', s' `suffix_of` s -> K (MState p' s' cp) = None) ->
  forall p, star_cls q K p s cp = None.
Proof.
  induction s as [|c s IH]; intros HK p; cbn [star_cls].
  - apply HK. reflexivity.
  - rewrite IH.
    + destruct (q c); apply HK; reflexivity.
    + intros p' s' Hs. apply HK. apply suffix_cons_r. exact Hs.
Qed.

Lemma cls_not_single (fl : flags) (c x : N) :
  c < 65 \/ 90 < c < 97 \/ 122 < c ->
  cls_matches fl true [CChar c] x = negb (x =? c).
Proof.
  intros Hc. unfold cls_matches.
  assert (E : existsb (item_matches fl x) [CChar c] = (x =? c)).
  { cbn [existsb]. rewrite orb_false_r. unfold item_matches. cbn [item_has].
    destruct (N.eqb_spec x c) as [->|Hx]; [reflexivity|]. cbn [orb].
    destruct (ignoreCase fl); [|reflexivity]. cbn [andb].
    apply orb_false_iff. unfold lower, upper. split.
    - destruct ((65 <=? x) && (x <=? 90)) eqn:E; [|apply N.eqb_neq; exact Hx].
      apply andb_true_iff in E as [E1 E2].
      apply N.leb_le in E1. apply N.leb_le in E2. apply N.eqb_neq. lia.
    - destruct ((97 <=? x) && (x <=? 122)) eqn:E; [|apply N.eqb_neq; exact Hx].
      apply andb_true_iff in E as [E1 E2].
      apply N.leb_le in E1. apply N.leb_le in E2. apply N.eqb_neq. lia. }
  rewrite E. reflexivity.
Qed.

(** A string is free of [c], or has a first [c]. *)
Lemma first_occurrence (c : N) (s : jsstring) :
  c ∉ s \/ exists u r, s = u ++ c :: r /\ c ∉ u.
Proof.
  induction s as [|x s IH].
  - left. apply not_elem_of_nil.
  - destruct (N.eq_dec x c) as [->|Hx].
    + right. exists [], s. split; [reflexivity|apply not_elem_of_nil].
    + destruct IH as [IH|(u & r & -> & Hu)].
      * left. apply not_elem_of_cons. split; [congruence|exact IH].
      * right. exists (x :: u), r. split; [reflexivity|].
        apply not_elem_of_cons. split; [congruence|exact Hu].
Qed.

Lemma forallb_not_single (fl : flags) (c : N) (u : jsstring) :
  c < 65 \/ 90 < c < 97 \/ 122 < c ->
  c ∉ u -> forallb (cls_matches fl true [CChar c]) u = true.
Proof.
  intros Hc. induction u as [|x u IH]; intros Hu; [reflexivity|].
  apply not_elem_of_cons in Hu as [Hx Hu]. cbn [forallb].
  rewrite cls_not_single, IH by assumption.
  rewrite (proj2 (N.eqb_neq x c)) by congruence. reflexivity.
Qed.

(** ** Where the entries of a global match come from *)

Lemma search_some (fl : flags) (r : regex) (s : jsstring) :
  forall p sk st, search fl r p s = Some (sk, st) ->
    exists p' s', m fl r (MState p' s' ∅) Some = Some st.
Proof.
  induction s as [|c s IH]; intros p sk st; rewrite search_eq;
    destruct (m fl r (MState p _ ∅) Some) as [st0|] eqn:E;
    try discriminate; try (intros [= <- <-]; eauto).
  destruct (search fl r (Some c) s) as [[sk' st']|] eqn:E'; [|discriminate].
  simpl. intros [= <- <-]. exact (IH _ _ _ E').
Qed.

Lemma push_skipped_caps (c : N)
    (res : list (jsstring * jsstring * gmap nat jsstring) * jsstring)
    (x : jsstring * jsstring * gmap nat jsstring) :
  x ∈ (push_skipped c res).1 -> exists x', x' ∈ res.1 /\ x.2 = x'.2 /\ x.1.2 = x'.1.2.
Proof.
  destruct res as [[|[[sk mt] cp] ms] tl]; cbn [push_skipped fst].
  - intros H. apply elem_of_nil in H as [].
  - intros H. apply elem_of_cons in H as [->|H].
    + exists (sk, mt, cp). split; [left|split; reflexivity].
    + exists x. split; [right; exact H|split; reflexivity].
Qed.

Lemma exec_all_caps (fl : flags) (r : regex) (fuel : nat) :
  forall p s x, x ∈ (exec_all fuel fl r p s).1 ->
    exists p' s' st, m fl r (MState p' s' ∅) Some = Some st /\ x.2 = caps st.
Proof.
  induction fuel as [|fuel IH]; intros p s x H.
  - apply elem_of_nil in H as [].
  - rewrite exec_all_eq in H.
    destruct (search fl r p s) as [[sk st]|] eqn:E;
      [|apply elem_of_nil in H as []].
    cbv zeta in H. cbn [fst] in H. apply elem_of_cons in H as [->|H].
    + apply search_some in E as (p' & s' & E). eauto.
    + destruct (take _ _) as [|y mt].
      * destruct (rest st) as [|c s'']; [apply elem_of_nil in H as []|].
        apply push_skipped_caps in H as (x' & H & -> & _). exact (IH _ _ _ H).
      * exact (IH _ _ _ H).
Qed.

(** ** extractImageUrls: the [alt] of an [img] tag *)

Lemma m_opt_skip {B} (fl : flags) (r : regex) (st : mstate)
    (k : mstate -> option B) :
  (forall k' : mstate -> option B,
     m fl r (clear_caps (grp_ids r) st) k' = None) ->
  m fl (opt r) st k = k st.
Proof.
  intros H. unfold opt. cbn [m Nat.add rep_loop Nat.ltb Nat.leb].
  rewrite H. reflexivity.
Qed.

(** The end of [htmlImgRegex], from the first run after the [src] value. *)
Lemma html_img_tail (p : option N) (s : jsstring) (cp : gmap nat jsstring)
    (b : mstate) :
  m fl_i (cat [star (Cls true [chr ">"]);
               opt (cat [lit "alt="; Cls false quotes;
                         Grp 2 (star (Cls true quotes)); Cls false quotes]);
               star (Cls true [chr ">"]); Lit (ch ">")])
    (MState p s cp) Some = Some b ->
  caps b = cp.
Proof.
  intros H. destruct (first_occurrence (ch ">") s) as [Hno|(u & r & -> & Hu)].
  - exfalso.
    change (cat ?l) with (foldr Seq (cat [Lit (ch ">")]) (take 3 l)) in H.
    apply m_foldr_tracks in H as (st' & [[w E] _] & H).
    cbn [cat foldr m] in H. unfold step in H.
    destruct (rest st') as [|x s'] eqn:Er; [discriminate|].
    rewrite canon_other in H by (vm_compute; left; reflexivity).
    destruct (N.eqb_spec x (ch ">")) as [->|_]; [|discriminate].
    apply Hno. cbn [rest] in E. rewrite E. apply elem_of_app. right. left.
  - cbn [cat foldr] in H. cbn [m] in H. fold (star (Cls true [chr ">"])) in H.
    rewrite m_star_cls in H.
    rewrite (star_cls_longest _ _ u (ch ">" :: r) cp (MState (Some (ch ">")) r cp)) in H.
    + injection H as <-. reflexivity.
    + apply forallb_not_single; [vm_compute; left; reflexivity|exact Hu].
    + reflexivity.
    + intros p'. rewrite m_opt_skip by (intros k'; reflexivity).
      rewrite m_star_cls. reflexivity.
Qed.

Lemma htmlImgRegex_no_alt (p : option N) (s : jsstring) (st : mstate) :
  m fl_i htmlImgRegex (MState p s ∅) Some = Some st -> caps st !! 2%nat = None.
Proof.
  intros H. unfold htmlImgRegex in H.
  change (cat ?l) with (foldr Seq (cat (drop 6 l)) (take 6 l)) in H.
  apply m_foldr_tracks in H as ([p1 s1 cp1] & [_ C] & H).
  cbn [drop] in H. apply html_img_tail in H. rewrite H.
  cbn [caps] in C. rewrite C; [reflexivity|].
  vm_compute. intros Hin. apply list_elem_of_singleton in Hin. discriminate.
Qed.

(** X10: an entry read from an [img] tag never has an [alt]: the run of code
    units after the [src] value goes up to the closing [>], so the optional
    [alt] part of the pattern is never taken. *)
Theorem html_image_alt_is_empty (text : jsstring) (info : ImageUrlInfo) :
  info ∈ extractImageUrls text -> info_type info = ImgHtml ->
  info_alt info = [].
Proof.
  intros Hin Ht. unfold extractImageUrls in Hin.
  apply elem_of_app in Hin as [Hin|Hin]; unfold htmlImages, markdownImages in Hin;
    apply list_elem_of_In, in_map_iff in Hin as (x & <- & Hx);
    [|discriminate].
  apply list_elem_of_In, exec_all_caps in Hx as (p' & s' & st & Hm & E).
  cbn [info_alt]. unfold group_or_empty.
  rewrite E, (htmlImgRegex_no_alt _ _ _ Hm). reflexivity.
Qed.

(** ** extractImageUrls: a markdown image *)

Lemma consume_prefix {B} (fl : flags) (w s : jsstring)
    (cp : gmap nat jsstring) (K : mstate -> option B) :
  forall p, exists p',
    consume fl w (MState p (w ++ s) cp) K = K (MState p' s cp).
Proof.
  induction w as [|c w IH]; intros p; cbn [consume app]; [eauto|].
  unfold step. cbn [rest caps]. rewrite N.eqb_refl. apply IH.
Qed.

Lemma take_prefix_length {A} (u s : list A) :
  take (length (u ++ s) - length s) (u ++ s) = u.
Proof.
  rewrite length_app. replace (length u + length s - length s)%nat
    with (length u) by lia.
  apply take_app_length.
Qed.

(** The match of [markdownImgRegex] on an image whose alternative text has
    no closing bracket and whose parenthesised part has no closing
    parenthesis. *)
Lemma markdownImgRegex_match (a u s : jsstring) (p : option N) :
  ch "]" ∉ a -> ch ")" ∉ u -> u <> [] ->
  m fl_0 markdownImgRegex
    (MState p (js "![" ++ a ++ js "](" ++ u ++ js ")" ++ s) ∅) Some
  = Some (MState (Some (ch ")")) s
            (<[2%nat := u]> (<[1%nat := a]> ∅))).
Proof.
  intros Ha Hu Hne. unfold markdownImgRegex. cbn [cat foldr].
  cbn [m]. unfold lit at 1, cat at 1. rewrite m_lits.
  destruct (consume_prefix fl_0 (js "![") (a ++ js "](" ++ u ++ js ")" ++ s) ∅
              (fun st' => m fl_0 Eps st' (fun st'0 =>
                 m fl_0 (star (Cls true [chr "]"])) st'0 (fun st'1 =>
                   m fl_0 (lit "](") (set_cap 1 st'0 st'1) (fun st'2 =>
                     m fl_0 (plus (Cls true [chr ")"])) st'2 (fun st'3 =>
                       m fl_0 (opt (Seq (plus (Cls false [CSpace]))
                                     (Seq (Lit dquote)
                                        (Seq (star (Cls true [CChar dquote]))
                                           (Seq (Lit dquote) Eps)))))
                         (set_cap 2 st'2 st'3) (fun st'4 =>
                           step (fun x => canon fl_0 x =? canon fl_0 (ch ")")) st'4
                             (fun st'5 => Some st'5))))))) p) as [p1 E1].
  etransitivity; [exact E1|]. clear E1. cbn [m]. rewrite m_star_cls.
  apply star_cls_longest.
  - apply forallb_not_single; [vm_compute; right; left; split; reflexivity|exact Ha].
  - reflexivity.
  - intros p2. unfold set_cap at 1. cbn [rest caps prev].
    rewrite take_prefix_length.
    unfold lit at 1, cat at 1. rewrite m_lits.
    change (js "](" ++ u ++ js ")" ++ s) with (js "](" ++ (u ++ js ")" ++ s)).
    destruct (consume_prefix fl_0 (js "](") (u ++ js ")" ++ s) (<[1%nat := a]> ∅)
                (fun st' => m fl_0 Eps st' (fun st'2 =>
                   m fl_0 (plus (Cls true [chr ")"])) st'2 (fun st'3 =>
                     m fl_0 (opt (Seq (plus (Cls false [CSpace]))
                                   (Seq (Lit dquote)
                                      (Seq (star (Cls true [CChar dquote]))
                                         (Seq (Lit dquote) Eps)))))
                       (set_cap 2 st'2 st'3) (fun st'4 =>
                         step (fun x => canon fl_0 x =? canon fl_0 (ch ")")) st'4
                           (fun st'5 => Some st'5))))) p2) as [p3 E3].
    etransitivity; [exact E3|]. clear E3. cbn [m]. rewrite m_plus_cls.
    destruct u as [|c u]; [congruence|]. cbn [app].
    apply not_elem_of_cons in Hu as [Hc Hu].
    change [chr ")"] with [CChar (ch ")")].
    rewrite (cls_not_single fl_0 (ch ")") c) by (vm_compute; left; reflexivity).
    rewrite (proj2 (N.eqb_neq c (ch ")"))) by congruence. cbn [negb].
    apply star_cls_longest.
    + apply forallb_not_single; [vm_compute; left; reflexivity|exact Hu].
    + reflexivity.
    + intros p4. unfold set_cap. cbn [rest caps prev].
      change (c :: u ++ js ")" ++ s) with ((c :: u) ++ js ")" ++ s).
      rewrite take_prefix_length.
      rewrite m_opt_skip by (intros k'; reflexivity). reflexivity.
Qed.

(** X11: for a text that starts with a markdown image whose alternative
    text has no closing bracket and whose parenthesised part is not empty
    and has no closing parenthesis, the first markdown entry has that
    alternative text, and as its URL the whole parenthesised part, trimmed:
    a quoted title after the URL stays in it. *)
Theorem markdown_image_entry (a u s : jsstring) :
  ch "]" ∉ a -> ch ")" ∉ u -> u <> [] ->
  exists later,
    extractImageUrls (js "![" ++ a ++ js "](" ++ u ++ js ")" ++ s)
    = htmlImages (js "![" ++ a ++ js "](" ++ u ++ js ")" ++ s)
      ++ ImageInfo (trim u) a ImgMarkdown (js "![" ++ a ++ js "](" ++ u ++ js ")")
         :: later.
Proof.
  intros Ha Hu Hne. unfold extractImageUrls.
  set (text := js "![" ++ a ++ js "](" ++ u ++ js ")" ++ s).
  unfold markdownImages.
  change (2 + length text)%nat with (S (S (length text))).
  rewrite exec_all_eq, search_eq.
  subst text. rewrite (markdownImgRegex_match a u s None Ha Hu Hne).
  cbv zeta. cbn [length drop rest caps fst snd map].
  eexists. f_equal. apply (f_equal2 cons); [|reflexivity].
  rewrite drop_0. unfold group_or_empty.
  replace (js "![" ++ a ++ js "](" ++ u ++ js ")" ++ s)
    with ((js "![" ++ a ++ js "](" ++ u ++ js ")") ++ s)
    by (rewrite <- !app_assoc; reflexivity).
  rewrite take_prefix_length.
  f_equal; rewrite ?lookup_insert_ne by discriminate;
    rewrite ?lookup_insert_eq; reflexivity.
Qed.

(** ** Global replacement of a character class by nothing *)

Lemma exec_all_skip (fl : flags) (r : regex) (fuel : nat) (p : option N)
    (c : N) (s : jsstring) :
  m fl r (MState p (c :: s) ∅) Some = None ->
  exec_all (S fuel) fl r p (c :: s)
  = push_skipped c (exec_all (S fuel) fl r (Some c) s).
Proof.
  intros H. rewrite !exec_all_eq, (search_eq fl r p (c :: s)), H.
  destruct (search fl r (Some c) s) as [[sk st]|]; reflexivity.
Qed.

Lemma concat_push_skipped (c : N)
    (res : list (jsstring * jsstring * gmap nat jsstring) * jsstring) :
  concat (map (fun x => x.1.1 ++ []) (push_skipped c res).1)
    ++ (push_skipped c res).2
  = c :: concat (map (fun x => x.1.1 ++ []) res.1) ++ res.2.
Proof. destruct res as [[|[[sk mt] cp] ms] tl]; reflexivity. Qed.

Lemma replace_cls_filter (fl : flags) (neg : bool) (items : list citem)
    (s : jsstring) :
  forall fuel p, (length s < fuel)%nat ->
    concat (map (fun x => x.1.1 ++ [])
              (exec_all fuel fl (Cls neg items) p s).1)
      ++ (exec_all fuel fl (Cls neg items) p s).2
    = List.filter (fun c => negb (cls_matches fl neg items c)) s.
Proof.
  induction s as [|c s IH]; intros fuel p Hf;
    (destruct fuel as [|fuel]; [simpl in Hf; lia|]).
  - reflexivity.
  - cbn [List.filter].
    destruct (cls_matches fl neg items c) eqn:E; cbn [negb].
    + rewrite exec_all_eq, search_eq. cbn [m]. unfold step. cbn [rest caps].
      rewrite E. cbv zeta. cbn [length drop rest prev caps fst snd].
      replace (S (length s) - length s)%nat with 1%nat by lia.
      cbn [take map concat app]. apply IH. simpl in Hf. lia.
    + rewrite exec_all_skip by (cbn [m]; unfold step; cbn [rest]; rewrite E; reflexivity).
      rewrite concat_push_skipped. f_equal.
      apply IH. simpl in Hf. lia.
Qed.

Lemma strip_filter (uri : jsstring) :
  replace_all fl_0 ATTR_WHITESPACE (fun _ _ => []) uri = stripped uri.
Proof.
  unfold replace_all, ATTR_WHITESPACE, stripped. cbv zeta.
  apply replace_cls_filter. simpl. lia.
Qed.

(** ** isAllowedUri *)

Lemma existsb_false {A} (f : A -> bool) (l : list A) :
  (forall x, x ∈ l -> f x = false) -> existsb f l = false.
Proof.
  induction l as [|x l IH]; intros H; [reflexivity|]. cbn [existsb].
  rewrite (H x) by left. apply IH. intros y Hy. apply H. right. exact Hy.
Qed.

Lemma star_cls_prefix_none {B} (q : N -> bool) (K : mstate -> option B)
    (cp : gmap nat jsstring) (x : N) (r : jsstring) (w : jsstring) :
  q x = false ->
  (forall p' w2, w2 `suffix_of` w -> K (MState p' (w2 ++ x :: r) cp) = None) ->
  forall p, star_cls q K p (w ++ x :: r) cp = None.
Proof.
  intros Hx. induction w as [|c w IH]; intros HK p; cbn [app star_cls].
  - rewrite Hx. apply (HK p []). reflexivity.
  - rewrite IH.
    + destruct (q c); apply (HK p (c :: w)); reflexivity.
    + intros p' w2 Hs. apply HK. apply suffix_cons_r. exact Hs.
Qed.

Lemma canon_upper (x : N) : canon fl_i x = upper x.
Proof. reflexivity. Qed.

Lemma Forall2_canon_upper (w p : jsstring) :
  Forall2 (fun x c => canon fl_i x = canon fl_i c) w p ->
  map upper w = map upper p.
Proof.
  induction 1 as [|x c w p H _ IH]; [reflexivity|].
  cbn [map]. rewrite <- !canon_upper, H, IH. reflexivity.
Qed.

Lemma first_occurrence_unique (c : N) (u1 u2 r1 r2 : jsstring) :
  c ∉ u1 -> c ∉ u2 -> u1 ++ c :: r1 = u2 ++ c :: r2 -> u1 = u2.
Proof.
  revert u2. induction u1 as [|x u1 IH]; intros [|y u2] H1 H2 E.
  - reflexivity.
  - injection E as -> _. exfalso. apply H2. left.
  - injection E as -> _. exfalso. apply H1. left.
  - injection E as -> E. f_equal.
    apply not_elem_of_cons in H1 as [_ H1].
    apply not_elem_of_cons in H2 as [_ H2]. exact (IH _ H1 H2 E).
Qed.

Lemma scheme_char_not_colon (w : jsstring) :
  Forall scheme_char w -> ch ":" ∉ w.
Proof.
  induction 1 as [|x w Hx _ IH]; [apply not_elem_of_nil|].
  apply not_elem_of_cons. split; [|exact IH].
  intros E. change (ch ":") with 58 in E. subst x.
  destruct Hx as [[[? ?]|[? ?]]|[[? ?]|[?|?]]]; try lia; discriminate.
Qed.

Lemma canon_colon_left (c : N) :
  upper (ch ":") = upper c -> c = ch ":".
Proof.
  change (upper (ch ":")) with 58. change (ch ":") with 58. unfold upper.
  destruct ((97 <=? c) && (c <=? 122)) eqn:E; [|congruence].
  apply andb_true_iff in E as [E1 E2].
  apply N.leb_le in E1. apply N.leb_le in E2. lia.
Qed.

Lemma canon_no_colon (w p : jsstring) :
  Forall2 (fun x c => canon fl_i x = canon fl_i c) w p ->
  ch ":" ∉ p -> ch ":" ∉ w.
Proof.
  induction 1 as [|x c w p H _ IH]; intros Hp; [apply not_elem_of_nil|].
  apply not_elem_of_cons in Hp as [Hc Hp].
  apply not_elem_of_cons. split; [|exact (IH Hp)].
  intros E. subst x. rewrite !canon_upper in H.
  apply canon_colon_left in H. congruence.
Qed.

(** The follow class of the pattern leaves out the code units of a scheme
    and the colon. *)
Lemma scheme_end_excludes (c : N) :
  scheme_char c \/ c = ch ":" ->
  cls_matches fl_i true scheme_end c = false.
Proof.
  intros H. unfold cls_matches.
  assert (E : existsb (item_matches fl_i c) scheme_end = true);
    [|rewrite E; reflexivity].
  destruct H as [[Hl|H]|H].
  - exact (letter_in_class c [chr "+"; CRange (ch ".") (ch ":")] Hl).
  - unfold scheme_end, rng, chr. cbn [existsb].
    change (ch "+") with 43 in *. change (ch ".") with 46 in *.
    change (ch ":") with 58. unfold item_matches at 2 3. cbn [item_has].
    destruct H as [[H1 H2]|[->| ->]]; try reflexivity.
    replace ((46 <=? c) && (c <=? 58)) with true
      by (symmetry; apply andb_true_iff; split; apply N.leb_le; lia).
    rewrite !orb_true_r. reflexivity.
  - subst c. reflexivity.
Qed.

Lemma scheme_char_in_run (c : N) :
  ascii_letter c -> cls_matches fl_i false scheme_run c = true.
Proof. apply letter_in_class. Qed.

Lemma letter_not_in_neg (c : N) :
  ascii_letter c -> cls_matches fl_i true [rng "a" "z"] c = false.
Proof.
  intros H. pose proof (letter_in_class c [] H) as E.
  unfold cls_matches in *. cbn [xorb] in E. rewrite E. reflexivity.
Qed.

Lemma colon_not_in_run : cls_matches fl_i false scheme_run (ch ":") = false.
Proof. reflexivity. Qed.

Lemma plain_name_no_colon (name : jsstring) :
  plain_name name = true -> ch ":" ∉ name.
Proof.
  unfold plain_name. induction name as [|c name IH]; intros H;
    [apply not_elem_of_nil|].
  cbn [forallb] in H. apply andb_true_iff in H as [Hc H].
  apply not_elem_of_cons. split; [|exact (IH H)].
  intros E. rewrite <- E in Hc. vm_compute in Hc. discriminate.
Qed.

Lemma elem_of_allowed_in (allowed : list jsstring) (name : jsstring) :
  name ∈ allowed ->
  forallb plain_name allowed = true ->
  ch ":" ∉ name.
Proof.
  intros Hin H. rewrite forallb_forall in H. apply list_elem_of_In in Hin.
  exact (plain_name_no_colon name (H _ Hin)).
Qed.

Lemma scheme_not_allowed (allowed : list jsstring) (scheme name : jsstring) :
  name ∈ allowed ->
  scheme_allowed allowed scheme = false ->
  map upper scheme <> map upper name.
Proof.
  intros Hin H E. unfold scheme_allowed in H.
  assert (Ht : existsb
            (fun name0 => bool_decide (map upper scheme = map upper name0))
            allowed = true); [|congruence].
  apply existsb_exists. exists name. split; [apply list_elem_of_In; exact Hin|].
  apply bool_decide_eq_true. exact E.
Qed.

(** No alternative matches a scheme that is not allowed. *)
Lemma uri_alternatives_reject (allowed : list jsstring) (l : N)
    (w tl : jsstring) :
  ascii_letter l -> Forall scheme_char w ->
  forallb plain_name allowed = true ->
  scheme_allowed allowed (l :: w) = false ->
  existsb (fun r => test fl_i r (l :: w ++ ch ":" :: tl))
    (alternatives_of allowed) = false.
Proof.
  intros Hl Hw Hplain Hno. apply existsb_false. intros r Hr.
  unfold alternatives_of in Hr. apply elem_of_app in Hr as [Hr|Hr].
  - (* an allowed name and a colon *)
    apply list_elem_of_In, in_map_iff in Hr as (name & <- & Hname).
    apply list_elem_of_In in Hname.
    cbn [cat foldr]. rewrite test_bol by reflexivity.
    destruct (m fl_i _ _ Some) as [b|] eqn:E; [exfalso|reflexivity].
    cbn [m] in E. unfold cat in E. rewrite m_lits in E.
    apply consume_some in E as (w' & r' & p' & Ein & Hall & HK).
    cbn [m] in HK. unfold step in HK. cbn [rest caps] in HK.
    destruct r' as [|x r']; [discriminate|].
    rewrite canon_other in HK by (vm_compute; left; reflexivity).
    destruct (N.eqb_spec x (ch ":")) as [->|_]; [|discriminate].
    assert (Hw' : ch ":" ∉ w').
    { apply (canon_no_colon w' name Hall).
      exact (elem_of_allowed_in allowed name Hname Hplain). }
    assert (Hs : ch ":" ∉ l :: w).
    { apply scheme_char_not_colon. constructor; [left; exact Hl|exact Hw]. }
    change (l :: w ++ ch ":" :: tl) with ((l :: w) ++ ch ":" :: tl) in Ein.
    apply (first_occurrence_unique _ _ _ _ _ Hs Hw') in Ein. subst w'.
    apply Forall2_canon_upper in Hall.
    exact (scheme_not_allowed allowed _ name Hname Hno Hall).
  - repeat (apply elem_of_cons in Hr as [->|Hr]);
      [| | |apply elem_of_nil in Hr as []];
      cbn [cat foldr]; rewrite test_bol by reflexivity; cbn [m].
    + (* a code unit that is no letter *)
      unfold step. cbn [rest]. rewrite (letter_not_in_neg l Hl). reflexivity.
    + (* a run and a code unit outside the follow class *)
      rewrite m_plus_cls, (scheme_char_in_run l Hl).
      rewrite star_cls_prefix_none; [reflexivity|exact colon_not_in_run|].
      intros p' w2 Hs. unfold step. cbn [rest].
      assert (Hhead : exists x r2, w2 ++ ch ":" :: tl = x :: r2
                                   /\ (scheme_char x \/ x = ch ":")).
      { destruct w2 as [|x w2]; [eexists _, _; split; [reflexivity|right; reflexivity]|].
        exists x, (w2 ++ ch ":" :: tl). split; [reflexivity|left].
        destruct Hs as [k Hk]. rewrite Hk in Hw.
        apply Forall_app in Hw as [_ Hw]. inversion Hw; assumption. }
      destruct Hhead as (x & r2 & -> & Hx).
      rewrite (scheme_end_excludes x Hx). reflexivity.
    + (* a run up to the end *)
      rewrite m_plus_cls, (scheme_char_in_run l Hl).
      rewrite star_cls_prefix_none; [reflexivity|exact colon_not_in_run|].
      intros p' w2 Hs. unfold at_eol. cbn [rest multiline fl_i].
      destruct w2; reflexivity.
Qed.

Lemma stripped_nonempty (uri : jsstring) (c : N) (s : jsstring) :
  stripped uri = c :: s -> exists x u, uri = x :: u.
Proof. destruct uri as [|x u]; [discriminate|eauto]. Qed.

Lemma isAllowedUri_eq (x : N) (u : jsstring)
    (protocols : option (list protocolEntry)) :
  forallb plain_name (allowedProtocols protocols) = true ->
  isAllowedUri (Some (x :: u)) protocols
  = Some (existsb (fun r => test fl_i r (stripped (x :: u)))
            (alternatives_of (allowedProtocols protocols))).
Proof.
  intros H. unfold isAllowedUri, uri_alternatives. rewrite H. cbv zeta.
  rewrite strip_filter. reflexivity.
Qed.

(** X12: with allowed names that are plain (letters, digits, hyphens),
    a URI is refused when, once the code units of [ATTR_WHITESPACE] are
    taken out of it, it starts with a scheme (a letter, then letters,
    digits, plus signs or full stops, up to a colon) that is none of the
    allowed names, whatever the case of its letters. *)
Theorem isAllowedUri_rejects_scheme (uri : jsstring)
    (protocols : option (list protocolEntry)) (l : N) (w tl : jsstring) :
  stripped uri = l :: w ++ ch ":" :: tl ->
  ascii_letter l -> Forall scheme_char w ->
  forallb plain_name (allowedProtocols protocols) = true ->
  scheme_allowed (allowedProtocols protocols) (l :: w) = false ->
  isAllowedUri (Some uri) protocols = Some false.
Proof.
  intros Es Hl Hw Hplain Hno.
  destruct (stripped_nonempty _ _ _ Es) as (x & u & ->).
  rewrite isAllowedUri_eq by exact Hplain. rewrite Es. f_equal.
  apply uri_alternatives_reject; assumption.
Qed.

Lemma consume_canon {B} (name : jsstring) :
  forall (w s : jsstring) (p : option N) (cp : gmap nat jsstring)
         (K : mstate -> option B),
    map upper w = map upper name ->
    exists p', consume fl_i name (MState p (w ++ s) cp) K = K (MState p' s cp).
Proof.
  induction name as [|c name IH]; intros [|x w] s p cp K E; try discriminate.
  - eauto.
  - cbn [map] in E. injection E as Ex E. cbn [consume app].
    unfold step. cbn [rest caps]. rewrite !canon_upper, Ex, N.eqb_refl.
    apply IH. exact E.
Qed.

Lemma not_letter_in_neg (c : N) :
  ~ ascii_letter c -> cls_matches fl_i true [rng "a" "z"] c = true.
Proof.
  intros H. unfold cls_matches. cbn [existsb]. rewrite orb_false_r.
  assert (E : item_matches fl_i c (rng "a" "z") = false);
    [|rewrite E; reflexivity].
  assert (E1 : (65 <=? c) && (c <=? 90) = false).
  { apply andb_false_iff. rewrite !N.leb_gt. unfold ascii_letter in H. lia. }
  assert (E2 : (97 <=? c) && (c <=? 122) = false).
  { apply andb_false_iff. rewrite !N.leb_gt. unfold ascii_letter in H. lia. }
  unfold item_matches, rng, item_has, lower, upper.
  change (ch "a") with 97. change (ch "z") with 122.
  rewrite E1, E2, E2. reflexivity.
Qed.

(** X13: with allowed names that are plain, a URI is accepted when, once
    the code units of [ATTR_WHITESPACE] are taken out of it, it starts
    with an allowed name (in any case) and a colon, or with a code unit
    that is no letter, or with a run of code units of the first class of
    the pattern followed by one outside its second class (so a scheme that
    holds a hyphen passes, allowed or not). *)
Theorem isAllowedUri_accepts (uri : jsstring)
    (protocols : option (list protocolEntry)) :
  forallb plain_name (allowedProtocols protocols) = true ->
  (exists scheme tl,
      stripped uri = scheme ++ ch ":" :: tl
      /\ scheme_allowed (allowedProtocols protocols) scheme = true)
  \/ (exists c tl, stripped uri = c :: tl /\ ~ ascii_letter c)
  \/ (exists l w x tl,
        stripped uri = l :: w ++ x :: tl
        /\ forallb (cls_matches fl_i false scheme_run) (l :: w) = true
        /\ cls_matches fl_i true scheme_end x = true) ->
  isAllowedUri (Some uri) protocols = Some true.
Proof.
  intros Hplain H.
  assert (Hne : exists x u, uri = x :: u).
  { destruct H as [(scheme & tl & E & _)|[(c & tl & E & _)|(l & w & c & tl & E & _)]].
    - destruct uri as [|x u]; [|eauto]. destruct scheme; discriminate.
    - exact (stripped_nonempty _ _ _ E).
    - exact (stripped_nonempty _ _ _ E). }
  destruct Hne as (x & u & ->). rewrite isAllowedUri_eq by exact Hplain.
  f_equal. apply existsb_exists.
  destruct H as [(scheme & tl & -> & Hs)
                |[(c & tl & -> & Hc)|(l & w & c & tl & -> & Hrun & Hc)]].
  - unfold scheme_allowed in Hs. apply existsb_exists in Hs as (name & Hin & E).
    apply bool_decide_eq_true in E.
    exists (cat [Bol; cat (map Lit name); Lit (ch ":")]). split.
    + unfold alternatives_of. apply in_or_app. left.
      apply in_map_iff. exists name. split; [reflexivity|exact Hin].
    + cbn [cat foldr]. rewrite test_bol by reflexivity.
      cbn [m]. unfold cat. rewrite m_lits.
      destruct (consume_canon name scheme (ch ":" :: tl) None ∅
                  (fun st' => m fl_i Eps st' (fun st'0 =>
                     step (fun x0 => canon fl_i x0 =? canon fl_i (ch ":")) st'0
                       (fun st'1 => Some st'1))) E) as [p' ->].
      reflexivity.
  - exists (cat [Bol; Cls true [rng "a" "z"]]). split.
    + unfold alternatives_of. apply in_or_app. right. left. reflexivity.
    + cbn [cat foldr]. rewrite test_bol by reflexivity.
      cbn [m]. unfold step. cbn [rest]. rewrite (not_letter_in_neg c Hc).
      reflexivity.
  - exists (cat [Bol; plus (Cls false scheme_run); Cls true scheme_end]). split.
    + unfold alternatives_of. apply in_or_app. right. right. left. reflexivity.
    + cbn [cat foldr]. rewrite test_bol by reflexivity.
      cbn [m]. rewrite m_plus_cls.
      cbn [forallb] in Hrun. apply andb_true_iff in Hrun as [Hl Hw].
      rewrite Hl.
      destruct (star_cls_reach (cls_matches fl_i false scheme_run)
                  (fun st' => step (cls_matches fl_i true scheme_end) st'
                                (fun st'0 => m fl_i Eps st'0 Some))
                  w (c :: tl) ∅ Hw) with (p := Some l) as [b Hb].
      * intros p. unfold step. cbn [rest caps]. rewrite Hc. eauto.
      * cbn [m] in Hb |- *. rewrite Hb. reflexivity.
Qed.

(** X14: the empty URI is accepted, whatever the names; with allowed names
    that are plain, a URI that is made only of code units of
    [ATTR_WHITESPACE] is refused. *)
Theorem isAllowedUri_blank (uri : jsstring)
    (protocols : option (list protocolEntry)) :
  isAllowedUri (Some []) protocols = Some true
  /\ isAllowedUri None protocols = Some true
  /\ (forallb plain_name (allowedProtocols protocols) = true ->
      uri <> [] -> stripped uri = [] ->
      isAllowedUri (Some uri) protocols = Some false).
Proof.
  split; [reflexivity|]. split; [reflexivity|]. intros Hplain Hne Es.
  destruct uri as [|x u]; [congruence|].
  rewrite isAllowedUri_eq by exact Hplain. rewrite Es. f_equal.
  apply existsb_false. intros r Hr.
  unfold alternatives_of in Hr. apply elem_of_app in Hr as [Hr|Hr].
  - apply list_elem_of_In, in_map_iff in Hr as (name & <- & _).
    cbn [cat foldr]. rewrite test_bol by reflexivity.
    destruct (m fl_i _ _ Some) as [b|] eqn:E; [exfalso|reflexivity].
    cbn [m] in E. unfold cat in E. rewrite m_lits in E.
    apply consume_some in E as (w' & r' & p' & Ein & _ & HK).
    destruct w'; [|discriminate]. cbn [app] in Ein. subst r'.
    discriminate.
  - repeat (apply elem_of_cons in Hr as [->|Hr]);
      [| | |apply elem_of_nil in Hr as []]; reflexivity.
Qed.


(** ** hexToRgb *)

Lemma search_bol (fl : flags) (r : regex) (s : jsstring) :
  multiline fl = false ->
  search fl (Seq Bol r) None s
  = match m fl r (MState None s ∅) Some with
    | Some st => Some ([], st)
    | None => None
    end.
Proof.
  intros Hm. rewrite search_eq. cbn [m]. unfold at_bol. cbn [prev].
  destruct (m fl r _ Some); [reflexivity|].
  destruct s as [|c s]; [reflexivity|].
  rewrite search_bol_later by assumption. reflexivity.
Qed.

Lemma m_grp_rep2 {B} (fl : flags) (n : nat) (neg : bool) (items : list citem)
    (p : option N) (s : jsstring) (cp : gmap nat jsstring)
    (K : mstate -> option B) :
  m fl (Grp n (Rep 2 (Some 2%nat) true (Cls neg items))) (MState p s cp) K
  = match s with
    | d1 :: d2 :: s' =>
        if cls_matches fl neg items d1 && cls_matches fl neg items d2
        then K (MState (Some d2) s' (<[n := [d1; d2]]> cp))
        else None
    | _ => None
    end.
Proof.
  cbn [m grp_ids rest Nat.add]. cbn [rep_loop Nat.ltb Nat.leb Nat.eqb andb].
  unfold clear_caps. cbn [foldr prev rest caps m]. unfold step at 1.
  cbn [rest caps].
  destruct s as [|d1 s]; [reflexivity|].
  destruct (cls_matches fl neg items d1); [|destruct s; reflexivity].
  cbn [andb rep_loop Nat.pred fmap option_fmap option_map Nat.ltb Nat.leb
       Nat.eqb foldr prev rest caps m].
  unfold step at 1. cbn [rest caps].
  destruct s as [|d2 s]; [reflexivity|].
  destruct (cls_matches fl neg items d2); [|reflexivity].
  cbn [rep_loop Nat.pred fmap option_fmap option_map]. unfold set_cap.
  cbn [prev rest caps].
  change (d1 :: d2 :: s) with ([d1; d2] ++ s). rewrite take_prefix_length.
  reflexivity.
Qed.

Lemma hex_digit_value (c : N) :
  cls_matches fl_i false [rng "a" "f"; CDigit] c
  = match digit_value c with Some _ => true | None => false end.
Proof.
  unfold cls_matches, digit_value. cbn [xorb existsb]. rewrite orb_false_r.
  unfold item_matches, rng, item_has, lower, upper.
  change (ch "a") with 97. change (ch "f") with 102.
  cbn [ignoreCase fl_i andb].
  repeat match goal with
         | |- context [?a <=? c] => destruct (N.leb_spec a c); try lia
         | |- context [c <=? ?b] => destruct (N.leb_spec c b); try lia
         end;
    cbn [andb orb];
    repeat match goal with
           | |- context [?a <=? ?b] => destruct (N.leb_spec a b); try lia
           end;
    reflexivity.
Qed.

Lemma digit_value_range (c : N) (v : Z) :
  digit_value c = Some v ->
  (0 <= v <= 15)%Z
  /\ (48 <= c <= 57 \/ 97 <= c <= 102 \/ 65 <= c <= 70).
Proof.
  unfold digit_value.
  repeat match goal with
         | |- context [?a <=? ?b] => destruct (N.leb_spec a b)
         end; cbn [andb]; intros [= <-]; lia.
Qed.

Lemma parseInt16_pair (d1 d2 : N) (x y : Z) :
  digit_value d1 = Some x -> digit_value d2 = Some y ->
  parseInt16 [d1; d2] = Int (16 * x + y).
Proof.
  intros H1 H2.
  destruct (digit_value_range _ _ H1) as [_ R1].
  destruct (digit_value_range _ _ H2) as [_ R2].
  unfold parseInt16, trimStart. cbn [dropWhile].
  assert (W : isWhiteSpace d1 = false).
  { unfold isWhiteSpace.
    repeat match goal with
           | |- context [?a <=? ?b] => destruct (N.leb_spec a b); try lia
           | |- context [?a =? ?b] => destruct (N.eqb_spec a b); try lia
           end; reflexivity. }
  rewrite W.
  rewrite (proj2 (N.eqb_neq d1 (ch "-"))) by (change (ch "-") with 45; lia).
  rewrite (proj2 (N.eqb_neq d1 (ch "+"))) by (change (ch "+") with 43; lia).
  rewrite (proj2 (N.eqb_neq d2 (ch "x"))) by (change (ch "x") with 120; lia).
  rewrite (proj2 (N.eqb_neq d2 (ch "X"))) by (change (ch "X") with 88; lia).
  rewrite andb_false_r. cbn [hex_prefix]. rewrite H1. cbn [hex_prefix].
  rewrite H2. cbn [hex_prefix]. f_equal. lia.
Qed.

Lemma hex_pair_range (c d : N) (v : Z) :
  hex_pair c d = Some v -> (0 <= v <= 255)%Z.
Proof.
  unfold hex_pair.
  destruct (digit_value c) as [x|] eqn:E1; [|discriminate].
  destruct (digit_value d) as [y|] eqn:E2; [|discriminate].
  apply digit_value_range in E1 as [E1 _].
  apply digit_value_range in E2 as [E2 _].
  intros [= <-]. lia.
Qed.

(** The pattern after the optional [#]. *)
Lemma hex_color_digits (p : option N) (s : jsstring) :
  m fl_i (cat [Grp 1 (Rep 2 (Some 2%nat) true hex_digit);
               Grp 2 (Rep 2 (Some 2%nat) true hex_digit);
               Grp 3 (Rep 2 (Some 2%nat) true hex_digit); Eol])
    (MState p s ∅) Some
  = match s with
    | [d1; d2; d3; d4; d5; d6] =>
        match hex_pair d1 d2, hex_pair d3 d4, hex_pair d5 d6 with
        | Some _, Some _, Some _ =>
            Some (MState (Some d6) []
                    (<[3%nat := [d5; d6]]>
                       (<[2%nat := [d3; d4]]> (<[1%nat := [d1; d2]]> ∅))))
        | _, _, _ => None
        end
    | _ => None
    end.
Proof.
  cbn [cat foldr]. unfold hex_digit, hex_pair.
  change (m fl_i (Seq ?a ?b) ?st ?k) with (m fl_i a st (fun st' => m fl_i b st' k)).
  rewrite m_grp_rep2.
  destruct s as [|d1 [|d2 s]]; try reflexivity. rewrite !hex_digit_value.
  destruct (digit_value d1) as [x1|];
    [|destruct s as [|? [|? [|? [|? [|? ?]]]]]; reflexivity].
  destruct (digit_value d2) as [x2|];
    [|destruct s as [|? [|? [|? [|? [|? ?]]]]]; reflexivity].
  cbn [andb].
  change (m fl_i (Seq ?a ?b) ?st ?k) with (m fl_i a st (fun st' => m fl_i b st' k)).
  rewrite m_grp_rep2.
  destruct s as [|d3 [|d4 s]]; try reflexivity. rewrite !hex_digit_value.
  destruct (digit_value d3) as [x3|];
    [|destruct s as [|? [|? [|? ?]]]; reflexivity].
  destruct (digit_value d4) as [x4|];
    [|destruct s as [|? [|? [|? ?]]]; reflexivity].
  cbn [andb].
  change (m fl_i (Seq ?a ?b) ?st ?k) with (m fl_i a st (fun st' => m fl_i b st' k)).
  rewrite m_grp_rep2.
  destruct s as [|d5 [|d6 s]]; try reflexivity. rewrite !hex_digit_value.
  destruct (digit_value d5) as [x5|]; [|destruct s; reflexivity].
  destruct (digit_value d6) as [x6|]; [|destruct s; reflexivity].
  cbn [andb m]. unfold at_eol. cbn [rest multiline fl_i andb].
  destruct s; reflexivity.
Qed.

Lemma hex_color_after_hash (p : option N) (s : jsstring) :
  m fl_i (cat [Grp 1 (Rep 2 (Some 2%nat) true hex_digit);
               Grp 2 (Rep 2 (Some 2%nat) true hex_digit);
               Grp 3 (Rep 2 (Some 2%nat) true hex_digit); Eol])
    (MState p (ch "#" :: s) ∅) Some = None.
Proof.
  rewrite hex_color_digits.
  destruct s as [|? [|? [|? [|? [|? [|? ?]]]]]]; reflexivity.
Qed.

Lemma hexToRgb_search (hex : jsstring) :
  search fl_i re_hex_color None hex
  = match m fl_i (cat [Grp 1 (Rep 2 (Some 2%nat) true hex_digit);
                       Grp 2 (Rep 2 (Some 2%nat) true hex_digit);
                       Grp 3 (Rep 2 (Some 2%nat) true hex_digit); Eol])
            (MState (match hex with
                     | c :: _ => if c =? ch "#" then Some c else None
                     | [] => None
                     end)
               (match hex with
                | c :: t => if c =? ch "#" then t else hex
                | [] => hex
                end) ∅) Some with
    | Some st => Some ([], st)
    | None => None
    end.
Proof.
  unfold re_hex_color. cbn [cat foldr]. rewrite search_bol by reflexivity.
  change (m fl_i (Seq ?a ?b) ?st ?k) with (m fl_i a st (fun st' => m fl_i b st' k)).
  rewrite m_opt_lit. destruct hex as [|c t]; [reflexivity|].
  rewrite canon_other by (vm_compute; left; reflexivity).
  destruct (N.eqb_spec c (ch "#")) as [->|_]; [|reflexivity].
  pose proof (hex_color_after_hash None t) as Hh.
  cbn [cat foldr m] in Hh |- *. rewrite Hh.
  match goal with
  | |- context [match ?x with Some b => Some b | None => None end] =>
      destruct x
  end; reflexivity.
Qed.

(** X16: [hexToRgb] accepts a color exactly when it is six hexadecimal
    digits, with or without a [#] before them, and answers the value of
    each pair of digits; every component it answers is an integer from 0
    to 255. *)
Theorem hexToRgb_decodes (hex : jsstring) :
  hexToRgb hex = spec_hexToRgb hex
  /\ forall c, hexToRgb hex = Some c ->
       exists r g b : Z,
         c = Rgb (Int r) (Int g) (Int b)
         /\ (0 <= r <= 255)%Z /\ (0 <= g <= 255)%Z /\ (0 <= b <= 255)%Z.
Proof.
  assert (E : hexToRgb hex = spec_hexToRgb hex).
  { unfold hexToRgb, spec_hexToRgb. rewrite hexToRgb_search, hex_color_digits.
    destruct (match hex with
              | c :: t => if c =? ch "#" then t else hex
              | [] => hex
              end) as [|d1 [|d2 [|d3 [|d4 [|d5 [|d6 [|d7 s]]]]]]];
      try reflexivity.
    unfold hex_pair.
    destruct (digit_value d1) as [x1|] eqn:E1; [|reflexivity].
    destruct (digit_value d2) as [x2|] eqn:E2; [|reflexivity].
    destruct (digit_value d3) as [x3|] eqn:E3; [|reflexivity].
    destruct (digit_value d4) as [x4|] eqn:E4; [|reflexivity].
    destruct (digit_value d5) as [x5|] eqn:E5; [|reflexivity].
    destruct (digit_value d6) as [x6|] eqn:E6; [|reflexivity].
    cbv zeta. cbn [caps].
    rewrite ?lookup_insert_eq.
    repeat (rewrite lookup_insert_ne by discriminate; rewrite ?lookup_insert_eq).
    cbn [default from_option]. unfold id.
    rewrite (parseInt16_pair _ _ _ _ E1 E2), (parseInt16_pair _ _ _ _ E3 E4),
      (parseInt16_pair _ _ _ _ E5 E6). reflexivity. }
  split; [exact E|]. rewrite E. unfold spec_hexToRgb.
  destruct (match hex with
            | c :: t => if c =? ch "#" then t else hex
            | [] => hex
            end) as [|d1 [|d2 [|d3 [|d4 [|d5 [|d6 [|d7 s]]]]]]];
    try discriminate.
  destruct (hex_pair d1 d2) as [r|] eqn:Er; [|discriminate].
  destruct (hex_pair d3 d4) as [g|] eqn:Eg; [|discriminate].
  destruct (hex_pair d5 d6) as [b|] eqn:Eb; [|discriminate].
  intros c [= <-]. exists r, g, b.
  split; [reflexivity|].
  split; [exact (hex_pair_range _ _ _ Er)|].
  split; [exact (hex_pair_range _ _ _ Eg)|exact (hex_pair_range _ _ _ Eb)].
Qed.

(** ** cn *)

Lemma join_app (sep : jsstring) (a b : list jsstring) :
  a <> [] -> b <> [] -> join sep (a ++ b) = join sep a ++ sep ++ join sep b.
Proof.
  intros Ha Hb. destruct a as [|x a]; [congruence|].
  destruct b as [|y b]; [congruence|].
  cbn [join app]. rewrite map_app, concat_app. cbn [map concat].
  rewrite <- !app_assoc. reflexivity.
Qed.

Lemma kept_text_nonempty (v : classValue) :
  Boolean v = true -> class_text v <> [].
Proof. destruct v as [[|c s]|[|]| |]; discriminate. Qed.

Lemma cn_nil_iff (classes : list classValue) :
  cn classes = [] <-> List.filter Boolean classes = [].
Proof.
  unfold cn. split; [|intros ->; reflexivity].
  destruct (List.filter Boolean classes) as [|v l] eqn:E; [reflexivity|].
  assert (Hv : Boolean v = true).
  { assert (Hin : In v (List.filter Boolean classes)) by (rewrite E; left; reflexivity).
    apply filter_In in Hin as [_ Hin]. exact Hin. }
  cbn [map join]. intros H. apply app_eq_nil in H as [H _].
  exfalso. exact (kept_text_nonempty v Hv H).
Qed.

(** X17: class names built in two steps are the class names built in one:
    joining the results of two calls gives what one call on all the
    arguments gives, with no space lost or doubled, and an argument that is
    [false], [null], [undefined] or empty leaves no trace. *)
Theorem cn_nested (xs ys : list classValue) :
  cn [ClassString (cn xs); ClassString (cn ys)] = cn (xs ++ ys)
  /\ forall v, Boolean v = false -> cn (xs ++ v :: ys) = cn (xs ++ ys).
Proof.
  split.
  - unfold cn at 4. rewrite List.filter_app, map_app.
    destruct (List.filter Boolean xs) as [|x xs'] eqn:Ex;
      destruct (List.filter Boolean ys) as [|y ys'] eqn:Ey.
    + rewrite (proj2 (cn_nil_iff xs) Ex), (proj2 (cn_nil_iff ys) Ey). reflexivity.
    + rewrite (proj2 (cn_nil_iff xs) Ex). cbn [app].
      assert (Hy : cn ys <> []) by (rewrite cn_nil_iff, Ey; discriminate).
      unfold cn at 1. cbn [List.filter Boolean].
      destruct (cn ys) as [|c s] eqn:E; [congruence|].
      cbn [map class_text join concat]. rewrite app_nil_r.
      rewrite <- E. unfold cn. rewrite Ey. reflexivity.
    + rewrite (proj2 (cn_nil_iff ys) Ey), app_nil_r.
      assert (Hx : cn xs <> []) by (rewrite cn_nil_iff, Ex; discriminate).
      unfold cn at 1. cbn [List.filter Boolean].
      destruct (cn xs) as [|c s] eqn:E; [congruence|].
      cbn [map class_text join concat]. rewrite app_nil_r.
      rewrite <- E. unfold cn. rewrite Ex. reflexivity.
    + assert (Hx : cn xs <> []) by (rewrite cn_nil_iff, Ex; discriminate).
      assert (Hy : cn ys <> []) by (rewrite cn_nil_iff, Ey; discriminate).
      rewrite join_app by discriminate.
      unfold cn at 1. cbn [List.filter Boolean].
      destruct (cn xs) as [|c s] eqn:E; [congruence|].
      destruct (cn ys) as [|c' s'] eqn:E'; [congruence|].
      cbn [map class_text join concat]. rewrite app_nil_r.
      rewrite <- E, <- E'. unfold cn. rewrite Ex, Ey. reflexivity.
  - intros v Hv. unfold cn. rewrite !List.filter_app. cbn [List.filter].
    rewrite Hv. reflexivity.
Qed.

(** ** The other attributes of a serialized image *)

(** X18: besides [src], [alt] and [title], the serialized image carries the
    attributes handed in as [HTMLAttributes] whose value is a string, as
    they are, and no other: a number, a boolean or [null] is dropped. *)
Theorem renderHTML_other_attributes (H : gmap jsstring jsvalue)
    (attrs : imageAttrs) (k : jsstring) :
  k <> js "src" -> k <> js "alt" -> k <> js "title" ->
  renderHTML H attrs !! k
  = match H !! k with
    | Some (VString s) => Some s
    | _ => None
    end.
Proof.
  intros Hs Ha Ht. unfold renderHTML. rewrite !lookup_set_nonempty.
  rewrite !bool_decide_eq_false_2 by congruence.
  unfold string_values. rewrite lookup_omap.
  rewrite !lookup_delete_ne by congruence.
  destruct (H !! k) as [[| |s|n|b]|]; reflexivity.
Qed.

(** ** The further properties on concrete inputs *)


Lemma mention_selection_in_list_witness :
  in_list [1; 2; 3]
    (foldl (press [1; 2; 3]) mention_init [js "ArrowUp"; js "Enter"])
  /\ Forall (fun x => x ∈ [1; 2; 3])
       (commanded (foldl (press [1; 2; 3]) mention_init
                     [js "ArrowUp"; js "Enter"])).
Proof.
  apply (mention_selection_in_list [1; 2; 3] [js "ArrowUp"; js "Enter"]).
  discriminate.
Defined.

Lemma mention_arrows_inverse_witness :
  upHandler [1; 2; 3] (downHandler [1; 2; 3] (MentionState (Int 2) []))
  = MentionState (Int 2) []
  /\ downHandler [1; 2; 3] (upHandler [1; 2; 3] (MentionState (Int 2) []))
     = MentionState (Int 2) [].
Proof.
  apply (mention_arrows_inverse [1; 2; 3] (MentionState (Int 2) [])).
  exists 2%Z. split; [reflexivity|simpl; lia].
Defined.

Lemma image_round_trip_witness :
  exists attrs',
    getAttrs None
      (renderHTML ∅ (ImageAttrs (Some (js "a.png?token=1")) (Some (js " a.png "))
                       (Some (js "A")) None))
    = Some attrs'
    /\ src attrs' = Some (js "a.png") /\ originalSrc attrs' = Some (js "a.png")
    /\ alt attrs' = Some (js "A") /\ title attrs' = None
    /\ renderHTML ∅ attrs' !! js "src" = Some (js "a.png").
Proof.
  apply (image_round_trip ∅ ∅
           (ImageAttrs (Some (js "a.png?token=1")) (Some (js " a.png "))
              (Some (js "A")) None) (js " a.png ")).
  - reflexivity.
  - vm_compute. discriminate.
  - vm_compute. reflexivity.
Defined.

Lemma processedHtml_without_anchor_witness :
  processedHtml (js "<p>a < b</p>") = js "<p>a < b</p>".
Proof.
  apply (processedHtml_without_anchor (js "<p>a < b</p>")).
  vm_compute. reflexivity.
Defined.

Lemma html_image_alt_is_empty_witness :
  info_alt (ImageInfo (js "a.png") [] ImgHtml (js "<img src='a.png' alt='x'>"))
  = [].
Proof.
  apply (html_image_alt_is_empty (js "<img src='a.png' alt='x'> and text")).
  - apply list_elem_of_In. vm_compute. left. reflexivity.
  - reflexivity.
Defined.

Lemma markdown_image_entry_witness :
  exists later,
    extractImageUrls
      (js "![" ++ js "logo" ++ js "](" ++ (js "pic.png " ++ [dquote; ch "T"; dquote])
       ++ js ")" ++ js " end")
    = htmlImages
        (js "![" ++ js "logo" ++ js "](" ++ (js "pic.png " ++ [dquote; ch "T"; dquote])
         ++ js ")" ++ js " end")
      ++ ImageInfo (trim (js "pic.png " ++ [dquote; ch "T"; dquote])) (js "logo")
           ImgMarkdown
           (js "![" ++ js "logo" ++ js "](" ++ (js "pic.png " ++ [dquote; ch "T"; dquote])
            ++ js ")")
         :: later.
Proof.
  apply (markdown_image_entry (js "logo")
           (js "pic.png " ++ [dquote; ch "T"; dquote]) (js " end")).
  - vm_compute. intros H. repeat (apply elem_of_cons in H as [H|H]; [discriminate|]).
    apply elem_of_nil in H. exact H.
  - vm_compute. intros H. repeat (apply elem_of_cons in H as [H|H]; [discriminate|]).
    apply elem_of_nil in H. exact H.
  - discriminate.
Defined.

Lemma isAllowedUri_rejects_scheme_witness :
  isAllowedUri (Some (js "Java" ++ [tab] ++ js "Script:alert(1)")) None
  = Some false.
Proof.
  apply (isAllowedUri_rejects_scheme (js "Java" ++ [tab] ++ js "Script:alert(1)")
           None (ch "J") (js "avaScript") (js "alert(1)")).
  - vm_compute. reflexivity.
  - left. vm_compute. split; discriminate.
  - unfold js. cbn [list_ascii_of_string map].
    repeat (apply Forall_cons_2;
              [first [left; left; vm_compute; split; discriminate
                     |left; right; vm_compute; split; discriminate]|]).
    apply Forall_nil_2.
  - vm_compute. reflexivity.
  - vm_compute. reflexivity.
Defined.

Lemma isAllowedUri_accepts_witness :
  isAllowedUri (Some (js "MailTo:a@b.c")) None = Some true
  /\ isAllowedUri (Some (js "ms-word:x"))
       (Some [ProtocolOptions (js "web-cal") None]) = Some true.
Proof.
  split.
  - apply (isAllowedUri_accepts (js "MailTo:a@b.c") None).
    + vm_compute. reflexivity.
    + left. exists (js "MailTo"), (js "a@b.c"). split; vm_compute; reflexivity.
  - apply (isAllowedUri_accepts (js "ms-word:x")
             (Some [ProtocolOptions (js "web-cal") None])).
    + vm_compute. reflexivity.
    + right. right. exists (ch "m"), (js "s"), (ch "-"), (js "word:x").
      split; [vm_compute; reflexivity|]. split; vm_compute; reflexivity.
Defined.

Lemma isAllowedUri_blank_witness :
  isAllowedUri (Some [tab; ch " "]) None = Some false.
Proof.
  apply (proj2 (proj2 (isAllowedUri_blank [tab; ch " "] None))).
  - vm_compute. reflexivity.
  - discriminate.
  - vm_compute. reflexivity.
Defined.


Lemma hexToRgb_decodes_witness :
  exists r g b : Z,
    Rgb (Int 99) (Int 102) (Int 241) = Rgb (Int r) (Int g) (Int b)
    /\ (0 <= r <= 255)%Z /\ (0 <= g <= 255)%Z /\ (0 <= b <= 255)%Z.
Proof.
  apply (proj2 (hexToRgb_decodes (js "#6366f1"))). vm_compute. reflexivity.
Defined.

Lemma cn_nested_witness :
  cn ([ClassString (js "btn")] ++ ClassBoolean false :: [ClassString (js "on")])
  = cn ([ClassString (js "btn")] ++ [ClassString (js "on")]).
Proof.
  apply (proj2 (cn_nested [ClassString (js "btn")] [ClassString (js "on")])).
  reflexivity.
Defined.

Lemma renderHTML_other_attributes_witness :
  renderHTML {[ js "class" := VString (js "wide") ]}
    (ImageAttrs (Some (js "a.png")) None None None) !! js "class"
  = Some (js "wide").
Proof.
  rewrite (renderHTML_other_attributes {[ js "class" := VString (js "wide") ]}
             (ImageAttrs (Some (js "a.png")) None None None) (js "class"))
    by discriminate.
  vm_compute. reflexivity.
Defined.
